(** * IPL_Predictor: feature aggregation, cleaning, model store and
      prediction endpoint, embedded from

      - backend/preprocessing/feature_engineering.py
      - backend/model/predict.py, backend/model/train.py
      - backend/app.py

    Tables are lists of rows, Python dicts are association lists in
    insertion order, module globals and the storage/estimator calls are
    threaded through an explicit world.  Floating point values are
    rationals extended with the IEEE special values: the special values,
    what division by zero produces and the overflow of a quotient to an
    infinity are modelled, rounding inside the float64 range is not. *)

From Stdlib Require Import ZArith QArith List String Ascii Bool Arith Lia.
From Stdlib Require Import Qround Sorting.Sorted Structures.OrderedTypeEx.
From Stdlib Require Import Lqa Qabs DecimalString.
Import ListNotations.
Close Scope Q_scope.
Open Scope string_scope.
Open Scope list_scope.
Open Scope Z_scope.

(* ================================================================== *)
(** * Floating point cells *)
(* ================================================================== *)

Module PyFloat.

(** A float64 cell: a finite value, an infinity, or NaN (which pandas
    also uses for a missing numeric cell). *)
Inductive float : Type :=
| Fin (q : Q)
| PInf
| NInf
| NaN.

Definition of_Z (z : Z) : float := Fin (inject_Z z).

Definition Qsign (q : Q) : comparison := (q ?= 0)%Q.

(** Where float64 ends: a result whose magnitude reaches
    2^1024 - 2^970 (half a step above the largest finite value) is an
    infinity. *)
Definition overflow_bound : Q := inject_Z (2 ^ 1024 - 2 ^ 970).

Definition overflows (q : Q) : bool := Qle_bool overflow_bound (Qabs q).

(** The float64 an arithmetic result becomes. *)
Definition of_Q (q : Q) : float :=
  if overflows q then (if Qle_bool 0 q then PInf else NInf) else Fin q.

(** IEEE / numpy division: dividing by zero raises nothing, it yields
    an infinity or NaN, and so does a quotient beyond the range. *)
Definition div (a b : float) : float :=
  match a, b with
  | NaN, _ | _, NaN => NaN
  | Fin x, Fin y =>
      match Qsign y with
      | Eq => match Qsign x with
              | Gt => PInf
              | Lt => NInf
              | Eq => NaN
              end
      | _ => of_Q (x / y)%Q
      end
  | Fin _, (PInf | NInf) => Fin 0%Q
  | PInf, Fin y => match Qsign y with Lt => NInf | _ => PInf end
  | NInf, Fin y => match Qsign y with Lt => PInf | _ => NInf end
  | (PInf | NInf), (PInf | NInf) => NaN
  end.

(** Ordering; every comparison with NaN is false. *)
Definition compare (a b : float) : option comparison :=
  match a, b with
  | NaN, _ | _, NaN => None
  | Fin x, Fin y => Some (x ?= y)%Q
  | NInf, NInf | PInf, PInf => Some Eq
  | NInf, _ => Some Lt
  | _, NInf => Some Gt
  | _, PInf => Some Lt
  | PInf, _ => Some Gt
  end.

Definition ltb (a b : float) : bool :=
  match compare a b with Some Lt => true | _ => false end.
Definition gtb (a b : float) : bool :=
  match compare a b with Some Gt => true | _ => false end.
Definition leb (a b : float) : bool :=
  match compare a b with Some Lt | Some Eq => true | _ => false end.
(** Python [==]: NaN differs from everything, itself included. *)
Definition eqb (a b : float) : bool :=
  match compare a b with Some Eq => true | _ => false end.

Definition isna (a : float) : bool :=
  match a with NaN => true | _ => false end.
Definition notna (a : float) : bool := negb (isna a).

Definition isinf (a : float) : bool :=
  match a with PInf | NInf => true | _ => false end.

(** [Series.fillna v]. *)
Definition fillna (v : float) (a : float) : float :=
  if isna a then v else a.

(** [Series.replace([np.inf, -np.inf], v)]. *)
Definition replace_inf (v : float) (a : float) : float :=
  if isinf a then v else a.

(** Cell equality as [DataFrame.duplicated] sees it: missing cells
    are equal to each other. *)
Definition same (a b : float) : bool :=
  match a, b with
  | NaN, NaN => true
  | _, _ => eqb a b
  end.

Definition finite (a : float) : Prop := exists q, a = Fin q.

End PyFloat.

Import PyFloat.

(** Nullable text cells ([None] is a missing cell). *)
Definition same_text (a b : option string) : bool :=
  match a, b with
  | None, None => true
  | Some x, Some y => String.eqb x y
  | _, _ => false
  end.

Definition notna_text (a : option string) : bool :=
  match a with Some _ => true | None => false end.

(* ================================================================== *)
(** * backend/preprocessing/feature_engineering.py *)
(* ================================================================== *)

(** One ball of the raw ball-by-ball table (the columns the
    aggregation reads). *)
Module Delivery.
Record t : Type := mk {
  match_id : option Z;
  innings : option Z;
  batting_team : option string;
  bowling_team : option string;
  venue : option string;
  city : option string;
  season : option string;
  runs_batter : option Z;
  runs_extras : option Z;
  wicket_kind : option string;
  ball : option Z;
  match_won_by : option string
}.
End Delivery.

(** One row of the innings-level table returned by
    [aggregate_features] and consumed by [clean_data]. *)
Module Innings.
Record t : Type := mk {
  match_id : float;
  innings : float;
  season : option string;
  venue : option string;
  city : option string;
  batting_team : option string;
  bowling_team : option string;
  total_runs : float;
  total_wickets : float;
  balls_faced : float;
  overs_played : float;
  run_rate : float;
  extras_total : float;
  target : float
}.

(** All columns identical, as [drop_duplicates] compares rows. *)
Definition same (a b : t) : bool :=
  PyFloat.same (match_id a) (match_id b)
  && PyFloat.same (innings a) (innings b)
  && same_text (season a) (season b)
  && same_text (venue a) (venue b)
  && same_text (city a) (city b)
  && same_text (batting_team a) (batting_team b)
  && same_text (bowling_team a) (bowling_team b)
  && PyFloat.same (total_runs a) (total_runs b)
  && PyFloat.same (total_wickets a) (total_wickets b)
  && PyFloat.same (balls_faced a) (balls_faced b)
  && PyFloat.same (overs_played a) (overs_played b)
  && PyFloat.same (run_rate a) (run_rate b)
  && PyFloat.same (extras_total a) (extras_total b)
  && PyFloat.same (target a) (target b).
End Innings.

Module FeatureEngineering.

(** The caller's raw DataFrame: its rows, and the [is_wicket] column
    when the frame has one. *)
Record RawFrame : Type := mkRaw {
  rows : list Delivery.t;
  is_wicket : option (list Z)
}.

(** [df['wicket_kind'].notna().astype(int)] for one row. *)
Definition wicket_flag (d : Delivery.t) : Z :=
  if notna_text (Delivery.wicket_kind d) then 1 else 0.

(** [df['is_wicket'] = ...]: column assignment on the caller's
    frame. *)
Definition set_is_wicket (df : RawFrame) : RawFrame :=
  {| rows := rows df; is_wicket := Some (map wicket_flag (rows df)) |}.

(** Grouping key [(match_id, innings, batting_team)]. *)
Definition Key : Type := (Z * Z * string)%type.

(** [groupby] leaves out rows with a missing key (dropna=True). *)
Definition key_of (d : Delivery.t) : option Key :=
  match Delivery.match_id d, Delivery.innings d, Delivery.batting_team d with
  | Some m, Some i, Some b => Some (m, i, b)
  | _, _, _ => None
  end.

Definition key_compare (a b : Key) : comparison :=
  let '(m1, i1, b1) := a in
  let '(m2, i2, b2) := b in
  match Z.compare m1 m2 with
  | Eq => match Z.compare i1 i2 with
          | Eq => String.compare b1 b2
          | c => c
          end
  | c => c
  end.

Definition key_eqb (a b : Key) : bool :=
  match key_compare a b with Eq => true | _ => false end.

(** A group member: the delivery with its [is_wicket] cell. *)
Definition Member : Type := (Delivery.t * Z)%type.

(** Groups are kept in ascending key order (sort=True); inside a
    group the rows keep their order in the frame. *)
Fixpoint add_to_groups (k : Key) (x : Member)
         (gs : list (Key * list Member)) : list (Key * list Member) :=
  match gs with
  | [] => [(k, [x])]
  | (k', xs) :: rest =>
      match key_compare k k' with
      | Eq => (k', xs ++ [x]) :: rest
      | Lt => (k, [x]) :: gs
      | Gt => (k', xs) :: add_to_groups k x rest
      end
  end.

Definition groupby_step (gs : list (Key * list Member)) (x : Member)
  : list (Key * list Member) :=
  match key_of (fst x) with
  | Some k => add_to_groups k x gs
  | None => gs
  end.

Definition groupby (members : list Member) : list (Key * list Member) :=
  fold_left groupby_step members [].

(** Aggregations. ['sum'] skips missing cells, ['count'] counts the
    present ones, ['first'] is the first present cell of the group.
    The run cells are whole numbers and a sum is the exact one: that
    is what pandas computes as long as the sizes of the cells of a
    column add up to less than 2^53; beyond that an int64 sum wraps
    around and a float64 sum is rounded or overflows. *)
Definition agg_sum (l : list (option Z)) : Z :=
  fold_right (fun c acc => match c with Some z => z + acc | None => acc end) 0 l.

Definition agg_count {A} (l : list (option A)) : Z :=
  Z.of_nat (List.length (filter (fun c => match c with Some _ => true | None => false end) l)).

Fixpoint agg_first {A} (l : list (option A)) : option A :=
  match l with
  | [] => None
  | Some a :: _ => Some a
  | None :: rest => agg_first rest
  end.

(** The [aggregated] frame, after the renames and the derived
    columns. *)
Record Aggregated : Type := mkAgg {
  a_match_id : Z;
  a_innings : Z;
  a_batting_team : string;
  runs_off_bat_total : Z;
  a_extras_total : Z;
  a_total_wickets : Z;
  a_balls_faced : Z;
  a_season : option string;
  a_venue : option string;
  a_city : option string;
  a_bowling_team : option string;
  winner : option string;
  a_total_runs : Z;
  a_overs_played : float;
  a_run_rate : float;
  a_target : Z
}.

(** [(aggregated['batting_team'] == aggregated['winner']).astype(int)];
    a missing winner compares unequal. *)
Definition target_of (batting : string) (w : option string) : Z :=
  match w with
  | Some s => if String.eqb batting s then 1 else 0
  | None => 0
  end.

Definition aggregate_group (g : Key * list Member) : Aggregated :=
  let '((m, i, b), xs) := g in
  let ds := map fst xs in
  let runs := agg_sum (map Delivery.runs_batter ds) in
  let extras := agg_sum (map Delivery.runs_extras ds) in
  let balls := agg_count (map Delivery.ball ds) in
  let w := agg_first (map Delivery.match_won_by ds) in
  let total := runs + extras in
  let overs := PyFloat.div (of_Z balls) (of_Z 6) in
  let rr := PyFloat.div (of_Z total) overs in
  let rr := replace_inf (of_Z 0) rr in
  let rr := fillna (of_Z 0) rr in
  {| a_match_id := m;
     a_innings := i;
     a_batting_team := b;
     runs_off_bat_total := runs;
     a_extras_total := extras;
     a_total_wickets := fold_right Z.add 0 (map snd xs);
     a_balls_faced := balls;
     a_season := agg_first (map Delivery.season ds);
     a_venue := agg_first (map Delivery.venue ds);
     a_city := agg_first (map Delivery.city ds);
     a_bowling_team := agg_first (map Delivery.bowling_team ds);
     winner := w;
     a_total_runs := total;
     a_overs_played := overs;
     a_run_rate := rr;
     a_target := target_of b w |}.

(** [aggregated[[ 'match_id', ..., 'target' ]]]. *)
Definition final_features (a : Aggregated) : Innings.t :=
  {| Innings.match_id := of_Z (a_match_id a);
     Innings.innings := of_Z (a_innings a);
     Innings.season := a_season a;
     Innings.venue := a_venue a;
     Innings.city := a_city a;
     Innings.batting_team := Some (a_batting_team a);
     Innings.bowling_team := a_bowling_team a;
     Innings.total_runs := of_Z (a_total_runs a);
     Innings.total_wickets := of_Z (a_total_wickets a);
     Innings.balls_faced := of_Z (a_balls_faced a);
     Innings.overs_played := a_overs_played a;
     Innings.run_rate := a_run_rate a;
     Innings.extras_total := of_Z (a_extras_total a);
     Innings.target := of_Z (a_target a) |}.

(** [df.groupby([...]).agg({...}).reset_index()] with the renames and
    the derived columns; a frame without an [is_wicket] column cannot
    be aggregated (KeyError). *)
Definition aggregated_of (df : RawFrame) : option (list Aggregated) :=
  match is_wicket df with
  | Some col => Some (map aggregate_group (groupby (combine (rows df) col)))
  | None => None
  end.

(** [DataFrame.drop_duplicates()] (keep='first'). *)
Fixpoint drop_duplicates_from (seen : list Innings.t) (l : list Innings.t)
  : list Innings.t :=
  match l with
  | [] => []
  | r :: rest =>
      if existsb (Innings.same r) seen
      then drop_duplicates_from seen rest
      else r :: drop_duplicates_from (r :: seen) rest
  end.

Definition drop_duplicates (l : list Innings.t) : list Innings.t :=
  drop_duplicates_from [] l.

Definition dropna_critical (r : Innings.t) : bool :=
  notna_text (Innings.batting_team r)
  && notna_text (Innings.bowling_team r)
  && notna_text (Innings.venue r)
  && notna (Innings.target r).

(** [df_clean['city'] = df_clean['city'].fillna('Unknown')]. *)
Definition fill_city (r : Innings.t) : Innings.t :=
  {| Innings.match_id := Innings.match_id r;
     Innings.innings := Innings.innings r;
     Innings.season := Innings.season r;
     Innings.venue := Innings.venue r;
     Innings.city := match Innings.city r with
                     | Some c => Some c
                     | None => Some "Unknown"
                     end;
     Innings.batting_team := Innings.batting_team r;
     Innings.bowling_team := Innings.bowling_team r;
     Innings.total_runs := Innings.total_runs r;
     Innings.total_wickets := Innings.total_wickets r;
     Innings.balls_faced := Innings.balls_faced r;
     Innings.overs_played := Innings.overs_played r;
     Innings.run_rate := Innings.run_rate r;
     Innings.extras_total := Innings.extras_total r;
     Innings.target := Innings.target r |}.

(** [df_clean['extras_total'] = df_clean['extras_total'].fillna(0)]. *)
Definition fill_extras_total (r : Innings.t) : Innings.t :=
  {| Innings.match_id := Innings.match_id r;
     Innings.innings := Innings.innings r;
     Innings.season := Innings.season r;
     Innings.venue := Innings.venue r;
     Innings.city := Innings.city r;
     Innings.batting_team := Innings.batting_team r;
     Innings.bowling_team := Innings.bowling_team r;
     Innings.total_runs := Innings.total_runs r;
     Innings.total_wickets := Innings.total_wickets r;
     Innings.balls_faced := Innings.balls_faced r;
     Innings.overs_played := Innings.overs_played r;
     Innings.run_rate := Innings.run_rate r;
     Innings.extras_total := fillna (of_Z 0) (Innings.extras_total r);
     Innings.target := Innings.target r |}.


(** ** DataFrames as objects

    Both functions receive a reference to the caller's DataFrame.
    Frames live in a heap; an operation that returns a new frame
    allocates, a column assignment writes through the reference. *)
Inductive Obj : Type :=
| ORaw (f : RawFrame)
| OAgg (l : list Aggregated)
| OInn (l : list Innings.t).

Definition Ref : Type := nat.
Definition Heap : Type := list Obj.

(** Heap computations; [None] is a raised exception. *)
Definition M (A : Type) : Type := Heap -> option (A * Heap).

Definition ret {A} (a : A) : M A := fun h => Some (a, h).

Definition bind {A B} (m : M A) (k : A -> M B) : M B :=
  fun h => match m h with
           | Some (a, h') => k a h'
           | None => None
           end.

Definition raise {A} : M A := fun _ => None.

Notation "x <- m ;; k" := (bind m (fun x => k))
  (at level 61, m at next level, right associativity).
Notation "m ;;; k" := (bind m (fun _ => k))
  (at level 61, right associativity).

Definition alloc (o : Obj) : M Ref :=
  fun h => Some (List.length h, h ++ [o]).

Definition read (r : Ref) : M Obj :=
  fun h => match nth_error h r with
           | Some o => Some (o, h)
           | None => None
           end.

Fixpoint update (r : Ref) (o : Obj) (h : Heap) : Heap :=
  match h, r with
  | [], _ => []
  | _ :: t, O => o :: t
  | x :: t, S r' => x :: update r' o t
  end.

Definition write (r : Ref) (o : Obj) : M unit :=
  fun h => match nth_error h r with
           | Some _ => Some (tt, update r o h)
           | None => None
           end.

Definition read_raw (r : Ref) : M RawFrame :=
  o <- read r ;; match o with ORaw f => ret f | _ => raise end.
Definition read_agg (r : Ref) : M (list Aggregated) :=
  o <- read r ;; match o with OAgg l => ret l | _ => raise end.
Definition read_inn (r : Ref) : M (list Innings.t) :=
  o <- read r ;; match o with OInn l => ret l | _ => raise end.

Definition lift {A} (x : option A) : M A :=
  match x with Some a => ret a | None => raise end.

(** [aggregate_features(df)].  The first statement assigns the
    [is_wicket] column on the frame [df] refers to; [aggregated] is a
    frame of its own (the renames and derived columns are made on
    it), and so is the returned selection. *)
Definition aggregate_features (df : Ref) : M Ref :=
  f <- read_raw df ;;
  write df (ORaw (set_is_wicket f)) ;;;
  f <- read_raw df ;;
  rows_agg <- lift (aggregated_of f) ;;
  aggregated <- alloc (OAgg rows_agg) ;;
  a <- read_agg aggregated ;;
  alloc (OInn (map final_features a)).

(** [clean_data(df)].  [dropna], boolean indexing, [copy] and
    [drop_duplicates] each return a new frame; the two [fillna]
    assignments write to the copy. *)
Definition clean_data (df : Ref) : M Ref :=
  d <- read_inn df ;;
  df_clean <- alloc (OInn (filter dropna_critical d)) ;;
  d <- read_inn df_clean ;;
  df_clean <- alloc (OInn (filter (fun r => gtb (Innings.overs_played r) (of_Z 0)) d)) ;;
  d <- read_inn df_clean ;;
  df_clean <- alloc (OInn (filter (fun r => leb (Innings.run_rate r) (of_Z 50)) d)) ;;
  d <- read_inn df_clean ;;
  df_clean <- alloc (OInn d) ;;
  d <- read_inn df_clean ;;
  write df_clean (OInn (map fill_city d)) ;;;
  d <- read_inn df_clean ;;
  write df_clean (OInn (map fill_extras_total d)) ;;;
  d <- read_inn df_clean ;;
  alloc (OInn (drop_duplicates d)).

(** [prepare_ml_data] after loading: aggregate, then clean. *)
Definition prepare_ml_data (df_raw : Ref) : M Ref :=
  df_agg <- aggregate_features df_raw ;;
  clean_data df_agg.

End FeatureEngineering.

(* ================================================================== *)
(** * Python values, dicts, exceptions *)
(* ================================================================== *)

Module Py.

(** A value of a request dictionary as the JSON parser delivers it.
    Arrays and objects are not inspected by the code below; they are
    kept as an opaque payload. *)
Inductive value : Type :=
| VNone
| VBool (b : bool)
| VInt (z : Z)
| VFloat (x : float)
| VStr (s : string)
| VOther (payload : nat).

(** A dict: unique keys in insertion order. *)
Definition dict : Type := list (string * value).

Definition keys (d : dict) : list string := map fst d.

Fixpoint get (d : dict) (k : string) : option value :=
  match d with
  | [] => None
  | (k', v) :: rest => if String.eqb k' k then Some v else get rest k
  end.

(** [k in d]. *)
Definition contains (d : dict) (k : string) : bool :=
  match get d k with Some _ => true | None => false end.

(** [d[k] = v]: an existing key keeps its position. *)
Fixpoint set (d : dict) (k : string) (v : value) : dict :=
  match d with
  | [] => [(k, v)]
  | (k', v') :: rest =>
      if String.eqb k' k then (k', v) :: rest else (k', v') :: set rest k v
  end.

Inductive Exn : Type :=
| FileNotFoundError (msg : string)
| ValueError (msg : string)
| TypeError (msg : string)
| OverflowError (msg : string)
| IndexError (msg : string)
| KeyError (missing : list string)
| OtherError (msg : string).

Inductive Result (A : Type) : Type :=
| Ok (a : A)
| Raise (e : Exn).
Arguments Ok {A} a.
Arguments Raise {A} e.

(** The numeric view Python's [==] uses across bool, int and float. *)
Definition as_number (v : value) : option float :=
  match v with
  | VBool true => Some (of_Z 1)
  | VBool false => Some (of_Z 0)
  | VInt z => Some (of_Z z)
  | VFloat x => Some x
  | _ => None
  end.

(** [a == b]. *)
Definition py_eq (a b : value) : bool :=
  match a, b with
  | VNone, VNone => true
  | VStr s, VStr t => String.eqb s t
  | VOther m, VOther n => Nat.eqb m n
  | _, _ =>
      match as_number a, as_number b with
      | Some x, Some y => PyFloat.eqb x y
      | _, _ => false
      end
  end.

(** An int converts to float unless it rounds to 2^1024 or beyond. *)
Definition float_overflows (z : Z) : bool :=
  (2 ^ 1024 - 2 ^ 970 <=? Z.abs z).

(** [float(v)]; [parse] is [float] on a string ([None]: ValueError). *)
Definition py_float (parse : string -> option float) (v : value) : Result float :=
  match v with
  | VNone => Raise (TypeError "float() argument must be a string or a real number")
  | VBool true => Ok (of_Z 1)
  | VBool false => Ok (of_Z 0)
  | VInt z => if float_overflows z
              then Raise (OverflowError "int too large to convert to float")
              else Ok (of_Z z)
  | VFloat x => Ok x
  | VStr s => match parse s with
              | Some x => Ok x
              | None => Raise (ValueError "could not convert string to float")
              end
  | VOther _ => Raise (TypeError "float() argument must be a string or a real number")
  end.

(** [round(x, nd)] on the exact value: half goes to even. *)
Definition round_half_even (q : Q) : Z :=
  let n := Qfloor q in
  match (q - inject_Z n ?= 1 # 2)%Q with
  | Lt => n
  | Gt => n + 1
  | Eq => if Z.even n then n else n + 1
  end.

Definition round_nd (nd : nat) (x : float) : float :=
  match x with
  | Fin q =>
      let scale := inject_Z (10 ^ Z.of_nat nd) in
      Fin (inject_Z (round_half_even (q * scale)) / scale)%Q
  | other => other
  end.

(** [max(a, b)]: [b] only when it compares greater. *)
Definition max2 (a b : float) : float := if gtb b a then b else a.

(** [x * 100] for a scale factor that is positive and finite. *)
Definition scale_by (x : float) (c : Z) : float :=
  match x with
  | Fin q => Fin (q * inject_Z c)%Q
  | other => other
  end.

(** The decimal text of a number. *)
Definition decimal (n : nat) : string :=
  NilEmpty.string_of_uint (Nat.to_uint n).

(** [str(e)]. *)
Definition str (e : Exn) : string :=
  match e with
  | FileNotFoundError m | ValueError m | TypeError m
  | OverflowError m | IndexError m | OtherError m => m
  | KeyError missing => String.concat ", " missing ++ " not in index"
  end.

End Py.

(* ================================================================== *)
(** * backend/model/train.py: the training-time column selection *)
(* ================================================================== *)

Module Train.

Definition categorical_features : list string :=
  ["batting_team"; "bowling_team"; "venue"; "city"].

Definition numerical_features : list string :=
  ["total_runs"; "total_wickets"; "run_rate"; "extras_total"; "overs_played"].

(** [feature_columns = categorical_features + numerical_features],
    used for [X = df[feature_columns]]. *)
Definition feature_columns : list string :=
  categorical_features ++ numerical_features.

End Train.

(* ================================================================== *)
(** * backend/model/predict.py *)
(* ================================================================== *)

Module Predict.
Import Py.

(** ** DataFrames built from request dicts *)

Record DataFrame : Type := mkFrame {
  columns : list string;
  data : list (list value)
}.

(** Columns of [pd.DataFrame(list_of_dicts)]: the keys in order of
    first appearance. *)
Definition add_keys (cols : list string) (d : dict) : list string :=
  fold_left (fun acc k => if existsb (String.eqb k) acc then acc else acc ++ [k])
            (keys d) cols.

Definition frame_columns (l : list dict) : list string :=
  fold_left add_keys l [].

(** A key a dict lacks gives a NaN cell. *)
Definition cell_of (d : dict) (c : string) : value :=
  match get d c with
  | Some v => v
  | None => VFloat NaN
  end.

Definition DataFrame_of (l : list dict) : DataFrame :=
  let cols := frame_columns l in
  {| columns := cols; data := map (fun d => map (cell_of d) cols) l |}.

(** The cell of a row under a column label. *)
Fixpoint cell (cols : list string) (row : list value) (c : string) : value :=
  match cols, row with
  | k :: cols', v :: row' => if String.eqb k c then v else cell cols' row' c
  | _, _ => VFloat NaN
  end.

(** [df[cols]]: the listed columns in the listed order; KeyError names
    every label the frame lacks. *)
Definition select (cols : list string) (df : DataFrame) : Result DataFrame :=
  match filter (fun c => negb (existsb (String.eqb c) (columns df))) cols with
  | [] => Ok {| columns := cols;
                data := map (fun row => map (cell (columns df) row) cols) (data df) |}
  | missing => Raise (KeyError missing)
  end.

Definition required_fields : list string :=
  ["batting_team"; "bowling_team"; "venue"; "city";
   "total_runs"; "total_wickets"; "overs_played";
   "extras_total"; "run_rate"].

Definition feature_columns : list string :=
  ["batting_team"; "bowling_team"; "venue"; "city";
   "total_runs"; "total_wickets"; "run_rate";
   "extras_total"; "overs_played"].

(** The reordering step shared by [predict_match] and
    [batch_predict]: [pd.DataFrame(...)] then [input_df[feature_columns]]. *)
Definition reorder (l : list dict) : Result DataFrame :=
  select feature_columns (DataFrame_of l).

(** ** The estimator and the storage it is loaded from *)

(** A deserialised sklearn pipeline: the two methods the code calls. *)
Record Pipeline : Type := mkPipeline {
  predict : DataFrame -> Result (list Z);
  predict_proba : DataFrame -> Result (list (list float))
}.

(** A loaded model object; [hid] is its identity ([joblib.load]
    builds a new object on every call). *)
Record Handle : Type := mkHandle {
  hid : nat;
  pipeline : Pipeline
}.

(** What is stored under a path: nothing, or a file whose
    deserialisation yields a pipeline or raises. *)
Inductive File : Type :=
| Absent
| Present (content : Result Pipeline).

Definition Storage : Type := string -> File.

Inductive Event : Type :=
| EvExists (path : string)
| EvLoad (path : string)
| EvPredict (model : nat) (df : DataFrame)
| EvPredictProba (model : nat) (df : DataFrame).

(** The module globals [_cached_model] and [_model_path], with the
    calls made to storage and estimators so far and the identity of
    the next object [joblib.load] creates. *)
Record World : Type := mkWorld {
  cached_model : option Handle;
  model_path : option string;
  events : list Event;
  next_id : nat
}.

Definition log (e : Event) (w : World) : World :=
  {| cached_model := cached_model w;
     model_path := model_path w;
     events := events w ++ [e];
     next_id := next_id w |}.

(** [_model_path == model_path]. *)
Definition path_matches (w : World) (p : string) : bool :=
  match model_path w with
  | Some q => String.eqb q p
  | None => false
  end.

Definition missing_file (p : string) : Exn :=
  FileNotFoundError ("Model file not found: " ++ p).

(** The [try] block of [load_model]: the existence check, then
    [joblib.load] and the two assignments.  An exception leaves the
    block before either global is assigned. *)
Definition load_from_storage (fs : Storage) (p : string) (w : World)
  : World * Result Handle :=
  let w := log (EvExists p) w in
  match fs p with
  | Absent => (w, Raise (missing_file p))
  | Present content =>
      let w := log (EvLoad p) w in
      match content with
      | Raise e => (w, Raise e)
      | Ok pl =>
          let h := {| hid := next_id w; pipeline := pl |} in
          ({| cached_model := Some h;
              model_path := Some p;
              events := events w;
              next_id := S (next_id w) |}, Ok h)
      end
  end.

(** [load_model(model_path)]. *)
Definition load_model (fs : Storage) (p : string) (w : World)
  : World * Result Handle :=
  match cached_model w with
  | Some h =>
      if path_matches w p then (w, Ok h) else load_from_storage fs p w
  | None => load_from_storage fs p w
  end.

(** ** Predictions *)

Record PredictionResult : Type := mkResult {
  prediction_label : Z;
  win_probability : float;
  loss_probability : float;
  prediction_text : string
}.

(** The IndexError of numpy for index [i] into an array of [size]
    entries. *)
Definition out_of_bounds (i size : nat) : Exn :=
  IndexError ("index " ++ decimal i ++ " is out of bounds for axis 0 with size "
                ++ decimal size).

(** [a[i]] on an array the estimator returned. *)
Definition index {A} (l : list A) (i : nat) : Result A :=
  match nth_error l i with
  | Some a => Ok a
  | None => Raise (out_of_bounds i (List.length l))
  end.

Definition text_of (label : Z) : string :=
  if label =? 1 then "Batting Team Wins" else "Batting Team Loses".

(** The required field the validation loop stops at. *)
Definition first_missing (input_dict : dict) : option string :=
  find (fun field => negb (contains input_dict field)) required_fields.

Definition result_of (label : Z) (proba : list float) : Result PredictionResult :=
  match index proba 0 with
  | Raise e => Raise e
  | Ok loss =>
      match index proba 1 with
      | Raise e => Raise e
      | Ok win =>
          Ok {| prediction_label := label;
                win_probability := round_nd 4 win;
                loss_probability := round_nd 4 loss;
                prediction_text := text_of label |}
      end
  end.

(** [predict_match(input_dict, model_path)]; the [except] clause
    prints and re-raises. *)
Definition predict_match (fs : Storage) (input_dict : dict) (p : string)
           (w : World) : World * Result PredictionResult :=
  let (w, loaded) := load_model fs p w in
  match loaded with
  | Raise e => (w, Raise e)
  | Ok model =>
      match first_missing input_dict with
      | Some field => (w, Raise (ValueError ("Missing required field: " ++ field)))
      | None =>
          match reorder [input_dict] with
          | Raise e => (w, Raise e)
          | Ok input_df =>
              let w := log (EvPredict (hid model) input_df) w in
              match predict (pipeline model) input_df with
              | Raise e => (w, Raise e)
              | Ok labels =>
                  match index labels 0 with
                  | Raise e => (w, Raise e)
                  | Ok prediction_label =>
                      let w := log (EvPredictProba (hid model) input_df) w in
                      match predict_proba (pipeline model) input_df with
                      | Raise e => (w, Raise e)
                      | Ok probabilities =>
                          match index probabilities 0 with
                          | Raise e => (w, Raise e)
                          | Ok prediction_proba =>
                              (w, result_of prediction_label prediction_proba)
                          end
                      end
                  end
              end
          end
      end
  end.

(** The loop over [zip(predictions, probabilities)]. *)
Fixpoint batch_results (predictions : list Z) (probabilities : list (list float))
  : Result (list PredictionResult) :=
  match predictions, probabilities with
  | pred :: ps, proba :: qs =>
      match index proba 1 with
      | Raise e => Raise e
      | Ok win =>
          match index proba 0 with
          | Raise e => Raise e
          | Ok loss =>
              match batch_results ps qs with
              | Raise e => Raise e
              | Ok rest =>
                  Ok ({| prediction_label := pred;
                         win_probability := round_nd 4 win;
                         loss_probability := round_nd 4 loss;
                         prediction_text := text_of pred |} :: rest)
              end
          end
      end
  | _, _ => Ok []
  end.

(** [batch_predict(input_list, model_path)]. *)
Definition batch_predict (fs : Storage) (input_list : list dict) (p : string)
           (w : World) : World * Result (list PredictionResult) :=
  let (w, loaded) := load_model fs p w in
  match loaded with
  | Raise e => (w, Raise e)
  | Ok model =>
      match reorder input_list with
      | Raise e => (w, Raise e)
      | Ok input_df =>
          let w := log (EvPredict (hid model) input_df) w in
          match predict (pipeline model) input_df with
          | Raise e => (w, Raise e)
          | Ok predictions =>
              let w := log (EvPredictProba (hid model) input_df) w in
              match predict_proba (pipeline model) input_df with
              | Raise e => (w, Raise e)
              | Ok probabilities => (w, batch_results predictions probabilities)
              end
          end
      end
  end.

(** ** Calls of [load_model] that overlap

    [load_model] takes no lock.  A call in progress is a thread at one
    of the statements of the function; one step executes that
    statement on the shared globals, and a schedule picks which
    thread moves next. *)
Inductive PC : Type :=
| AtCheck                     (* if _cached_model is not None and ... *)
| AtExists                    (* if not os.path.exists(model_path) *)
| AtLoad                      (* _cached_model = joblib.load(model_path) *)
| AtSetPath (loaded : Handle) (* _model_path = model_path *)
| AtReturn (loaded : Handle)  (* return _cached_model *)
| Finished (r : Result Handle).

Record Thread : Type := mkThread {
  arg : string;
  pc : PC
}.

Definition at_pc (t : Thread) (c : PC) : Thread :=
  {| arg := arg t; pc := c |}.

Definition thread_step (fs : Storage) (t : Thread) (w : World) : World * Thread :=
  match pc t with
  | AtCheck =>
      match cached_model w with
      | Some h =>
          if path_matches w (arg t) then (w, at_pc t (Finished (Ok h)))
          else (w, at_pc t AtExists)
      | None => (w, at_pc t AtExists)
      end
  | AtExists =>
      let w := log (EvExists (arg t)) w in
      match fs (arg t) with
      | Absent => (w, at_pc t (Finished (Raise (missing_file (arg t)))))
      | Present _ => (w, at_pc t AtLoad)
      end
  | AtLoad =>
      let w := log (EvLoad (arg t)) w in
      match fs (arg t) with
      | Present (Ok pl) =>
          let h := {| hid := next_id w; pipeline := pl |} in
          ({| cached_model := Some h;
              model_path := model_path w;
              events := events w;
              next_id := S (next_id w) |}, at_pc t (AtSetPath h))
      | Present (Raise e) => (w, at_pc t (Finished (Raise e)))
      | Absent => (w, at_pc t (Finished (Raise (missing_file (arg t)))))
      end
  | AtSetPath h =>
      ({| cached_model := cached_model w;
          model_path := Some (arg t);
          events := events w;
          next_id := next_id w |}, at_pc t (AtReturn h))
  | AtReturn h =>
      (* the global is read again; it is never reset to None *)
      match cached_model w with
      | Some h' => (w, at_pc t (Finished (Ok h')))
      | None => (w, at_pc t (Finished (Ok h)))
      end
  | Finished _ => (w, t)
  end.

Record System : Type := mkSystem {
  world : World;
  threads : list Thread
}.

Fixpoint replace_thread (i : nat) (t : Thread) (ts : list Thread) : list Thread :=
  match ts, i with
  | [], _ => []
  | _ :: rest, O => t :: rest
  | x :: rest, S i' => x :: replace_thread i' t rest
  end.

(** Thread [i] executes its next statement. *)
Definition sched_step (fs : Storage) (s : System) (i : nat) : System :=
  match nth_error (threads s) i with
  | Some t =>
      let (w, t') := thread_step fs t (world s) in
      {| world := w; threads := replace_thread i t' (threads s) |}
  | None => s
  end.

Definition run (fs : Storage) (schedule : list nat) (s : System) : System :=
  fold_left (sched_step fs) schedule s.

(** [n] callers about to enter [load_model(p)]. *)
Definition spawn (n : nat) (p : string) (w : World) : System :=
  {| world := w; threads := repeat {| arg := p; pc := AtCheck |} n |}.

Definition is_load (p : string) (e : Event) : bool :=
  match e with
  | EvLoad q => String.eqb q p
  | _ => false
  end.

(** How often the artifact under [p] has been deserialised. *)
Definition loads (p : string) (w : World) : nat :=
  List.length (filter (is_load p) (events w)).

Definition finished (t : Thread) : bool :=
  match pc t with Finished _ => true | _ => false end.

Definition returned (h : Handle) (t : Thread) : Prop :=
  pc t = Finished (Ok h).

(** A schedule in which the calls do not overlap: each caller runs
    its five statements before the next one starts. *)
Definition serial (n : nat) : list nat :=
  flat_map (fun i => repeat i 5) (seq 0 n).

Definition initial_world : World :=
  {| cached_model := None; model_path := None; events := []; next_id := 0 |}.

End Predict.

(* ================================================================== *)
(** * backend/app.py: the /api/predict handler *)
(* ================================================================== *)

Module App.
Import Py Predict.

(** What the deployment fixes: where the model lies, and Python's
    [float] on a string. *)
Record Env : Type := mkEnv {
  MODEL_PATH : string;
  parse_float : string -> option float
}.

Inductive Body : Type :=
| BError (message : string) (required : option (list string))
         (details : option string)
| BSuccess (prediction : string) (win loss confidence : float)
           (input_data : dict).

Record Response : Type := mkResponse {
  body : Body;
  code : Z
}.

Definition bad_request (message : string) : Response :=
  {| body := BError message None None; code := 400 |}.

Definition required_fields : list string :=
  ["batting_team"; "bowling_team"; "venue"; "city";
   "total_runs"; "total_wickets"; "overs_played";
   "extras_total"; "run_rate"].

Definition numeric_fields : list string :=
  ["total_runs"; "total_wickets"; "overs_played"; "extras_total"; "run_rate"].

(** [[field for field in required_fields if field not in data]]. *)
Definition missing_fields (data : dict) : list string :=
  filter (fun field => negb (contains data field)) required_fields.

(** The two [except] clauses around the handler body. *)
Definition server_error (env : Env) (e : Exn) : Response :=
  match e with
  | FileNotFoundError _ =>
      {| body := BError "Model file not found. Please train the model first."
                        None (Some ("Expected model at: " ++ MODEL_PATH env)%string);
         code := 500 |}
  | _ =>
      {| body := BError "Prediction failed" None (Some (str e)); code := 500 |}
  end.

(** [data[k]]. *)
Definition item (data : dict) (k : string) : Result value :=
  match get data k with
  | Some v => Ok v
  | None => Raise (KeyError [k])
  end.

(** How a stretch of the handler ends: with a response returned, with
    an exception for the outer [except] clauses, or by falling
    through with the (updated) request dict. *)
Inductive Flow : Type :=
| Return (r : Response)
| Throw (e : Exn)
| Next (data : dict).

(** The loop over [numeric_fields]: each value is replaced by its
    float; ValueError and TypeError are caught inside the loop. *)
Fixpoint validate_numeric (env : Env) (fields : list string) (data : dict) : Flow :=
  match fields with
  | [] => Next data
  | field :: rest =>
      match item data field with
      | Raise e => Throw e
      | Ok v =>
          match py_float (parse_float env) v with
          | Raise (ValueError _) | Raise (TypeError _) =>
              Return (bad_request (field ++ " must be a valid number"))
          | Raise e => Throw e
          | Ok x =>
              let data := set data field (VFloat x) in
              if ltb x (of_Z 0)
              then Return (bad_request (field ++ " cannot be negative"))
              else validate_numeric env rest data
          end
      end
  end.

(** [data[k] > bound]. *)
Definition exceeds (data : dict) (k : string) (bound : Z) : Result bool :=
  match item data k with
  | Raise e => Raise e
  | Ok v =>
      match as_number v with
      | Some x => Ok (gtb x (of_Z bound))
      | None => Raise (TypeError "'>' not supported")
      end
  end.

(** The checks after the loop. *)
Definition validate_ranges (data : dict) : Flow :=
  match exceeds data "overs_played" 20 with
  | Raise e => Throw e
  | Ok true => Return (bad_request "overs_played cannot exceed 20 in T20 cricket")
  | Ok false =>
      match exceeds data "total_wickets" 10 with
      | Raise e => Throw e
      | Ok true => Return (bad_request "total_wickets cannot exceed 10")
      | Ok false =>
          match item data "batting_team" with
          | Raise e => Throw e
          | Ok batting =>
              match item data "bowling_team" with
              | Raise e => Throw e
              | Ok bowling =>
                  if py_eq batting bowling
                  then Return (bad_request
                                 "batting_team and bowling_team must be different")
                  else Next data
              end
          end
      end
  end.

(** Everything the handler does before [predict_match]. *)
Definition validate (env : Env) (data : dict) : Flow :=
  match data with
  | [] => Return (bad_request "No JSON data provided")
  | _ =>
      match missing_fields data with
      | (_ :: _) as missing =>
          Return {| body := BError ("Missing required fields: "
                                      ++ String.concat ", " missing)
                                   (Some required_fields) None;
                    code := 400 |}
      | [] =>
          match validate_numeric env numeric_fields data with
          | Next data => validate_ranges data
          | stop => stop
          end
      end
  end.

Definition success (result : PredictionResult) (data : dict) : Response :=
  {| body := BSuccess (prediction_text result)
                      (win_probability result)
                      (loss_probability result)
                      (round_nd 2 (scale_by (max2 (win_probability result)
                                                  (loss_probability result)) 100))
                      data;
     code := 200 |}.

(** The POST branch of [predict()], given the parsed request body
    (the whole view function is [api_predict] below). *)
Definition predict (env : Env) (fs : Storage) (data : dict) (w : World)
  : World * Response :=
  match validate env data with
  | Return r => (w, r)
  | Throw e => (w, server_error env e)
  | Next data =>
      let (w, r) := predict_match fs data (MODEL_PATH env) w in
      match r with
      | Ok result => (w, success result data)
      | Raise e => (w, server_error env e)
      end
  end.

(** The methods the route [/api/predict] is registered for. *)
Inductive Method : Type :=
| POST
| OPTIONS.

(** What the view function returns: the empty 204 answer to a
    preflight request, or a JSON response with its code. *)
Inductive Reply : Type :=
| Preflight
| Json (r : Response).

Definition reply_code (r : Reply) : Z :=
  match r with
  | Preflight => 204
  | Json r => code r
  end.

(** [predict()] as the route calls it: an OPTIONS request is answered
    before the body is read; [data] is what [request.get_json()]
    gives for a POST. *)
Definition api_predict (env : Env) (fs : Storage) (method : Method)
           (data : dict) (w : World) : World * Reply :=
  match method with
  | OPTIONS => (w, Preflight)
  | POST => let (w, r) := predict env fs data w in (w, Json r)
  end.

(** Module import: the model is loaded once, a failure is only
    printed. *)
Definition startup (env : Env) (fs : Storage) (w : World) : World :=
  fst (load_model fs (MODEL_PATH env) w).

End App.

(* ================================================================== *)
(** * Properties of the feature engineering pipeline *)
(* ================================================================== *)

Module FeatureEngineeringTheory.
Import FeatureEngineering.

(** ** The key order *)

Lemma string_compare_refl (s : string) : String.compare s s = Eq.
Proof. apply String_as_OT.cmp_eq. reflexivity. Qed.

Lemma key_compare_eq (a b : Key) : key_compare a b = Eq <-> a = b.
Proof.
  destruct a as [[m1 i1] b1], b as [[m2 i2] b2]; simpl.
  split.
  - destruct (Z.compare_spec m1 m2); try discriminate.
    destruct (Z.compare_spec i1 i2); try discriminate.
    intros H1. apply String_as_OT.cmp_eq in H1. congruence.
  - intros E. inversion E; subst.
    rewrite !Z.compare_refl. apply string_compare_refl.
Qed.

Lemma key_compare_refl (a : Key) : key_compare a a = Eq.
Proof. apply key_compare_eq. reflexivity. Qed.

Definition key_lt (a b : Key) : Prop := key_compare a b = Lt.

Lemma key_compare_antisym (a b : Key) :
  key_compare a b = CompOpp (key_compare b a).
Proof.
  destruct a as [[m1 i1] b1], b as [[m2 i2] b2]; simpl.
  rewrite (Z.compare_antisym m2 m1), (Z.compare_antisym i2 i1).
  rewrite (String.compare_antisym b1 b2).
  destruct (m2 ?= m1); simpl; auto.
  destruct (i2 ?= i1); simpl; auto.
Qed.

Lemma key_lt_iff (m1 i1 : Z) (b1 : string) (m2 i2 : Z) (b2 : string) :
  key_lt (m1, i1, b1) (m2, i2, b2) <->
  (m1 < m2 \/ (m1 = m2 /\ (i1 < i2 \/ (i1 = i2 /\ String_as_OT.lt b1 b2)))).
Proof.
  unfold key_lt; simpl. rewrite <- String_as_OT.cmp_lt. unfold String_as_OT.cmp.
  destruct (Z.compare_spec m1 m2) as [Em|Em|Em];
    destruct (Z.compare_spec i1 i2) as [Ei|Ei|Ei];
    split; intros HH; try discriminate; try lia; auto;
    try (destruct HH as [HH|[_ [HH|[_ HH]]]]; auto; lia).
Qed.

Lemma key_lt_trans (a b c : Key) : key_lt a b -> key_lt b c -> key_lt a c.
Proof.
  destruct a as [[m1 i1] b1], b as [[m2 i2] b2], c as [[m3 i3] b3].
  rewrite !key_lt_iff. intros H1 H2.
  destruct H1 as [H1|[E1 [H1|[F1 H1]]]], H2 as [H2|[E2 [H2|[F2 H2]]]];
    try (left; lia); try (right; split; [lia|]; left; lia).
  right; split; [lia|]. right; split; [lia|].
  eapply String_as_OT.lt_trans; eauto.
Qed.

Lemma key_lt_neq (a b : Key) : key_lt a b -> a <> b.
Proof.
  unfold key_lt. intros H E. subst. rewrite key_compare_refl in H. discriminate.
Qed.

Lemma key_eqb_eq (a b : Key) : key_eqb a b = true <-> a = b.
Proof.
  unfold key_eqb. rewrite <- key_compare_eq.
  destruct (key_compare a b); split; congruence.
Qed.

(** ** What [groupby] builds *)

Definition has_key (k : Key) (x : Member) : bool :=
  match key_of (fst x) with
  | Some k' => key_eqb k' k
  | None => false
  end.

(** The members of the frame that carry key [k], in frame order. *)
Definition members_of (k : Key) (l : list Member) : list Member :=
  filter (has_key k) l.

Definition keys (gs : list (Key * list Member)) : list Key := map fst gs.

Lemma add_to_groups_keys k x gs k' :
  In k' (keys (add_to_groups k x gs)) <-> k' = k \/ In k' (keys gs).
Proof.
  induction gs as [|[k0 xs] rest IH]; simpl.
  - intuition.
  - destruct (key_compare k k0) eqn:E; simpl.
    + apply key_compare_eq in E. subst. intuition.
    + intuition.
    + rewrite IH. intuition.
Qed.

Lemma add_to_groups_sorted k x gs :
  StronglySorted key_lt (keys gs) ->
  StronglySorted key_lt (keys (add_to_groups k x gs)).
Proof.
  induction gs as [|[k0 xs] rest IH]; simpl; intros S.
  - repeat constructor.
  - inversion S as [|? ? S' F]; subst.
    destruct (key_compare k k0) eqn:E; simpl.
    + constructor; auto.
    + constructor; auto. constructor; auto.
      eapply Forall_impl; [|exact F]. intros c Hc. eapply key_lt_trans; eauto.
    + constructor; auto.
      apply Forall_forall. intros c Hc.
      apply add_to_groups_keys in Hc. destruct Hc as [->|Hc].
      * unfold key_lt. rewrite key_compare_antisym, E. reflexivity.
      * rewrite Forall_forall in F. auto.
Qed.

Lemma add_to_groups_In k x gs k' xs' :
  StronglySorted key_lt (keys gs) ->
  In (k', xs') (add_to_groups k x gs) ->
  (k' <> k /\ In (k', xs') gs)
  \/ (k' = k /\ exists xs, In (k, xs) gs /\ xs' = xs ++ [x])
  \/ (k' = k /\ ~ In k (keys gs) /\ xs' = [x]).
Proof.
  induction gs as [|[k0 xs] rest IH]; simpl; intros S H.
  - destruct H as [H|[]]. injection H as <- <-. right; right. intuition.
  - inversion S as [|? ? S' F]; subst. rewrite Forall_forall in F.
    destruct (key_compare k k0) eqn:E; simpl in H.
    + apply key_compare_eq in E. subst k0.
      destruct H as [H|H].
      * injection H as <- <-. right; left. split; auto. exists xs. auto.
      * left. split; auto.
        apply not_eq_sym, key_lt_neq. apply F.
        apply in_map_iff. exists (k', xs'). auto.
    + destruct H as [H|H].
      * injection H as <- <-. right; right. split; auto. split; auto.
        intros [Hk|Hk].
        -- subst. rewrite key_compare_refl in E. discriminate.
        -- apply F in Hk. apply (key_lt_neq k k); auto.
           eapply key_lt_trans; eauto.
      * left. split; auto.
        destruct H as [H|H].
        -- injection H as <- <-. intros ->.
           rewrite key_compare_refl in E. discriminate.
        -- intros ->. apply (key_lt_neq k k); auto.
           eapply key_lt_trans; [exact E|]. apply F.
           apply in_map_iff. exists (k, xs'). auto.
    + destruct H as [H|H].
      * injection H as <- <-. left. split; auto.
        intros ->. rewrite key_compare_refl in E. discriminate.
      * destruct (IH S' H) as [[N I]|[[Ek [ys [I Ey]]]|[Ek [N Ey]]]].
        -- left. auto.
        -- right; left. split; auto. exists ys. auto.
        -- right; right. split; auto. split; auto.
           intros [Hk|Hk]; auto. subst. rewrite key_compare_refl in E. discriminate.
Qed.

Record groups_inv (l : list Member) (gs : list (Key * list Member)) : Prop := {
  inv_sorted : StronglySorted key_lt (keys gs);
  inv_exact : forall k xs, In (k, xs) gs -> xs = members_of k l /\ xs <> [];
  inv_complete : forall k, ~ In k (keys gs) -> members_of k l = []
}.

Lemma members_of_snoc k l x :
  members_of k (l ++ [x]) = members_of k l ++ (if has_key k x then [x] else []).
Proof. unfold members_of. rewrite filter_app. reflexivity. Qed.

Lemma groupby_step_inv l gs x :
  groups_inv l gs -> groups_inv (l ++ [x]) (groupby_step gs x).
Proof.
  intros [S Ex Co]. unfold groupby_step.
  destruct (key_of (fst x)) as [k|] eqn:K.
  - assert (HK : forall k', has_key k' x = true <-> k = k').
    { intros k'. unfold has_key. rewrite K. apply key_eqb_eq. }
    constructor.
    + apply add_to_groups_sorted; auto.
    + intros k' xs' H. rewrite members_of_snoc.
      apply add_to_groups_In in H; auto.
      destruct H as [[N I]|[[-> [ys [I ->]]]|[-> [N ->]]]].
      * destruct (has_key k' x) eqn:Hk.
        { apply HK in Hk. congruence. }
        rewrite app_nil_r. auto.
      * destruct (Ex _ _ I) as [-> _].
        replace (has_key k x) with true by (symmetry; apply HK; auto).
        split; auto. intros C. apply app_eq_nil in C. destruct C; discriminate.
      * rewrite (Co _ N).
        replace (has_key k x) with true by (symmetry; apply HK; auto).
        split; auto. discriminate.
    + intros k' N. rewrite members_of_snoc.
      rewrite add_to_groups_keys in N.
      rewrite Co by tauto.
      destruct (has_key k' x) eqn:Hk; auto.
      apply HK in Hk. subst. tauto.
  - assert (HK : forall k', has_key k' x = false).
    { intros k'. unfold has_key. rewrite K. reflexivity. }
    constructor; auto.
    + intros k xs H. rewrite members_of_snoc, HK, app_nil_r. auto.
    + intros k N. rewrite members_of_snoc, HK, app_nil_r. auto.
Qed.

Lemma groupby_fold_inv l : forall pre gs,
  groups_inv pre gs -> groups_inv (pre ++ l) (fold_left groupby_step l gs).
Proof.
  induction l as [|x l IH]; simpl; intros pre gs I.
  - rewrite app_nil_r. auto.
  - replace (pre ++ x :: l) with ((pre ++ [x]) ++ l)
      by (rewrite <- app_assoc; reflexivity).
    apply IH. apply groupby_step_inv. auto.
Qed.

Lemma groupby_inv l : groups_inv l (groupby l).
Proof.
  unfold groupby. apply (groupby_fold_inv l [] []).
  constructor; simpl.
  - constructor.
  - intros ? ? [].
  - reflexivity.
Qed.

(** ** The heap operations *)

Lemma nth_error_snoc_old (h : Heap) (o x : Obj) (r : Ref) :
  nth_error h r = Some x -> nth_error (h ++ [o]) r = Some x.
Proof.
  intros H. rewrite nth_error_app1; auto.
  apply nth_error_Some. congruence.
Qed.

Lemma nth_error_snoc_new (h : Heap) (o : Obj) :
  nth_error (h ++ [o]) (List.length h) = Some o.
Proof. rewrite nth_error_app2, Nat.sub_diag; auto. Qed.

Lemma nth_error_update_same (h : Heap) (r : Ref) (o x : Obj) :
  nth_error h r = Some x -> nth_error (update r o h) r = Some o.
Proof.
  revert r. induction h as [|y h IH]; intros [|r]; simpl; try discriminate; auto.
Qed.

Lemma nth_error_update_other (h : Heap) (r r' : Ref) (o : Obj) :
  r' <> r -> nth_error (update r o h) r' = nth_error h r'.
Proof.
  revert r r'. induction h as [|y h IH]; intros [|r] [|r'] N; simpl; auto.
  congruence.
Qed.

Lemma update_snoc_last (h : Heap) (o x : Obj) :
  update (List.length h) o (h ++ [x]) = h ++ [o].
Proof. induction h as [|y h IH]; simpl; auto. rewrite IH. reflexivity. Qed.

Lemma read_inn_run (h : Heap) (r : Ref) (d : list Innings.t) :
  nth_error h r = Some (OInn d) -> read_inn r h = Some (d, h).
Proof. intros H. unfold read_inn, bind, read. rewrite H. reflexivity. Qed.

Lemma read_raw_run (h : Heap) (r : Ref) (f : RawFrame) :
  nth_error h r = Some (ORaw f) -> read_raw r h = Some (f, h).
Proof. intros H. unfold read_raw, bind, read. rewrite H. reflexivity. Qed.

Lemma read_agg_run (h : Heap) (r : Ref) (l : list Aggregated) :
  nth_error h r = Some (OAgg l) -> read_agg r h = Some (l, h).
Proof. intros H. unfold read_agg, bind, read. rewrite H. reflexivity. Qed.

Lemma write_run (h : Heap) (r : Ref) (o x : Obj) :
  nth_error h r = Some x -> write r o h = Some (tt, update r o h).
Proof. intros H. unfold write. rewrite H. reflexivity. Qed.

Lemma bind_run {A B} (m : M A) (k : A -> M B) (h h' : Heap) (a : A) :
  m h = Some (a, h') -> bind m k h = k a h'.
Proof. intros H. unfold bind. rewrite H. reflexivity. Qed.

(** ** What [aggregate_features] returns *)

(** The [aggregated] frame of a raw frame. *)
Definition aggregated_rows (f : RawFrame) : list Aggregated :=
  map aggregate_group (groupby (combine (rows f) (map wicket_flag (rows f)))).

Lemma aggregate_features_run (h : Heap) (df : Ref) (f : RawFrame) :
  nth_error h df = Some (ORaw f) ->
  aggregate_features df h =
    Some (S (List.length h),
          update df (ORaw (set_is_wicket f)) h
            ++ [OAgg (aggregated_rows f)]
            ++ [OInn (map final_features (aggregated_rows f))]).
Proof.
  intros H. unfold aggregate_features.
  rewrite (bind_run _ _ _ _ _ (read_raw_run _ _ _ H)).
  rewrite (bind_run _ _ _ _ _ (write_run _ _ (ORaw (set_is_wicket f)) _ H)).
  pose proof (nth_error_update_same _ _ (ORaw (set_is_wicket f)) _ H) as H1.
  rewrite (bind_run _ _ _ _ _ (read_raw_run _ _ _ H1)).
  set (h1 := update df _ h) in *.
  assert (L : List.length h1 = List.length h).
  { unfold h1. clear. revert df. induction h as [|y h IH]; intros [|r]; simpl; auto. }
  rewrite (bind_run (lift _) _ h1 h1 (aggregated_rows f)) by reflexivity.
  rewrite (bind_run (alloc _) _ h1 _ (List.length h1)) by reflexivity.
  rewrite (bind_run _ _ _ _ _ (read_agg_run _ _ _ (nth_error_snoc_new h1 _))).
  unfold alloc. rewrite length_app, L, Nat.add_comm. simpl.
  rewrite <- app_assoc. reflexivity.
Qed.

(** ** Derived columns *)

Lemma agg_count_nonneg {A} (l : list (option A)) : 0 <= agg_count l.
Proof. unfold agg_count. lia. Qed.

Lemma overs_nonneg (b : Z) : 0 <= b -> (0 <= inject_Z b / inject_Z 6)%Q.
Proof.
  intros H. unfold Qle, Qdiv, Qmult, Qinv, inject_Z; simpl. lia.
Qed.

Lemma overflow_bound_pos : (0 < overflow_bound)%Q.
Proof. vm_compute. reflexivity. Qed.

Lemma overflows_nonzero (q : Q) : overflows q = true -> ~ (q == 0)%Q.
Proof.
  unfold overflows. intros O E. apply Qle_bool_iff in O.
  rewrite E in O. change (Qabs 0) with 0%Q in O.
  exact (Qlt_not_le _ _ overflow_bound_pos O).
Qed.

Lemma overs_zero_balls : (inject_Z 0 / inject_Z 6 == 0)%Q.
Proof. reflexivity. Qed.

Lemma overs_compare (b : Z) :
  ((inject_Z b / inject_Z 6 ?= inject_Z 0)%Q) = (b ?= 0).
Proof.
  unfold Qcompare, Qdiv, Qmult, Qinv, inject_Z. cbn. rewrite !Z.mul_1_r.
  reflexivity.
Qed.

(** [balls_faced / 6] for a count of balls. *)
Lemma overs_cases (b : Z) :
  0 <= b ->
  let overs := PyFloat.div (of_Z b) (of_Z 6) in
  gtb overs (of_Z 0) = (0 <? b)
  /\ PyFloat.eqb overs (of_Z 0) = (b =? 0)
  /\ (overs = PInf \/ overs = Fin (inject_Z b / inject_Z 6)%Q).
Proof.
  intros B overs.
  assert (E : overs = of_Q (inject_Z b / inject_Z 6)%Q) by reflexivity.
  clearbody overs. subst overs. unfold of_Q.
  destruct (overflows (inject_Z b / inject_Z 6)%Q) eqn:O.
  - assert (P : Qle_bool 0 (inject_Z b / inject_Z 6)%Q = true).
    { apply Qle_bool_iff. apply overs_nonneg. exact B. }
    rewrite P.
    assert (N : b <> 0).
    { intros ->. apply (overflows_nonzero _ O). apply overs_zero_balls. }
    split; [|split; [|left; reflexivity]].
    + symmetry. apply Z.ltb_lt. lia.
    + symmetry. apply Z.eqb_neq. exact N.
  - unfold gtb, PyFloat.eqb, PyFloat.compare, of_Z. rewrite overs_compare.
    split; [|split; [|right; reflexivity]].
    + destruct (Z.compare_spec b 0); destruct (Z.ltb_spec 0 b); auto; lia.
    + destruct (Z.compare_spec b 0); destruct (Z.eqb_spec b 0); auto; lia.
Qed.

(** The run rate of [t] runs in [ov] overs, after the two
    replacements. *)
Lemma run_rate_value (t : Z) (ov : Q) :
  (0 <= ov)%Q ->
  exists rr : Q,
    fillna (of_Z 0) (replace_inf (of_Z 0) (PyFloat.div (of_Z t) (Fin ov))) = Fin rr
    /\ ((ov == 0)%Q -> (rr == 0)%Q)
    /\ ((0 < ov)%Q -> overflows (inject_Z t / ov) = false ->
        (rr == inject_Z t / ov)%Q)
    /\ ((0 < ov)%Q -> overflows (inject_Z t / ov) = true -> (rr == 0)%Q).
Proof.
  intros O. unfold of_Z, PyFloat.div, Qsign.
  destruct (ov ?= 0)%Q eqn:E.
  - apply Qeq_alt in E. exists (inject_Z 0).
    split; [destruct (inject_Z t ?= 0)%Q; reflexivity|].
    split; [intros _; reflexivity|].
    split; intros L; rewrite E in L; exfalso; revert L; apply Qlt_irrefl.
  - apply Qlt_alt in E. exfalso. apply (Qlt_irrefl ov).
    eapply Qlt_le_trans; eauto.
  - apply Qgt_alt in E. unfold of_Q.
    destruct (overflows (inject_Z t / ov)) eqn:V.
    + exists (inject_Z 0).
      split; [destruct (Qle_bool 0 (inject_Z t / ov)); reflexivity|].
      split; [intros _; reflexivity|].
      split; [intros _ D; discriminate D|intros _ _; reflexivity].
    + exists (inject_Z t / ov)%Q.
      split; [reflexivity|]. split.
      * intros Z0. rewrite Z0 in E. exfalso. revert E. apply Qlt_irrefl.
      * split; [intros _ _; reflexivity|intros _ D; discriminate D].
Qed.

Lemma balls_faced_nonneg (g : Key * list Member) :
  0 <= a_balls_faced (aggregate_group g).
Proof. destruct g as [[[m i] b] xs]. apply agg_count_nonneg. Qed.

Lemma overs_played_unfold (g : Key * list Member) :
  a_overs_played (aggregate_group g)
  = PyFloat.div (of_Z (a_balls_faced (aggregate_group g))) (of_Z 6).
Proof. destruct g as [[[m i] b] xs]. reflexivity. Qed.

Lemma run_rate_unfold (g : Key * list Member) :
  a_run_rate (aggregate_group g)
  = fillna (of_Z 0)
      (replace_inf (of_Z 0)
         (PyFloat.div (of_Z (a_total_runs (aggregate_group g)))
                      (a_overs_played (aggregate_group g)))).
Proof. destruct g as [[[m i] b] xs]. reflexivity. Qed.

(** The derived columns of one group: overs_played is zero or
    positive, run_rate is finite, and its value follows from
    total_runs and overs_played. *)
Lemma run_rate_of_group (g : Key * list Member) :
  (PyFloat.eqb (a_overs_played (aggregate_group g)) (of_Z 0) = true
   \/ gtb (a_overs_played (aggregate_group g)) (of_Z 0) = true)
  /\ exists rr : Q,
       a_run_rate (aggregate_group g) = Fin rr
       /\ (PyFloat.eqb (a_overs_played (aggregate_group g)) (of_Z 0) = true ->
           (rr == 0)%Q)
       /\ forall ov : Q,
            a_overs_played (aggregate_group g) = Fin ov ->
            (0 <= ov)%Q
            /\ ((ov == 0)%Q -> (rr == 0)%Q)
            /\ ((0 < ov)%Q ->
                overflows (inject_Z (a_total_runs (aggregate_group g)) / ov) = false ->
                (rr == inject_Z (a_total_runs (aggregate_group g)) / ov)%Q)
            /\ ((0 < ov)%Q ->
                overflows (inject_Z (a_total_runs (aggregate_group g)) / ov) = true ->
                (rr == 0)%Q).
Proof.
  pose proof (balls_faced_nonneg g) as B.
  rewrite run_rate_unfold. rewrite overs_played_unfold.
  set (t := a_total_runs (aggregate_group g)).
  set (b := a_balls_faced (aggregate_group g)) in *.
  destruct (overs_cases b B) as (G & Z0 & C).
  split.
  { rewrite G, Z0. destruct (Z.eqb_spec b 0); [left; reflexivity|].
    right. apply Z.ltb_lt. lia. }
  destruct C as [C|C]; rewrite C.
  - exists 0%Q. split; [reflexivity|].
    split; [intros _; reflexivity|]. intros ov D. discriminate D.
  - destruct (run_rate_value t _ (overs_nonneg b B)) as (rr & R & P0 & P1 & P2).
    exists rr. split; [exact R|]. split.
    + intros Q0. apply P0. unfold PyFloat.eqb, PyFloat.compare, of_Z in Q0.
      destruct (inject_Z b / inject_Z 6 ?= inject_Z 0)%Q eqn:K; try discriminate Q0.
      apply Qeq_alt in K. exact K.
    + intros ov D. injection D as <-.
      split; [apply overs_nonneg; exact B|]. auto.
Qed.

(** ** The group behind an output row *)

(** The deliveries of the frame that carry a key, in frame order. *)
Definition group_of (f : RawFrame) (k : Key) : list Delivery.t :=
  filter (fun d => match key_of d with
                   | Some k' => key_eqb k' k
                   | None => false
                   end) (rows f).

Lemma members_of_frame (k : Key) (l : list Delivery.t) :
  map fst (members_of k (combine l (map wicket_flag l))) =
  filter (fun d => match key_of d with
                   | Some k' => key_eqb k' k
                   | None => false
                   end) l.
Proof.
  induction l as [|d l IH]; simpl; auto.
  unfold has_key at 1; simpl.
  destruct (key_of d) as [k'|]; auto.
  destruct (key_eqb k' k); simpl; auto. f_equal. exact IH.
Qed.

Definition key_of_agg (a : Aggregated) : Key :=
  (a_match_id a, a_innings a, a_batting_team a).

Lemma aggregated_rows_group (f : RawFrame) (a : Aggregated) :
  In a (aggregated_rows f) ->
  exists xs, a = aggregate_group (key_of_agg a, xs)
             /\ map fst xs = group_of f (key_of_agg a)
             /\ xs <> [].
Proof.
  unfold aggregated_rows. intros H. apply in_map_iff in H.
  destruct H as [[k xs] [E I]].
  destruct (inv_exact _ _ (groupby_inv _) _ _ I) as [Hx Hn].
  assert (K : key_of_agg a = k).
  { subst a. destruct k as [[m i] b]. reflexivity. }
  exists xs. rewrite K. split; auto. split; auto.
  rewrite Hx at 1. apply members_of_frame.
Qed.

(** [v] is the first value seen in [cells]: a present cell with only
    missing cells before it, or nothing when every cell is missing. *)
Definition first_seen {A} (cells : list (option A)) (v : option A) : Prop :=
  match v with
  | Some x => exists before after,
                cells = before ++ Some x :: after
                /\ forall c, In c before -> c = None
  | None => forall c, In c cells -> c = None
  end.

Lemma agg_first_seen {A} (l : list (option A)) : first_seen l (agg_first l).
Proof.
  induction l as [|[x|] l IH]; simpl.
  - intros c [].
  - exists [], l. split; [reflexivity|]. intros c [].
  - destruct (agg_first l) as [x|]; simpl in *.
    + destruct IH as (before & after & -> & N).
      exists (None :: before), after. split; [reflexivity|].
      intros c [<-|I]; auto.
    + intros c [<-|I]; auto.
Qed.

(** The cells determine the first value seen. *)
Lemma first_seen_unique {A} (l : list (option A)) (v v' : option A) :
  first_seen l v -> first_seen l v' -> v = v'.
Proof.
  assert (S : forall (x : A) before after,
             (forall c, In c (before ++ Some x :: after) -> c = None) -> False).
  { intros x before after N.
    assert (E : Some x = None) by (apply N, in_or_app; right; left; reflexivity).
    discriminate E. }
  destruct v as [x|], v' as [y|]; simpl.
  - intros (b1 & a1 & -> & N1) (b2 & a2 & E & N2). revert b2 E N2.
    induction b1 as [|c b1 IH]; intros [|c' b2] E N2; simpl in E.
    + injection E as -> _. reflexivity.
    + injection E as <- _. assert (K : Some x = None) by (apply N2; left; auto).
      discriminate K.
    + injection E as -> _. assert (K : Some y = None) by (apply N1; left; auto).
      discriminate K.
    + injection E as _ E. apply (IH (fun c0 I => N1 c0 (or_intror I)) b2 E).
      intros c0 I. apply N2. right. exact I.
  - intros (b1 & a1 & -> & _) N. destruct (S _ _ _ N).
  - intros N (b2 & a2 & -> & _). destruct (S _ _ _ N).
  - reflexivity.
Qed.

Lemma agg_first_all_missing {A} (l : list (option A)) :
  (forall c, In c l -> c = None) -> agg_first l = None.
Proof.
  induction l as [|c l IH]; simpl; intros H; auto.
  rewrite (H c) by auto. apply IH. auto.
Qed.

Lemma group_of_In (f : RawFrame) (k : Key) (d : Delivery.t) :
  In d (group_of f k) -> In d (rows f) /\ key_of d = Some k.
Proof.
  unfold group_of. intros H. apply filter_In in H. destruct H as [I E].
  split; auto. destruct (key_of d) as [k'|]; try discriminate.
  apply key_eqb_eq in E. congruence.
Qed.

(** The effect of one call of [aggregate_features] on the heap. *)
Lemma aggregate_features_effect (h : Heap) (df : Ref) (f : RawFrame) :
  nth_error h df = Some (ORaw f) ->
  exists out h',
    aggregate_features df h = Some (out, h')
    /\ nth_error h' (List.length h) = Some (OAgg (aggregated_rows f))
    /\ nth_error h' out = Some (OInn (map final_features (aggregated_rows f)))
    /\ nth_error h' df = Some (ORaw (set_is_wicket f))
    /\ (forall r, r <> df -> (r < List.length h)%nat ->
                  nth_error h' r = nth_error h r).
Proof.
  intros H. rewrite (aggregate_features_run _ _ _ H).
  set (h1 := update df _ h).
  assert (L : List.length h1 = List.length h).
  { unfold h1. clear. revert df. induction h as [|y h IH]; intros [|r]; simpl; auto. }
  eexists _, _. split; [reflexivity|].
  split; [|split; [|split]].
  - rewrite nth_error_app2 by lia. rewrite L, Nat.sub_diag. reflexivity.
  - rewrite nth_error_app2 by lia. rewrite L.
    replace (S (List.length h) - List.length h)%nat with 1%nat by lia. reflexivity.
  - rewrite nth_error_app1.
    + eapply nth_error_update_same; eauto.
    + rewrite L. apply nth_error_Some. congruence.
  - intros r N B. rewrite nth_error_app1 by lia.
    apply nth_error_update_other; auto.
Qed.

(** ** What [clean_data] returns *)

Definition keep_overs (r : Innings.t) : bool :=
  gtb (Innings.overs_played r) (of_Z 0).
Definition keep_run_rate (r : Innings.t) : bool :=
  leb (Innings.run_rate r) (of_Z 50).
Definition fill (r : Innings.t) : Innings.t :=
  fill_extras_total (fill_city r).

(** The table [clean_data] returns, as a function of the table it is
    given. *)
Definition clean_rows (d : list Innings.t) : list Innings.t :=
  drop_duplicates
    (map fill (filter keep_run_rate (filter keep_overs (filter dropna_critical d)))).

Ltac run_alloc :=
  match goal with
  | |- context [bind (alloc ?o) ?k ?h] =>
      rewrite (bind_run (alloc o) k h _ (List.length h)) by reflexivity
  end.
Ltac run_read :=
  rewrite (bind_run _ _ _ _ _ (read_inn_run _ _ _ (nth_error_snoc_new _ _))).
Ltac run_write :=
  match goal with
  | |- context [bind (write ?r ?o) ?k ?h] =>
      rewrite (bind_run (write r o) k h _ tt
                 (write_run _ _ o _ (nth_error_snoc_new _ _)))
  end.

Lemma clean_data_run (h : Heap) (df : Ref) (d : list Innings.t) :
  nth_error h df = Some (OInn d) ->
  exists d1 d2 d3 d4,
    clean_data df h =
      Some ((List.length h + 4)%nat,
            h ++ [OInn d1] ++ [OInn d2] ++ [OInn d3] ++ [OInn d4]
              ++ [OInn (clean_rows d)]).
Proof.
  intros H. unfold clean_data.
  rewrite (bind_run _ _ _ _ _ (read_inn_run _ _ _ H)).
  run_alloc. run_read. run_alloc. run_read. run_alloc. run_read. run_alloc.
  run_read. run_write. rewrite update_snoc_last.
  run_read. run_write. rewrite update_snoc_last.
  run_read.
  eexists _, _, _, _.
  unfold alloc. f_equal. f_equal.
  - rewrite !length_app. simpl. lia.
  - rewrite <- !app_assoc. simpl.
    unfold clean_rows. rewrite map_map. reflexivity.
Qed.

Lemma clean_data_effect (h : Heap) (df : Ref) (d : list Innings.t) :
  nth_error h df = Some (OInn d) ->
  exists out h',
    clean_data df h = Some (out, h')
    /\ nth_error h' out = Some (OInn (clean_rows d))
    /\ (forall r, (r < List.length h)%nat -> nth_error h' r = nth_error h r).
Proof.
  intros H. destruct (clean_data_run _ _ _ H) as (d1 & d2 & d3 & d4 & E).
  eexists _, _. split; [exact E|]. split.
  - rewrite nth_error_app2 by lia.
    replace (List.length h + 4 - List.length h)%nat with 4%nat by lia.
    reflexivity.
  - intros r B. apply nth_error_app1. auto.
Qed.

(** ** Cleaning twice *)

Lemma filter_all (A : Type) (p : A -> bool) (l : list A) :
  (forall x, In x l -> p x = true) -> filter p l = l.
Proof.
  induction l as [|x l IH]; simpl; intros H; auto.
  rewrite (H x) by auto. f_equal. apply IH. auto.
Qed.

Lemma map_fixed (A : Type) (f : A -> A) (l : list A) :
  (forall x, In x l -> f x = x) -> map f l = l.
Proof.
  induction l as [|x l IH]; simpl; intros H; auto.
  rewrite (H x) by auto. f_equal. apply IH. auto.
Qed.

Lemma drop_duplicates_from_In seen l r :
  In r (drop_duplicates_from seen l) -> In r l.
Proof.
  revert seen. induction l as [|x l IH]; simpl; intros seen H; auto.
  destruct (existsb (Innings.same x) seen).
  - right. eapply IH; eauto.
  - destruct H as [H|H]; auto. right. eapply IH; eauto.
Qed.

(** No row repeats a row of [seen] or an earlier row of the list. *)
Fixpoint distinct_from (seen l : list Innings.t) : Prop :=
  match l with
  | [] => True
  | r :: rest =>
      existsb (Innings.same r) seen = false /\ distinct_from (r :: seen) rest
  end.

Lemma drop_duplicates_from_distinct seen l :
  distinct_from seen (drop_duplicates_from seen l).
Proof.
  revert seen. induction l as [|x l IH]; simpl; intros seen; auto.
  destruct (existsb (Innings.same x) seen) eqn:E; simpl; auto.
Qed.

Lemma drop_duplicates_from_fixed seen l :
  distinct_from seen l -> drop_duplicates_from seen l = l.
Proof.
  revert seen. induction l as [|x l IH]; simpl; intros seen H; auto.
  destruct H as [E D]. rewrite E. f_equal. auto.
Qed.

Lemma fill_fill (r : Innings.t) : fill (fill r) = fill r.
Proof.
  destruct r as [m i se v c bt bw tr tw bf ov rr ex tg].
  unfold fill, fill_extras_total, fill_city; simpl.
  destruct c, ex; reflexivity.
Qed.

Lemma fill_keeps_filters (r : Innings.t) :
  dropna_critical (fill r) = dropna_critical r
  /\ keep_overs (fill r) = keep_overs r
  /\ keep_run_rate (fill r) = keep_run_rate r.
Proof. destruct r. repeat split. Qed.

Lemma clean_rows_In (d : list Innings.t) (r : Innings.t) :
  In r (clean_rows d) ->
  dropna_critical r = true /\ keep_overs r = true
  /\ keep_run_rate r = true /\ fill r = r.
Proof.
  unfold clean_rows, drop_duplicates. intros H.
  apply drop_duplicates_from_In in H. apply in_map_iff in H.
  destruct H as [r0 [E H]]. subst r.
  apply filter_In in H. destruct H as [H K3].
  apply filter_In in H. destruct H as [H K2].
  apply filter_In in H. destruct H as [_ K1].
  destruct (fill_keeps_filters r0) as (F1 & F2 & F3).
  rewrite F1, F2, F3, fill_fill. auto.
Qed.

Lemma clean_rows_idempotent (d : list Innings.t) :
  clean_rows (clean_rows d) = clean_rows d.
Proof.
  pose proof (clean_rows_In d) as H.
  unfold clean_rows at 1.
  rewrite (filter_all _ dropna_critical) by (intros x I; apply H; auto).
  rewrite (filter_all _ keep_overs) by (intros x I; apply H; auto).
  rewrite (filter_all _ keep_run_rate) by (intros x I; apply H; auto).
  rewrite map_fixed by (intros x I; apply H; auto).
  unfold clean_rows, drop_duplicates.
  apply drop_duplicates_from_fixed, drop_duplicates_from_distinct.
Qed.

(** ** Sample data *)

Definition ball_of (m i : Z) (batting : string) (runs extras : Z)
           (wicket : option string) (ball : option Z) (won : option string)
  : Delivery.t :=
  {| Delivery.match_id := Some m;
     Delivery.innings := Some i;
     Delivery.batting_team := Some batting;
     Delivery.bowling_team := Some (if String.eqb batting "MI" then "CSK" else "MI");
     Delivery.venue := Some "Wankhede Stadium";
     Delivery.city := None;
     Delivery.season := Some "2023";
     Delivery.runs_batter := Some runs;
     Delivery.runs_extras := Some extras;
     Delivery.wicket_kind := wicket;
     Delivery.ball := ball;
     Delivery.match_won_by := won |}.

(** Match 1 is won by MI; match 2 has no result, and the only row of
    its second innings has no ball number. *)
Definition sample_frame : RawFrame :=
  {| rows := [ ball_of 1 1 "MI" 4 0 None (Some 1) (Some "MI");
               ball_of 1 1 "MI" 1 1 (Some "bowled") (Some 2) (Some "MI");
               ball_of 1 2 "CSK" 6 0 None (Some 1) (Some "MI");
               ball_of 2 1 "CSK" 2 0 None (Some 1) None;
               ball_of 2 2 "MI" 0 1 None None None ];
     is_wicket := None |}.

Definition sample_heap : Heap := [ORaw sample_frame].

Definition sample_table : list Innings.t :=
  map final_features (aggregated_rows sample_frame).

(* ---------------------------------------------------------------- *)
(** ** The claims on the aggregator and the cleaner *)
(* ---------------------------------------------------------------- *)

(** One delivery with 2^1023 runs off the bat: six times as many runs
    per over are beyond float64. *)
Definition overflow_frame : RawFrame :=
  {| rows := [ ball_of 3 1 "MI" (2 ^ 1023) 0 None (Some 1) None ];
     is_wicket := None |}.

Definition overflow_heap : Heap := [ORaw overflow_frame].

Definition overflow_table : list Innings.t :=
  map final_features (aggregated_rows overflow_frame).

(** Its row: 2^1023 runs in a sixth of an over, run rate 0. *)
Example overflow_innings :
  map (fun r => (Innings.total_runs r, Innings.overs_played r, Innings.run_rate r))
      overflow_table
  = [(Fin (inject_Z (2 ^ 1023)), Fin (1 # 6), Fin 0)].
Proof. vm_compute. reflexivity. Qed.

(** C3, as stated, fails: for an innings of one ball and 2^1023 runs
    the quotient total_runs / overs_played overflows, the infinity is
    replaced by 0 like the one of a division by zero, and the row has
    overs_played > 0 with a run_rate that is not total_runs /
    overs_played. *)
Lemma run_rate_zero_on_overflow :
  ~ (forall (h : Heap) (df out : Ref) (h' : Heap) (table : list Innings.t)
            (r : Innings.t) (tr ov rr : Q),
        aggregate_features df h = Some (out, h') ->
        nth_error h' out = Some (OInn table) ->
        In r table ->
        Innings.total_runs r = Fin tr ->
        Innings.overs_played r = Fin ov ->
        Innings.run_rate r = Fin rr ->
        (0 < ov)%Q -> (rr == tr / ov)%Q).
Proof.
  intros C.
  pose proof (aggregate_features_run overflow_heap 0%nat overflow_frame eq_refl) as E.
  assert (K : (0 == inject_Z (2 ^ 1023) / (1 # 6))%Q).
  { apply (C _ _ _ _ overflow_table (hd (fill_city (final_features
                                            (aggregate_group ((0, 0, ""), []))))
                                        overflow_table)
             _ _ _ E).
    - reflexivity.
    - vm_compute. left. reflexivity.
    - vm_compute. reflexivity.
    - vm_compute. reflexivity.
    - vm_compute. reflexivity.
    - reflexivity. }
  vm_compute in K. discriminate K.
Qed.

(** C3, amended.  Every row of the table [aggregate_features] returns
    has a finite run_rate (neither NaN nor an infinity) and an
    overs_played that is zero or positive.  The run_rate is 0 when
    overs_played is 0, an innings without a counted ball included, and
    it is total_runs / overs_played when overs_played > 0 and that
    quotient is inside the float64 range. *)
Theorem aggregate_run_rate (h : Heap) (df : Ref) (f : RawFrame) :
  nth_error h df = Some (ORaw f) ->
  exists out h' table,
    aggregate_features df h = Some (out, h')
    /\ nth_error h' out = Some (OInn table)
    /\ forall r, In r table ->
         (PyFloat.eqb (Innings.overs_played r) (of_Z 0) = true
          \/ gtb (Innings.overs_played r) (of_Z 0) = true)
         /\ exists rr : Q,
              Innings.run_rate r = Fin rr
              /\ (PyFloat.eqb (Innings.overs_played r) (of_Z 0) = true ->
                  (rr == 0)%Q)
              /\ forall tr ov : Q,
                   Innings.total_runs r = Fin tr ->
                   Innings.overs_played r = Fin ov ->
                   (0 <= ov)%Q
                   /\ ((0 < ov)%Q -> overflows (tr / ov) = false ->
                       (rr == tr / ov)%Q)
                   /\ ((ov == 0)%Q -> (rr == 0)%Q).
Proof.
  intros H.
  destruct (aggregate_features_effect _ _ _ H) as (out & h' & E & _ & T & _).
  exists out, h', (map final_features (aggregated_rows f)).
  split; auto. split; auto.
  intros r I. apply in_map_iff in I. destruct I as [a [<- I]].
  unfold aggregated_rows in I. apply in_map_iff in I.
  destruct I as [g [<- _]].
  destruct (run_rate_of_group g) as (S & rr & Hr & Z0 & P).
  split; [exact S|]. exists rr. split; [exact Hr|]. split; [exact Z0|].
  intros tr ov Et Eo.
  change (Innings.overs_played (final_features (aggregate_group g)))
    with (a_overs_played (aggregate_group g)) in Eo.
  change (Fin (inject_Z (a_total_runs (aggregate_group g))) = Fin tr) in Et.
  injection Et as <-.
  destruct (P ov Eo) as (P0 & P1 & P2 & _). auto.
Qed.

Lemma aggregate_run_rate_witness :
  exists out h' table,
    aggregate_features 0%nat sample_heap = Some (out, h')
    /\ nth_error h' out = Some (OInn table)
    /\ forall r, In r table ->
         (PyFloat.eqb (Innings.overs_played r) (of_Z 0) = true
          \/ gtb (Innings.overs_played r) (of_Z 0) = true)
         /\ exists rr : Q,
              Innings.run_rate r = Fin rr
              /\ (PyFloat.eqb (Innings.overs_played r) (of_Z 0) = true ->
                  (rr == 0)%Q)
              /\ forall tr ov : Q,
                   Innings.total_runs r = Fin tr ->
                   Innings.overs_played r = Fin ov ->
                   (0 <= ov)%Q
                   /\ ((0 < ov)%Q -> overflows (tr / ov) = false ->
                       (rr == tr / ov)%Q)
                   /\ ((ov == 0)%Q -> (rr == 0)%Q).
Proof.
  apply (aggregate_run_rate sample_heap 0%nat sample_frame). reflexivity.
Defined.

(** The columns of the sample, in key order: 6 runs in 2 balls, 6 in
    1, 2 in 1, and 1 run without a counted ball. *)
Example sample_run_rates :
  map (fun r => (Innings.total_runs r, Innings.overs_played r, Innings.run_rate r))
      sample_table
  = [(Fin 6, Fin (2 # 6), Fin (36 # 2)); (Fin 6, Fin (1 # 6), Fin (36 # 1));
     (Fin 2, Fin (1 # 6), Fin (12 # 1)); (Fin 1, Fin (0 # 6), Fin 0)].
Proof. vm_compute. reflexivity. Qed.

(** The no-ball innings of the sample: one run, zero overs, run rate
    zero. *)
Example zero_ball_innings :
  map (fun r => (Innings.total_runs r, Innings.overs_played r, Innings.run_rate r))
      (filter (fun r => PyFloat.eqb (Innings.match_id r) (of_Z 2)
                        && PyFloat.eqb (Innings.innings r) (of_Z 2))
              sample_table)
  = [(Fin (1 # 1), Fin (0 # 6), Fin (0 # 1))].
Proof. vm_compute. reflexivity. Qed.

(** C4.  For every row of the aggregated frame, [winner] is the first
    [match_won_by] value seen among the deliveries of the row's group
    (the deliveries of the frame with the row's key, in frame order):
    a present value with only missing ones before it, or missing when
    the group names no winner.  [target] is 1 exactly when
    batting_team equals that winner and 0 otherwise; when no delivery
    of the row's match names a winner, target is 0. *)
Theorem aggregate_target (h : Heap) (df : Ref) (f : RawFrame) :
  nth_error h df = Some (ORaw f) ->
  exists out h' aggregated,
    aggregate_features df h = Some (out, h')
    /\ nth_error h' (List.length h) = Some (OAgg aggregated)
    /\ nth_error h' out = Some (OInn (map final_features aggregated))
    /\ forall a, In a aggregated ->
         first_seen (map Delivery.match_won_by (group_of f (key_of_agg a)))
                    (winner a)
         /\ group_of f (key_of_agg a) <> []
         /\ (Innings.target (final_features a) = of_Z 1
             \/ Innings.target (final_features a) = of_Z 0)
         /\ (Innings.target (final_features a) = of_Z 1
             <-> Innings.batting_team (final_features a) = winner a)
         /\ ((forall d, In d (rows f) ->
                        Delivery.match_id d = Some (a_match_id a) ->
                        Delivery.match_won_by d = None) ->
             Innings.target (final_features a) = of_Z 0).
Proof.
  intros H.
  destruct (aggregate_features_effect _ _ _ H) as (out & h' & E & A & T & _).
  exists out, h', (aggregated_rows f).
  split; auto. split; auto. split; auto.
  intros a I. destruct (aggregated_rows_group _ _ I) as (xs & Ea & G & N).
  assert (W : winner a
              = agg_first (map Delivery.match_won_by (group_of f (key_of_agg a)))).
  { rewrite Ea at 1. rewrite <- G. unfold key_of_agg.
    destruct a; reflexivity. }
  assert (Tg : a_target a = target_of (a_batting_team a) (winner a)).
  { rewrite Ea. unfold key_of_agg. destruct a; reflexivity. }
  split; [rewrite W; apply agg_first_seen|]. split.
  { rewrite <- G. intros C. apply map_eq_nil in C. auto. }
  simpl. rewrite Tg. unfold target_of, of_Z.
  split; [|split].
  - destruct (winner a) as [s|]; auto. destruct (String.eqb _ s); auto.
  - destruct (winner a) as [s|].
    + destruct (String.eqb_spec (a_batting_team a) s) as [->|Ne]; split; auto.
      * intros D. discriminate.
      * intros D. congruence.
    + split; intros D; discriminate.
  - intros NoW. rewrite W.
    rewrite agg_first_all_missing; auto.
    intros c Hc. apply in_map_iff in Hc. destruct Hc as [d [<- Hd]].
    apply group_of_In in Hd. destruct Hd as [Hd K].
    apply NoW; auto. unfold key_of in K. unfold key_of_agg in K.
    destruct (Delivery.match_id d), (Delivery.innings d), (Delivery.batting_team d);
      try discriminate.
    congruence.
Qed.

Lemma aggregate_target_witness :
  exists out h' aggregated,
    aggregate_features 0%nat sample_heap = Some (out, h')
    /\ nth_error h' (List.length sample_heap) = Some (OAgg aggregated)
    /\ nth_error h' out = Some (OInn (map final_features aggregated))
    /\ forall a, In a aggregated ->
         first_seen (map Delivery.match_won_by
                         (group_of sample_frame (key_of_agg a)))
                    (winner a)
         /\ group_of sample_frame (key_of_agg a) <> []
         /\ (Innings.target (final_features a) = of_Z 1
             \/ Innings.target (final_features a) = of_Z 0)
         /\ (Innings.target (final_features a) = of_Z 1
             <-> Innings.batting_team (final_features a) = winner a)
         /\ ((forall d, In d (rows sample_frame) ->
                        Delivery.match_id d = Some (a_match_id a) ->
                        Delivery.match_won_by d = None) ->
             Innings.target (final_features a) = of_Z 0).
Proof.
  apply (aggregate_target sample_heap 0%nat sample_frame). reflexivity.
Defined.

(** An innings whose deliveries disagree on the winner: none on the
    first ball, then MI, then CSK.  The first value seen counts. *)
Definition disputed_frame : RawFrame :=
  {| rows := [ ball_of 4 1 "MI" 1 0 None (Some 1) None;
               ball_of 4 1 "MI" 0 0 None (Some 2) (Some "MI");
               ball_of 4 1 "MI" 2 0 None (Some 3) (Some "CSK") ];
     is_wicket := None |}.

Example disputed_winner :
  map (fun a => (winner a, a_target a)) (aggregated_rows disputed_frame)
  = [(Some "MI", 1)].
Proof. vm_compute. reflexivity. Qed.

(** The targets of the sample, in key order: MI won match 1, match 2
    had no winner. *)
Example sample_targets :
  map (fun r => (Innings.batting_team r, Innings.target r)) sample_table
  = [(Some "MI", Fin (1 # 1)); (Some "CSK", Fin (0 # 1));
     (Some "CSK", Fin (0 # 1)); (Some "MI", Fin (0 # 1))].
Proof. vm_compute. reflexivity. Qed.

(** C8.  Cleaning a cleaned table returns the same table: the second
    call of [clean_data] removes no row and changes no value. *)
Theorem clean_data_idempotent (h : Heap) (df : Ref) (d : list Innings.t) :
  nth_error h df = Some (OInn d) ->
  exists once h1 twice h2 cleaned,
    clean_data df h = Some (once, h1)
    /\ clean_data once h1 = Some (twice, h2)
    /\ nth_error h1 once = Some (OInn cleaned)
    /\ nth_error h2 twice = Some (OInn cleaned).
Proof.
  intros H.
  destruct (clean_data_effect _ _ _ H) as (once & h1 & E1 & T1 & _).
  destruct (clean_data_effect _ _ _ T1) as (twice & h2 & E2 & T2 & _).
  exists once, h1, twice, h2, (clean_rows d).
  rewrite clean_rows_idempotent in T2. auto.
Qed.

Definition sample_rows : list Innings.t :=
  sample_table ++ sample_table.

Lemma clean_data_idempotent_witness :
  exists once h1 twice h2 cleaned,
    clean_data 0%nat [OInn sample_rows] = Some (once, h1)
    /\ clean_data once h1 = Some (twice, h2)
    /\ nth_error h1 once = Some (OInn cleaned)
    /\ nth_error h2 twice = Some (OInn cleaned).
Proof.
  apply (clean_data_idempotent [OInn sample_rows] 0%nat sample_rows). reflexivity.
Defined.

(** C9, as stated, fails for [aggregate_features]: after the call the
    caller's frame has an [is_wicket] column it did not have. *)
Lemma aggregate_features_changes_input :
  ~ (forall (h : Heap) (df : Ref) (out : Ref) (h' : Heap),
        aggregate_features df h = Some (out, h') ->
        nth_error h' df = nth_error h df).
Proof.
  intros C.
  pose proof (aggregate_features_run sample_heap 0%nat sample_frame eq_refl) as E.
  apply C in E. vm_compute in E. discriminate E.
Qed.

(** C9, amended.  [clean_data] leaves every frame that existed before
    the call, the caller's input included, as it was.
    [aggregate_features] assigns the [is_wicket] column of the
    caller's frame: afterwards that frame has the same rows and the
    column holds 1 where [wicket_kind] is present and 0 elsewhere;
    every other existing frame is as it was. *)
Theorem frames_after_calls (h : Heap) (df : Ref) :
  (forall d, nth_error h df = Some (OInn d) ->
     exists out h',
       clean_data df h = Some (out, h')
       /\ forall r, (r < List.length h)%nat -> nth_error h' r = nth_error h r)
  /\ (forall f, nth_error h df = Some (ORaw f) ->
        exists out h',
          aggregate_features df h = Some (out, h')
          /\ nth_error h' df
             = Some (ORaw {| rows := rows f;
                             is_wicket := Some (map wicket_flag (rows f)) |})
          /\ forall r, r <> df -> (r < List.length h)%nat ->
                       nth_error h' r = nth_error h r).
Proof.
  split.
  - intros d H. destruct (clean_data_effect _ _ _ H) as (out & h' & E & _ & K).
    exists out, h'. auto.
  - intros f H.
    destruct (aggregate_features_effect _ _ _ H) as (out & h' & E & _ & _ & D & K).
    exists out, h'. auto.
Qed.

Lemma frames_after_calls_witness :
  (exists out h',
      clean_data 0%nat [OInn sample_rows] = Some (out, h')
      /\ forall r, (r < 1)%nat -> nth_error h' r = nth_error [OInn sample_rows] r)
  /\ (exists out h',
        aggregate_features 0%nat sample_heap = Some (out, h')
        /\ nth_error h' 0%nat
           = Some (ORaw {| rows := rows sample_frame;
                           is_wicket := Some (map wicket_flag (rows sample_frame)) |})
        /\ forall r, r <> 0%nat -> (r < 1)%nat ->
                     nth_error h' r = nth_error sample_heap r).
Proof.
  split.
  - apply (proj1 (frames_after_calls [OInn sample_rows] 0%nat) sample_rows).
    reflexivity.
  - apply (proj2 (frames_after_calls sample_heap 0%nat) sample_frame).
    reflexivity.
Defined.

End FeatureEngineeringTheory.

(* ================================================================== *)
(** * Properties of the model store and the predictor *)
(* ================================================================== *)

Module PredictTheory.
Import Py Predict.

(** ** Dicts and frames *)

Lemma existsb_eqb_In (c : string) (l : list string) :
  existsb (String.eqb c) l = true <-> In c l.
Proof.
  rewrite existsb_exists. split.
  - intros [x [I E]]. apply String.eqb_eq in E. subst. auto.
  - intros I. exists c. split; auto. apply String.eqb_refl.
Qed.

Lemma contains_keys (d : dict) (c : string) :
  contains d c = true <-> In c (keys d).
Proof.
  unfold contains. induction d as [|[k v] d IH]; simpl.
  - split; [discriminate|tauto].
  - destruct (String.eqb_spec k c) as [->|N].
    + split; auto.
    + rewrite IH. split; auto. intros [E|I]; auto. contradiction.
Qed.

Lemma add_keys_In (d : dict) (cols : list string) (c : string) :
  In c (add_keys cols d) <-> In c cols \/ In c (keys d).
Proof.
  unfold add_keys. generalize (keys d) as ks. intros ks. revert cols.
  induction ks as [|k ks IH]; simpl; intros cols.
  - tauto.
  - rewrite IH. destruct (existsb (String.eqb k) cols) eqn:E.
    + apply existsb_eqb_In in E. split.
      * intros [I|I]; auto.
      * intros [I|[->|I]]; auto.
    + rewrite in_app_iff. simpl. tauto.
Qed.

Lemma frame_columns_In (l : list dict) (c : string) :
  In c (frame_columns l) <-> exists d, In d l /\ In c (keys d).
Proof.
  unfold frame_columns.
  assert (G : forall cols,
             In c (fold_left add_keys l cols)
             <-> In c cols \/ exists d, In d l /\ In c (keys d)).
  { induction l as [|d l IH]; simpl; intros cols.
    - split; auto. intros [I|[d [[] _]]]; auto.
    - rewrite IH, add_keys_In. split.
      + intros [[I|I]|[d' [I J]]]; eauto.
      + intros [I|[d' [[->|I] J]]]; eauto. }
  rewrite G. simpl. tauto.
Qed.

Lemma cell_map (f : string -> value) (cols : list string) (c : string) :
  In c cols -> cell cols (map f cols) c = f c.
Proof.
  induction cols as [|k cols IH]; simpl; intros I; [contradiction|].
  destruct (String.eqb_spec k c) as [->|N]; auto.
  destruct I as [E|I]; [contradiction|auto].
Qed.

Lemma filter_none (A : Type) (p : A -> bool) (l : list A) :
  (forall x, In x l -> p x = false) -> filter p l = [].
Proof.
  induction l as [|x l IH]; simpl; intros H; auto.
  rewrite (H x) by auto. apply IH. auto.
Qed.

(** Selecting labels the frame has never raises. *)
Lemma select_present (cols : list string) (df : DataFrame) :
  (forall c, In c cols -> In c (columns df)) ->
  select cols df
  = Ok {| columns := cols;
          data := map (fun row => map (cell (columns df) row) cols) (data df) |}.
Proof.
  intros P. unfold select. rewrite filter_none; [reflexivity|].
  intros c I. apply P in I. apply existsb_eqb_In in I. rewrite I. reflexivity.
Qed.

(** A request dict with every contract column and two more keys. *)
Definition sample_input : dict :=
  [ ("request_id", VInt 7);
    ("run_rate", VFloat (Fin (9 # 1)));
    ("batting_team", VStr "Mumbai Indians");
    ("bowling_team", VStr "Chennai Super Kings");
    ("venue", VStr "Wankhede Stadium");
    ("city", VStr "Mumbai");
    ("overs_played", VFloat (Fin (20 # 1)));
    ("total_runs", VInt 180);
    ("total_wickets", VInt 5);
    ("extras_total", VInt 12);
    ("comment", VNone) ].

(* ---------------------------------------------------------------- *)
(** ** The claims on the predictor's frame *)
(* ---------------------------------------------------------------- *)

(** C1.  For a non-empty list of input dicts that each contain the
    nine contract columns (extra keys allowed), the reordering step
    of [predict_match] (one dict) and [batch_predict] (any number)
    succeeds with a frame whose columns are exactly batting_team,
    bowling_team, venue, city, total_runs, total_wickets, run_rate,
    extras_total, overs_played in that order, the column list used at
    training time; row [i] holds the values of dict [i] under those
    columns, so extra keys are gone. *)
Theorem reorder_columns (l : list dict) :
  l <> [] ->
  (forall d c, In d l -> In c feature_columns -> contains d c = true) ->
  exists df,
    reorder l = Ok df
    /\ columns df = ["batting_team"; "bowling_team"; "venue"; "city";
                     "total_runs"; "total_wickets"; "run_rate";
                     "extras_total"; "overs_played"]
    /\ columns df = Train.feature_columns
    /\ data df = map (fun d => map (cell_of d) feature_columns) l
    /\ (forall d c, In d l -> In c feature_columns ->
                    exists v, get d c = Some v /\ cell_of d c = v).
Proof.
  intros NE H.
  assert (P : forall c, In c feature_columns -> In c (frame_columns l)).
  { intros c I. apply frame_columns_In.
    destruct l as [|d l']; [congruence|].
    exists d. split; [left; auto|]. apply contains_keys. apply H; simpl; auto. }
  unfold reorder. rewrite (select_present feature_columns (DataFrame_of l) P).
  eexists. split; [reflexivity|]. cbn [columns data DataFrame_of].
  split; [reflexivity|]. split; [reflexivity|]. split.
  - rewrite map_map. apply map_ext. intros d.
    apply map_ext_in. intros c I. apply cell_map. auto.
  - intros d c Id Ic. specialize (H d c Id Ic).
    unfold contains in H. unfold cell_of.
    destruct (get d c) as [v|]; [eauto|discriminate].
Qed.

Lemma reorder_columns_witness :
  exists df,
    reorder [sample_input] = Ok df
    /\ columns df = ["batting_team"; "bowling_team"; "venue"; "city";
                     "total_runs"; "total_wickets"; "run_rate";
                     "extras_total"; "overs_played"]
    /\ columns df = Train.feature_columns
    /\ data df = map (fun d => map (cell_of d) feature_columns) [sample_input]
    /\ (forall d c, In d [sample_input] -> In c feature_columns ->
                    exists v, get d c = Some v /\ cell_of d c = v).
Proof.
  apply (reorder_columns [sample_input]).
  - discriminate.
  - intros d c [<-|[]] I. simpl in I.
    repeat (destruct I as [<-|I]; [reflexivity|]). destruct I.
Defined.

(** In [predict_match] the estimator is called on the reordered
    frame: once the model is loaded and no required field is absent,
    the frame handed to [predict] is the one [reorder] builds. *)
Lemma predict_match_frame (fs : Storage) (d : dict) (p : string)
      (w w1 : World) (model : Handle) :
  load_model fs p w = (w1, Ok model) ->
  (forall c, In c feature_columns -> contains d c = true) ->
  exists df,
    reorder [d] = Ok df
    /\ columns df = feature_columns
    /\ In (EvPredict (hid model) df) (events (fst (predict_match fs d p w))).
Proof.
  intros L H.
  assert (R : reorder [d]
              = Ok {| columns := feature_columns;
                      data := map (fun row => map (cell (frame_columns [d]) row)
                                                  feature_columns)
                                  (data (DataFrame_of [d])) |}).
  { unfold reorder. apply select_present. intros c I.
    apply frame_columns_In. exists d. split; [left; auto|].
    apply contains_keys. auto. }
  eexists. split; [exact R|]. split; [reflexivity|].
  set (df := {| columns := feature_columns; data := _ |}) in *.
  unfold predict_match. rewrite L.
  assert (F : first_missing d = None).
  { unfold first_missing.
    destruct (find (fun field => negb (contains d field)) required_fields)
      as [c|] eqn:Fd; auto.
    apply find_some in Fd. destruct Fd as [I N].
    rewrite H in N; [discriminate|].
    simpl in I. simpl. intuition (subst; auto 10). }
  rewrite F, R.
  assert (E : forall w', In (EvPredict (hid model) df)
                            (events (log (EvPredict (hid model) df) w'))).
  { intros w'. simpl. apply in_or_app. right. left. reflexivity. }
  destruct (predict (pipeline model) df) as [labels|e]; [|apply E].
  destruct (index labels 0) as [label|e]; [|apply E].
  assert (E2 : forall ev, In (EvPredict (hid model) df)
                             (events (log ev (log (EvPredict (hid model) df) w1)))).
  { intros ev. simpl. apply in_or_app. left. apply in_or_app. right. left. reflexivity. }
  destruct (predict_proba (pipeline model) df) as [probs|e]; [|apply E2].
  destruct (index probs 0) as [proba|e]; apply E2.
Qed.

(** ** The model store, one call after another *)

(** [n] calls of [load_model(p)] in a row, with their results. *)
Fixpoint call_n (fs : Storage) (p : string) (n : nat) (w : World)
  : World * list (Result Handle) :=
  match n with
  | O => (w, [])
  | S n' =>
      let (w1, r) := load_model fs p w in
      let (w2, rs) := call_n fs p n' w1 in
      (w2, r :: rs)
  end.

(** The cache does not hold the model of path [p]. *)
Definition cache_miss (w : World) (p : string) : Prop :=
  cached_model w = None \/ model_path w <> Some p.

Lemma path_matches_iff (w : World) (p : string) :
  path_matches w p = true <-> model_path w = Some p.
Proof.
  unfold path_matches. destruct (model_path w) as [q|].
  - rewrite String.eqb_eq. split; congruence.
  - split; discriminate.
Qed.

Lemma load_model_hit (fs : Storage) (p : string) (w : World) (h : Handle) :
  cached_model w = Some h -> model_path w = Some p ->
  load_model fs p w = (w, Ok h).
Proof.
  intros C P. unfold load_model. rewrite C.
  apply path_matches_iff in P. rewrite P. reflexivity.
Qed.

Lemma load_model_miss (fs : Storage) (p : string) (w : World) :
  cache_miss w p -> load_model fs p w = load_from_storage fs p w.
Proof.
  intros [C|N]; unfold load_model.
  - rewrite C. reflexivity.
  - destruct (cached_model w); auto.
    destruct (path_matches w p) eqn:E; auto.
    apply path_matches_iff in E. contradiction.
Qed.

Lemma call_n_hit (fs : Storage) (p : string) (w : World) (h : Handle) (n : nat) :
  cached_model w = Some h -> model_path w = Some p ->
  call_n fs p n w = (w, repeat (Ok h) n).
Proof.
  intros C P. induction n as [|n IH]; simpl; auto.
  rewrite (load_model_hit fs p w h C P), IH. reflexivity.
Qed.

(** What a successful load on a miss returns and leaves behind. *)
Definition fresh_handle (w : World) (pl : Pipeline) : Handle :=
  {| hid := next_id w; pipeline := pl |}.

Definition world_after_load (w : World) (p : string) (pl : Pipeline) : World :=
  {| cached_model := Some (fresh_handle w pl);
     model_path := Some p;
     events := (events w ++ [EvExists p]) ++ [EvLoad p];
     next_id := S (next_id w) |}.

Lemma load_model_miss_loads (fs : Storage) (p : string) (pl : Pipeline) (w : World) :
  fs p = Present (Ok pl) ->
  cache_miss w p ->
  load_model fs p w = (world_after_load w p pl, Ok (fresh_handle w pl)).
Proof.
  intros F M. rewrite (load_model_miss _ _ _ M).
  unfold load_from_storage. rewrite F. reflexivity.
Qed.

(** A storage with one good artifact and one that does not
    deserialise. *)
Definition sample_pipeline : Pipeline :=
  {| predict := fun df => Ok (map (fun _ => 1) (data df));
     predict_proba := fun df => Ok (map (fun _ => [Fin (1 # 4); Fin (3 # 4)]) (data df)) |}.

Definition other_pipeline : Pipeline :=
  {| predict := fun df => Ok (map (fun _ => 0) (data df));
     predict_proba := fun df => Ok (map (fun _ => [Fin (7 # 10); Fin (3 # 10)]) (data df)) |}.

Definition sample_storage : Storage :=
  fun p =>
    if String.eqb p "model.pkl" then Present (Ok sample_pipeline)
    else if String.eqb p "model_v2.pkl" then Present (Ok other_pipeline)
    else if String.eqb p "corrupt.pkl"
         then Present (Raise (OtherError "invalid load key"))
         else Absent.

(** The world after [load_model("model.pkl")] on the sample storage. *)
Definition loaded_world : World :=
  fst (load_model sample_storage "model.pkl" initial_world).

(* ---------------------------------------------------------------- *)
(** ** The claims on the model store *)
(* ---------------------------------------------------------------- *)

(** C5.  A call of [load_model(p)] while the cache is empty or holds
    another path, with a loadable artifact under [p], checks and
    loads the artifact once, returns the new handle and leaves the
    single slot holding that handle under [p]; any number of further
    calls with [p] return that same handle and change nothing (no
    storage access); the path cached before is no longer served from
    the cache. *)
Theorem load_model_single_slot (fs : Storage) (p : string) (pl : Pipeline)
        (w : World) :
  fs p = Present (Ok pl) ->
  cache_miss w p ->
  exists h w1,
    load_model fs p w = (w1, Ok h)
    /\ pipeline h = pl
    /\ hid h = next_id w
    /\ cached_model w1 = Some h
    /\ model_path w1 = Some p
    /\ events w1 = events w ++ [EvExists p; EvLoad p]
    /\ (forall n fs', call_n fs' p n w1 = (w1, repeat (Ok h) n))
    /\ (forall q, q <> p -> cache_miss w1 q).
Proof.
  intros F M. rewrite (load_model_miss_loads _ _ _ _ F M).
  eexists _, _. split; [reflexivity|]. cbn.
  repeat split.
  - rewrite <- app_assoc. reflexivity.
  - intros n fs'. apply call_n_hit; reflexivity.
  - intros q N. right. cbn. congruence.
Qed.

Lemma load_model_single_slot_witness :
  exists h w1,
    load_model sample_storage "model_v2.pkl" loaded_world = (w1, Ok h)
    /\ pipeline h = other_pipeline
    /\ hid h = next_id loaded_world
    /\ cached_model w1 = Some h
    /\ model_path w1 = Some "model_v2.pkl"
    /\ events w1 = events loaded_world
                     ++ [EvExists "model_v2.pkl"; EvLoad "model_v2.pkl"]
    /\ (forall n fs', call_n fs' "model_v2.pkl" n w1 = (w1, repeat (Ok h) n))
    /\ (forall q, q <> "model_v2.pkl" -> cache_miss w1 q).
Proof.
  apply (load_model_single_slot sample_storage "model_v2.pkl" other_pipeline
                                loaded_world).
  - reflexivity.
  - right. vm_compute. discriminate.
Defined.

(** C10.  A call of [load_model] that raises (no file under the
    path, or deserialisation fails) leaves [_cached_model] and
    [_model_path] as they were; a later call with the path cached
    before still returns the old handle without going to storage. *)
Theorem load_model_failure_keeps_cache (fs : Storage) (p : string)
        (w w' : World) (e : Exn) :
  load_model fs p w = (w', Raise e) ->
  cached_model w' = cached_model w
  /\ model_path w' = model_path w
  /\ next_id w' = next_id w
  /\ ((fs p = Absent /\ e = missing_file p) \/ fs p = Present (Raise e))
  /\ (forall h q fs',
        cached_model w = Some h -> model_path w = Some q ->
        load_model fs' q w' = (w', Ok h)).
Proof.
  intros L.
  assert (S : load_from_storage fs p w = (w', Raise e)).
  { unfold load_model in L. destruct (cached_model w); auto.
    destruct (path_matches w p); auto. discriminate. }
  clear L. unfold load_from_storage in S.
  assert (K : cached_model w' = cached_model w /\ model_path w' = model_path w
              /\ next_id w' = next_id w
              /\ ((fs p = Absent /\ e = missing_file p) \/ fs p = Present (Raise e))).
  { destruct (fs p) as [|[pl|e']]; inversion S; subst; cbn; auto 10. }
  destruct K as (K1 & K2 & K3 & K4). repeat split; auto.
  intros h q fs' C P. apply load_model_hit; congruence.
Qed.

Lemma load_model_failure_keeps_cache_witness :
  let w' := fst (load_model sample_storage "corrupt.pkl" loaded_world) in
  cached_model w' = cached_model loaded_world
  /\ model_path w' = model_path loaded_world
  /\ next_id w' = next_id loaded_world
  /\ ((sample_storage "corrupt.pkl" = Absent
       /\ OtherError "invalid load key" = missing_file "corrupt.pkl")
      \/ sample_storage "corrupt.pkl" = Present (Raise (OtherError "invalid load key")))
  /\ (forall h q fs',
        cached_model loaded_world = Some h -> model_path loaded_world = Some q ->
        load_model fs' q w' = (w', Ok h)).
Proof.
  apply (load_model_failure_keeps_cache sample_storage "corrupt.pkl" loaded_world).
  reflexivity.
Defined.

(** ** Calls that overlap *)

(** One thread running [k] statements with nobody in between. *)
Fixpoint thread_run (fs : Storage) (k : nat) (t : Thread) (w : World)
  : World * Thread :=
  match k with
  | O => (w, t)
  | S k' => let (w1, t1) := thread_step fs t w in thread_run fs k' t1 w1
  end.

Definition entering (p : string) : Thread := {| arg := p; pc := AtCheck |}.

(** A call that runs alone is [load_model]. *)
Lemma thread_run_alone (fs : Storage) (p : string) (w : World) :
  thread_run fs 5 (entering p) w =
  (fst (load_model fs p w),
   {| arg := p; pc := Finished (snd (load_model fs p w)) |}).
Proof.
  unfold load_model, load_from_storage, entering.
  destruct w as [cm mp ev ni].
  destruct (fs p) as [|[pl|e]] eqn:F;
    (destruct cm as [h|]; [destruct mp as [q|]; [destruct (String.eqb q p) eqn:P|]|]);
    cbn; repeat (rewrite ?P, ?F; cbn); reflexivity.
Qed.

Lemma nth_error_middle (done rest : list Thread) (t : Thread) :
  nth_error (done ++ t :: rest) (List.length done) = Some t.
Proof. rewrite nth_error_app2, Nat.sub_diag; auto. Qed.

Lemma replace_thread_middle (done rest : list Thread) (t t' : Thread) :
  replace_thread (List.length done) t' (done ++ t :: rest) = done ++ t' :: rest.
Proof. induction done as [|x done IH]; simpl; auto. rewrite IH. reflexivity. Qed.

Lemma sched_step_middle (fs : Storage) (done rest : list Thread) (t : Thread)
      (w : World) :
  sched_step fs {| world := w; threads := done ++ t :: rest |} (List.length done)
  = {| world := fst (thread_step fs t w);
       threads := done ++ snd (thread_step fs t w) :: rest |}.
Proof.
  unfold sched_step. cbn [threads world].
  rewrite nth_error_middle.
  destruct (thread_step fs t w) as [w1 t1].
  rewrite replace_thread_middle. reflexivity.
Qed.

Lemma run_one_thread (fs : Storage) (k : nat) :
  forall (done rest : list Thread) (t : Thread) (w : World),
    run fs (repeat (List.length done) k)
        {| world := w; threads := done ++ t :: rest |}
    = {| world := fst (thread_run fs k t w);
         threads := done ++ snd (thread_run fs k t w) :: rest |}.
Proof.
  induction k as [|k IH]; intros done rest t w; [reflexivity|].
  cbn [repeat thread_run]. unfold run. cbn [fold_left].
  rewrite sched_step_middle.
  destruct (thread_step fs t w) as [w1 t1]. cbn [fst snd].
  apply IH.
Qed.

Lemma run_app (fs : Storage) (s1 s2 : list nat) (s : System) :
  run fs (s1 ++ s2) s = run fs s2 (run fs s1 s).
Proof. unfold run. apply fold_left_app. Qed.

(** Callers that arrive one after another once the cache holds [p]. *)
Lemma run_serial_hits (fs : Storage) (p : string) (w : World) (h : Handle) :
  cached_model w = Some h -> model_path w = Some p ->
  forall (k : nat) (done : list Thread),
    run fs (flat_map (fun i => repeat i 5) (seq (List.length done) k))
        {| world := w; threads := done ++ repeat (entering p) k |}
    = {| world := w;
         threads := done ++ repeat {| arg := p; pc := Finished (Ok h) |} k |}.
Proof.
  intros C P. induction k as [|k IH]; intros done; [reflexivity|].
  change (repeat (entering p) (S k)) with (entering p :: repeat (entering p) k).
  cbn [seq flat_map].
  rewrite run_app, run_one_thread, thread_run_alone.
  rewrite (load_model_hit fs p w h C P). cbn [fst snd].
  specialize (IH (done ++ [{| arg := p; pc := Finished (Ok h) |}])).
  rewrite length_app, Nat.add_comm in IH. simpl in IH.
  rewrite <- !app_assoc in IH. simpl in IH. exact IH.
Qed.

(** The claim of C2 for [n] callers of [load_model(p)] starting from
    a world [w]: whatever the schedule, once all have returned the
    artifact was deserialised once and all hold the same handle. *)
Definition single_flight (fs : Storage) (n : nat) (p : string) (w : World) : Prop :=
  forall schedule,
    let s := run fs schedule (spawn n p w) in
    forallb finished (threads s) = true ->
    loads p (world s) = S (loads p w)
    /\ exists h, Forall (returned h) (threads s).

(** Two callers: both pass the cache check before either has
    loaded. *)
Definition overlapping_schedule : list nat :=
  [0; 1; 0; 0; 0; 0; 1; 1; 1; 1]%nat.

Example overlapping_calls :
  let s := run sample_storage overlapping_schedule
               (spawn 2 "model.pkl" initial_world) in
  map pc (threads s)
  = [Finished (Ok {| hid := 0; pipeline := sample_pipeline |});
     Finished (Ok {| hid := 1; pipeline := sample_pipeline |})]
  /\ loads "model.pkl" (world s) = 2%nat.
Proof. vm_compute. split; reflexivity. Qed.

(** C2, as stated, fails: two overlapping first calls deserialise
    the artifact twice. *)
Lemma load_model_not_single_flight :
  ~ single_flight sample_storage 2 "model.pkl" initial_world.
Proof.
  intros C. specialize (C overlapping_schedule).
  destruct (C eq_refl) as [L _]. vm_compute in L. discriminate L.
Qed.

(** C2, amended.  When [n] first-access calls of [load_model(p)] do
    not overlap (each returns before the next starts), the artifact
    is deserialised exactly once and all [n] callers return the same
    handle, the one left in the cache. *)
Theorem load_model_serial_calls (fs : Storage) (p : string) (pl : Pipeline)
        (w : World) (n : nat) :
  fs p = Present (Ok pl) ->
  cache_miss w p ->
  (0 < n)%nat ->
  let s := run fs (serial n) (spawn n p w) in
  loads p (world s) = S (loads p w)
  /\ List.length (threads s) = n
  /\ exists h,
       Forall (returned h) (threads s)
       /\ pipeline h = pl
       /\ cached_model (world s) = Some h.
Proof.
  intros F M N. destruct n as [|k]; [lia|].
  pose proof (load_model_miss_loads fs p pl w F M) as L.
  set (h := fresh_handle w pl) in *. set (w1 := world_after_load w p pl) in *.
  assert (C : cached_model w1 = Some h) by reflexivity.
  assert (P : model_path w1 = Some p) by reflexivity.
  assert (Ev : events w1 = events w ++ [EvExists p; EvLoad p]).
  { unfold w1, world_after_load. cbn. rewrite <- app_assoc. reflexivity. }
  assert (Hp : pipeline h = pl) by reflexivity.
  unfold serial, spawn.
  change (seq 0 (S k)) with (0%nat :: seq 1 k). cbn [flat_map].
  change (repeat {| arg := p; pc := AtCheck |} (S k))
    with (entering p :: repeat (entering p) k).
  rewrite run_app.
  pose proof (run_one_thread fs 5 [] (repeat (entering p) k) (entering p) w) as R1.
  cbn [List.length app] in R1. rewrite R1, thread_run_alone, L. cbn [fst snd].
  pose proof (run_serial_hits fs p w1 h C P k
                [{| arg := p; pc := Finished (Ok h) |}]) as R.
  cbn [List.length app] in R. rewrite R. cbn [world threads].
  split; [|split].
  - unfold loads. rewrite Ev, filter_app, length_app. cbn.
    rewrite String.eqb_refl. cbn. lia.
  - cbn. rewrite repeat_length. reflexivity.
  - exists h. split; [|split]; auto.
    constructor; [reflexivity|].
    apply Forall_forall. intros t I. apply repeat_spec in I. rewrite I. reflexivity.
Qed.

Lemma load_model_serial_calls_witness :
  let s := run sample_storage (serial 3) (spawn 3 "model.pkl" initial_world) in
  loads "model.pkl" (world s) = S (loads "model.pkl" initial_world)
  /\ List.length (threads s) = 3%nat
  /\ exists h,
       Forall (returned h) (threads s)
       /\ pipeline h = sample_pipeline
       /\ cached_model (world s) = Some h.
Proof.
  apply (load_model_serial_calls sample_storage "model.pkl" sample_pipeline
                                 initial_world 3).
  - reflexivity.
  - left. reflexivity.
  - lia.
Defined.

End PredictTheory.

(* ================================================================== *)
(** * Properties of request validation *)
(* ================================================================== *)

Module AppTheory.
Import Py Predict PredictTheory.

(** ** Text that names a field *)

(** [c in s] on strings. *)
Fixpoint is_infix (c s : string) : bool :=
  if String.prefix c s then true
  else match s with
       | EmptyString => false
       | String _ s' => is_infix c s'
       end.

Lemma prefix_append (c r : string) : String.prefix c (c ++ r) = true.
Proof.
  induction c as [|a c IH]; simpl.
  - destruct r; reflexivity.
  - destruct (ascii_dec a a); [auto|contradiction].
Qed.

Lemma is_infix_unfold (c s : string) :
  is_infix c s = if String.prefix c s then true
                 else match s with
                      | EmptyString => false
                      | String _ s' => is_infix c s'
                      end.
Proof. destruct s; reflexivity. Qed.

Lemma is_infix_here (c r : string) : is_infix c (c ++ r) = true.
Proof. rewrite is_infix_unfold, prefix_append. reflexivity. Qed.

Lemma is_infix_later (c a b : string) :
  is_infix c b = true -> is_infix c (a ++ b) = true.
Proof.
  intros H. induction a as [|x a IH]; [exact H|].
  change (String x a ++ b)%string with (String x (a ++ b)).
  rewrite is_infix_unfold.
  destruct (String.prefix c (String x (a ++ b))); auto.
Qed.

Lemma is_infix_self (c : string) : is_infix c c = true.
Proof.
  assert (P : String.prefix c c = true).
  { induction c as [|a c IH]; simpl; auto.
    destruct (ascii_dec a a); [auto|contradiction]. }
  rewrite is_infix_unfold, P. reflexivity.
Qed.

Lemma is_infix_concat (sep c : string) (l : list string) :
  In c l -> is_infix c (String.concat sep l) = true.
Proof.
  induction l as [|x l IH]; simpl; intros I; [contradiction|].
  destruct l as [|y l].
  - destruct I as [->|[]]. apply is_infix_self.
  - destruct I as [->|I].
    + apply is_infix_here.
    + apply is_infix_later, is_infix_later. auto.
Qed.

(** A failure text names every required column the input lacks. *)
Definition lists_every_absent (msg : string) (d : dict) : Prop :=
  forall c, In c required_fields -> contains d c = false -> is_infix c msg = true.

Lemma find_first (A : Type) (p : A -> bool) (l : list A) (x : A) :
  find p l = Some x ->
  exists pre post, l = pre ++ x :: post /\ p x = true
                   /\ forall y, In y pre -> p y = false.
Proof.
  induction l as [|a l IH]; simpl; [discriminate|].
  destruct (p a) eqn:E.
  - intros H. injection H as <-. exists [], l. simpl. intuition.
  - intros H. destruct (IH H) as (pre & post & -> & Px & Pre).
    exists (a :: pre), post. simpl. split; auto. split; auto.
    intros y [<-|I]; auto.
Qed.

Definition sample_env : App.Env :=
  {| App.MODEL_PATH := "model.pkl"; App.parse_float := fun _ => None |}.

(** A request without venue and city. *)
Definition input_without_venue_city : dict :=
  [ ("batting_team", VStr "Mumbai Indians");
    ("bowling_team", VStr "Chennai Super Kings");
    ("total_runs", VInt 180);
    ("total_wickets", VInt 5);
    ("overs_played", VFloat (Fin (20 # 1)));
    ("extras_total", VInt 12);
    ("run_rate", VFloat (Fin (9 # 1))) ].

(** ** Dict updates *)

Lemma get_set_same (d : dict) (k : string) (v : value) :
  get (set d k v) k = Some v.
Proof.
  induction d as [|[k' v'] d IH]; simpl.
  - rewrite String.eqb_refl. reflexivity.
  - destruct (String.eqb k' k) eqn:E; simpl; rewrite E; auto.
Qed.

Lemma get_set_other (d : dict) (k k' : string) (v : value) :
  k' <> k -> get (set d k v) k' = get d k'.
Proof.
  intros N. induction d as [|[k0 v0] d IH]; simpl.
  - destruct (String.eqb_spec k k'); [congruence|reflexivity].
  - destruct (String.eqb_spec k0 k) as [->|N0]; simpl.
    + destruct (String.eqb_spec k k'); [congruence|reflexivity].
    + destruct (String.eqb k0 k'); auto.
Qed.

(** ** The validation loop *)

Section Validation.
Variable env : App.Env.

Lemma py_float_throw (v : value) (e : Exn) :
  py_float (App.parse_float env) v = Raise e ->
  (exists m, e = ValueError m) \/ (exists m, e = TypeError m)
  \/ (exists z, v = VInt z /\ float_overflows z = true).
Proof.
  destruct v as [|[|]|z|x|s|n]; simpl; intros H; try discriminate.
  - injection H as <-. eauto.
  - destruct (float_overflows z) eqn:O; [|discriminate]. eauto.
  - destruct (App.parse_float env s); [discriminate|]. injection H as <-. eauto.
  - injection H as <-. eauto.
Qed.

Lemma validate_numeric_return (fields : list string) :
  forall data r,
    App.validate_numeric env fields data = App.Return r ->
    exists m, r = App.bad_request m.
Proof.
  induction fields as [|f fields IH]; simpl; intros data r H; [discriminate|].
  destruct (App.item data f) as [v|e]; [|discriminate].
  destruct (py_float (App.parse_float env) v) as [x|e].
  - destruct (ltb x (of_Z 0)).
    + injection H as <-. eauto.
    + eapply IH; eauto.
  - destruct e; try discriminate; injection H as <-; eauto.
Qed.

Lemma validate_numeric_next (fields : list string) :
  NoDup fields ->
  forall data data',
    App.validate_numeric env fields data = App.Next data' ->
    (forall f, In f fields ->
       exists v x, get data f = Some v
                   /\ py_float (App.parse_float env) v = Ok x
                   /\ ltb x (of_Z 0) = false
                   /\ get data' f = Some (VFloat x))
    /\ (forall k, ~ In k fields -> get data' k = get data k).
Proof.
  induction fields as [|f fields IH]; simpl; intros ND data data' H.
  - injection H as <-. split; [intros f []|auto].
  - inversion ND as [|? ? NI ND']; subst.
    unfold App.item in H. destruct (get data f) as [v|] eqn:G; [|discriminate].
    destruct (py_float (App.parse_float env) v) as [x|e] eqn:P.
    2:{ destruct e; discriminate. }
    destruct (ltb x (of_Z 0)) eqn:L; [discriminate|].
    destruct (IH ND' _ _ H) as [A B]. split.
    + intros g [<-|I].
      * exists v, x. repeat split; auto.
        rewrite (B f NI). apply get_set_same.
      * destruct (A g I) as (v' & x' & G' & P' & L' & D').
        exists v', x'. repeat split; auto.
        rewrite get_set_other in G'; auto. intros E. subst g. contradiction.
    + intros k NK. rewrite B by tauto.
      apply get_set_other. intros E. subst k. apply NK. auto.
Qed.

Lemma validate_numeric_throw (fields : list string) :
  NoDup fields ->
  forall data e,
    (forall f, In f fields -> contains data f = true) ->
    App.validate_numeric env fields data = App.Throw e ->
    exists f z, In f fields /\ get data f = Some (VInt z)
                /\ float_overflows z = true.
Proof.
  induction fields as [|f fields IH]; simpl; intros ND data e C H; [discriminate|].
  inversion ND as [|? ? NI ND']; subst.
  pose proof (C f (or_introl eq_refl)) as Cf. unfold contains in Cf.
  unfold App.item in H. destruct (get data f) as [v|] eqn:G; [|discriminate].
  destruct (py_float (App.parse_float env) v) as [x|e'] eqn:P.
  - destruct (ltb x (of_Z 0)); [discriminate|].
    assert (C' : forall g, In g fields ->
                        contains (set data f (VFloat x)) g = true).
    { intros g I. unfold contains. rewrite get_set_other.
      - apply (C g). auto.
      - intros E. subst g. contradiction. }
    destruct (IH ND' _ _ C' H) as (g & z & I & Gz & O).
    exists g, z. split; auto. split; auto.
    rewrite get_set_other in Gz; auto. intros E. subst g. contradiction.
  - destruct (py_float_throw _ _ P) as [[m ->]|[[m ->]|[z [-> O]]]];
      try discriminate.
    exists f, z. auto.
Qed.

End Validation.

Lemma numeric_fields_NoDup : NoDup App.numeric_fields.
Proof.
  unfold App.numeric_fields.
  repeat (constructor; [simpl; intuition discriminate|]). constructor.
Qed.

Lemma missing_none_contains (data : dict) (c : string) :
  App.missing_fields data = [] -> In c App.required_fields ->
  contains data c = true.
Proof.
  unfold App.missing_fields. intros E I.
  destruct (contains data c) eqn:C; auto.
  assert (K : In c (filter (fun field => negb (contains data field))
                           App.required_fields)).
  { apply filter_In. rewrite C. auto. }
  rewrite E in K. destruct K.
Qed.

(** What a request that reaches [predict_match] has passed. *)
Lemma validate_next (env : App.Env) (data data' : dict) :
  App.validate env data = App.Next data' ->
  (forall f, In f App.numeric_fields ->
     exists v x, get data f = Some v
                 /\ py_float (App.parse_float env) v = Ok x
                 /\ ltb x (of_Z 0) = false
                 /\ get data' f = Some (VFloat x))
  /\ (forall k, ~ In k App.numeric_fields -> get data' k = get data k)
  /\ App.validate_ranges data' = App.Next data'.
Proof.
  unfold App.validate. intros H.
  destruct data as [|kv rest]; [discriminate|].
  destruct (App.missing_fields (kv :: rest)); [|discriminate].
  destruct (App.validate_numeric env App.numeric_fields (kv :: rest))
    as [r|e|d1] eqn:V; try discriminate.
  destruct (validate_numeric_next env _ numeric_fields_NoDup _ _ V) as [A B].
  assert (E : d1 = data').
  { unfold App.validate_ranges in H.
    destruct (App.exceeds d1 "overs_played" 20) as [[|]|]; try discriminate.
    destruct (App.exceeds d1 "total_wickets" 10) as [[|]|]; try discriminate.
    destruct (App.item d1 "batting_team"); try discriminate.
    destruct (App.item d1 "bowling_team"); try discriminate.
    destruct (py_eq a a0); try discriminate. congruence. }
  subst d1. split; [exact A|]. split; [exact B|exact H].
Qed.

Lemma validate_return (env : App.Env) (data : dict) (r : App.Response) :
  App.validate env data = App.Return r ->
  App.code r = 400 /\ exists m req, App.body r = App.BError m req None.
Proof.
  unfold App.validate. intros H.
  destruct data as [|kv rest].
  { injection H as <-. simpl. eauto. }
  destruct (App.missing_fields (kv :: rest)).
  2:{ injection H as <-. simpl. eauto. }
  destruct (App.validate_numeric env App.numeric_fields (kv :: rest))
    as [r'|e|d1] eqn:V; try discriminate.
  - injection H as <-. apply validate_numeric_return in V.
    destruct V as [m ->]. simpl. eauto.
  - unfold App.validate_ranges in H.
    destruct (App.exceeds d1 "overs_played" 20) as [[|]|]; try discriminate.
    { injection H as <-. simpl. eauto. }
    destruct (App.exceeds d1 "total_wickets" 10) as [[|]|]; try discriminate.
    { injection H as <-. simpl. eauto. }
    destruct (App.item d1 "batting_team"); try discriminate.
    destruct (App.item d1 "bowling_team"); try discriminate.
    destruct (py_eq a a0); try discriminate.
    injection H as <-. simpl. eauto.
Qed.

(** The only exception validation lets through to the outer handler
    is the OverflowError of an int beyond the float range. *)
Lemma validate_throw (env : App.Env) (data : dict) (e : Exn) :
  App.validate env data = App.Throw e ->
  exists f z, In f App.numeric_fields /\ get data f = Some (VInt z)
              /\ float_overflows z = true.
Proof.
  unfold App.validate. intros H.
  destruct data as [|kv rest]; [discriminate|].
  destruct (App.missing_fields (kv :: rest)) eqn:M; [|discriminate].
  assert (C : forall c, In c App.required_fields -> contains (kv :: rest) c = true).
  { intros c I. apply missing_none_contains; auto. }
  destruct (App.validate_numeric env App.numeric_fields (kv :: rest))
    as [r'|e'|d1] eqn:V; try discriminate.
  - injection H as <-.
    apply (validate_numeric_throw env _ numeric_fields_NoDup _ _) in V; auto.
    intros f I. apply C. simpl in *. intuition (subst; auto 10).
  - exfalso.
    destruct (validate_numeric_next env _ numeric_fields_NoDup _ _ V) as [A B].
    unfold App.validate_ranges, App.exceeds, App.item in H.
    destruct (A "overs_played") as (v1 & x1 & _ & _ & _ & G1); [simpl; auto 10|].
    destruct (A "total_wickets") as (v2 & x2 & _ & _ & _ & G2); [simpl; auto 10|].
    rewrite G1, G2 in H. simpl in H.
    rewrite (B "batting_team"), (B "bowling_team") in H
      by (simpl; intuition discriminate).
    pose proof (C "batting_team") as C1. pose proof (C "bowling_team") as C2.
    unfold contains in C1, C2.
    destruct (get (kv :: rest) "batting_team"); [|discriminate C1; simpl; auto 10].
    destruct (get (kv :: rest) "bowling_team"); [|discriminate C2; simpl; auto 10].
    destruct (gtb x1 (of_Z 20)); try discriminate.
    destruct (gtb x2 (of_Z 10)); try discriminate.
    destruct (py_eq v v0); discriminate.
Qed.

(* ---------------------------------------------------------------- *)
(** ** The claims on validation *)
(* ---------------------------------------------------------------- *)

(** C6, as stated, fails: [predict_match] on an input without venue
    and city raises an error that names venue only, and the handler
    answers an empty request body without naming any field. *)
Lemma missing_field_error_names_first_only :
  (exists w,
      predict_match sample_storage input_without_venue_city "model.pkl"
                    initial_world
      = (w, Raise (ValueError "Missing required field: venue"))
      /\ contains input_without_venue_city "city" = false
      /\ ~ lists_every_absent "Missing required field: venue"
                              input_without_venue_city)
  /\ (exists w,
        App.predict sample_env sample_storage [] initial_world
        = (w, App.bad_request "No JSON data provided")
        /\ ~ lists_every_absent "No JSON data provided" []).
Proof.
  split.
  - eexists. split; [vm_compute; reflexivity|]. split; [reflexivity|].
    intros C. specialize (C "city"). vm_compute in C.
    assert (F : false = true) by (apply C; auto 10). discriminate F.
  - eexists. split; [vm_compute; reflexivity|].
    intros C. specialize (C "city"). vm_compute in C.
    assert (F : false = true) by (apply C; auto 10). discriminate F.
Qed.

(** C6, amended.  For a non-empty request dict that lacks required
    fields, the handler answers 400 before any model access with
    "Missing required fields: " followed by all absent required
    fields (in the order of the required list), so every absent field
    is named.  [predict_match] called directly, once the model is
    loaded, raises "Missing required field: f" for the first absent
    required field [f] only. *)
Theorem missing_fields_reported (env : App.Env) (fs : Storage) (data : dict)
        (w : World) :
  data <> [] ->
  (exists c, In c required_fields /\ contains data c = false) ->
  let msg := ("Missing required fields: "
                ++ String.concat ", " (App.missing_fields data))%string in
  App.predict env fs data w
    = (w, {| App.body := App.BError msg (Some App.required_fields) None;
             App.code := 400 |})
  /\ (forall c, In c (App.missing_fields data)
                <-> In c required_fields /\ contains data c = false)
  /\ lists_every_absent msg data
  /\ (forall p w1 model,
        load_model fs p w = (w1, Ok model) ->
        exists field pre post,
          predict_match fs data p w
            = (w1, Raise (ValueError ("Missing required field: " ++ field)))
          /\ required_fields = pre ++ field :: post
          /\ contains data field = false
          /\ (forall c, In c pre -> contains data c = true)).
Proof.
  intros NE [c0 [I0 A0]] msg.
  assert (M : forall c, In c (App.missing_fields data)
                        <-> In c required_fields /\ contains data c = false).
  { intros c. unfold App.missing_fields. rewrite filter_In.
    change App.required_fields with required_fields.
    rewrite negb_true_iff. tauto. }
  split; [|split; [exact M|split]].
  - unfold App.predict, App.validate.
    destruct data as [|kv data']; [congruence|].
    destruct (App.missing_fields (kv :: data')) as [|m ms] eqn:E.
    + exfalso. assert (I : In c0 []) by (apply M; auto). destruct I.
    + reflexivity.
  - intros c I A. unfold msg. apply is_infix_later.
    apply is_infix_concat. apply M. auto.
  - intros p w1 model L. unfold predict_match. rewrite L.
    destruct (first_missing data) as [field|] eqn:F.
    + unfold first_missing in F. apply find_first in F.
      destruct F as (pre & post & E & Pf & Pre).
      exists field, pre, post. split; auto. split; auto.
      split; [apply negb_true_iff; auto|].
      intros c I. apply Pre in I. apply negb_false_iff in I. auto.
    + exfalso. unfold first_missing in F.
      pose proof (find_none _ _ F c0 I0) as N. cbv beta in N.
      rewrite A0 in N. discriminate.
Qed.

Lemma missing_fields_reported_witness :
  let data := input_without_venue_city in
  let msg := ("Missing required fields: "
                ++ String.concat ", " (App.missing_fields data))%string in
  App.predict sample_env sample_storage data initial_world
    = (initial_world,
       {| App.body := App.BError msg (Some App.required_fields) None;
          App.code := 400 |})
  /\ (forall c, In c (App.missing_fields data)
                <-> In c required_fields /\ contains data c = false)
  /\ lists_every_absent msg data
  /\ (forall p w1 model,
        load_model sample_storage p initial_world = (w1, Ok model) ->
        exists field pre post,
          predict_match sample_storage data p initial_world
            = (w1, Raise (ValueError ("Missing required field: " ++ field)))
          /\ required_fields = pre ++ field :: post
          /\ contains data field = false
          /\ (forall c, In c pre -> contains data c = true)).
Proof.
  apply (missing_fields_reported sample_env sample_storage
                                 input_without_venue_city initial_world).
  - discriminate.
  - exists "venue". split; [simpl; auto 10|reflexivity].
Defined.

(** A request whose only flaw is a fractional wicket count. *)
Definition input_fractional_wickets : dict :=
  [ ("batting_team", VStr "Mumbai Indians");
    ("bowling_team", VStr "Chennai Super Kings");
    ("venue", VStr "Wankhede Stadium");
    ("city", VStr "Mumbai");
    ("total_runs", VInt 180);
    ("total_wickets", VFloat (Fin (5 # 2)));
    ("overs_played", VFloat (Fin (20 # 1)));
    ("extras_total", VInt 12);
    ("run_rate", VFloat (Fin (9 # 1))) ].

(** C7, as stated, fails: total_wickets = 2.5 is not an integer, yet
    the request passes validation, the model is loaded and asked, and
    the answer is 200. *)
Lemma fractional_wickets_accepted :
  get input_fractional_wickets "total_wickets" = Some (VFloat (Fin (5 # 2)))
  /\ (forall z : Z, ~ (5 # 2 == inject_Z z)%Q)
  /\ exists w r df,
       App.predict sample_env sample_storage input_fractional_wickets initial_world
       = (w, r)
       /\ App.code r = 200
       /\ events w = [EvExists "model.pkl"; EvLoad "model.pkl";
                      EvPredict 0 df; EvPredictProba 0 df].
Proof.
  split; [reflexivity|]. split.
  - intros z E. unfold Qeq in E. simpl in E. lia.
  - eexists _, _, _. split; [vm_compute; reflexivity|]. split; reflexivity.
Qed.

(** The rules the handler enforces before calling [predict_match]:
    equal teams, a numeric field that [float] rejects or that is
    negative, overs_played above 20, total_wickets above 10. *)
Definition violates (env : App.Env) (data : dict) : Prop :=
  (exists a b, get data "batting_team" = Some a
               /\ get data "bowling_team" = Some b
               /\ py_eq a b = true)
  \/ (exists f v e, In f App.numeric_fields /\ get data f = Some v
                    /\ py_float (App.parse_float env) v = Raise e)
  \/ (exists f v x, In f App.numeric_fields /\ get data f = Some v
                    /\ py_float (App.parse_float env) v = Ok x
                    /\ ltb x (of_Z 0) = true)
  \/ (exists v x, get data "overs_played" = Some v
                  /\ py_float (App.parse_float env) v = Ok x
                  /\ gtb x (of_Z 20) = true)
  \/ (exists v x, get data "total_wickets" = Some v
                  /\ py_float (App.parse_float env) v = Ok x
                  /\ gtb x (of_Z 10) = true).

(** Every integer among the numeric fields is one [float] can
    convert. *)
Definition ints_in_float_range (data : dict) : Prop :=
  forall f z, In f App.numeric_fields -> get data f = Some (VInt z) ->
              float_overflows z = false.

(** C7, amended.  A request whose integers are within the range of a
    float and in which batting_team equals bowling_team, or one of the
    five numeric fields is negative or not convertible by [float], or
    overs_played exceeds 20, or total_wickets exceeds 10, is answered
    with a 400 validation error and leaves the world untouched: no
    storage access and no estimator call.  (Whether total_wickets is a
    whole number is not checked.) *)
Theorem invalid_request_rejected (env : App.Env) (fs : Storage) (data : dict)
        (w : World) :
  violates env data ->
  ints_in_float_range data ->
  exists m req,
    App.predict env fs data w
    = (w, {| App.body := App.BError m req None; App.code := 400 |}).
Proof.
  intros V R0. unfold App.predict.
  destruct (App.validate env data) as [r|e|data'] eqn:E.
  - destruct (validate_return _ _ _ E) as [C [m [req B]]].
    exists m, req. destruct r as [b c]. simpl in C, B. subst. reflexivity.
  - exfalso. destruct (validate_throw _ _ _ E) as (f & z & I & G & O).
    rewrite (R0 f z I G) in O. discriminate O.
  - exfalso. destruct (validate_next _ _ _ E) as (A & B & R).
    destruct (A "overs_played") as (vo & xo & Go & Po & Lo & Do); [simpl; auto 10|].
    destruct (A "total_wickets") as (vw & xw & Gw & Pw & Lw & Dw); [simpl; auto 10|].
    unfold App.validate_ranges, App.exceeds, App.item in R.
    rewrite Do, Dw in R. simpl in R.
    rewrite (B "batting_team"), (B "bowling_team") in R
      by (simpl; intuition discriminate).
    destruct V as [(a & b & Ga & Gb & Q)
                  |[(f & v & e & I & G & P)
                   |[(f & v & x & I & G & P & L)
                    |[(v & x & G & P & L)|(v & x & G & P & L)]]]].
    + rewrite Ga, Gb, Q in R.
      destruct (gtb xo (of_Z 20)); try discriminate.
      destruct (gtb xw (of_Z 10)); discriminate.
    + destruct (A f I) as (v' & x' & G' & P' & _). congruence.
    + destruct (A f I) as (v' & x' & G' & P' & L' & _).
      assert (x' = x) by congruence. subst. congruence.
    + assert (xo = x) by congruence. subst. rewrite L in R. discriminate.
    + assert (xw = x) by congruence. subst. rewrite L in R.
      destruct (gtb xo (of_Z 20)); discriminate.
Qed.

(** Eleven wickets. *)
Definition input_eleven_wickets : dict :=
  set input_fractional_wickets "total_wickets" (VInt 11).

Lemma invalid_request_rejected_witness :
  exists m req,
    App.predict sample_env sample_storage input_eleven_wickets initial_world
    = (initial_world, {| App.body := App.BError m req None; App.code := 400 |}).
Proof.
  apply (invalid_request_rejected sample_env sample_storage
                                  input_eleven_wickets initial_world).
  - right; right; right; right.
    exists (VInt 11), (of_Z 11). repeat split; reflexivity.
  - intros f z I G. simpl in I.
    repeat (destruct I as [<-|I];
            [vm_compute in G; first [discriminate G|injection G as <-; reflexivity]|]).
    destruct I.
Defined.

(** The two requests of the end-to-end scenario: eleven wickets, and
    twenty-one overs. *)
Example eleven_wickets_response :
  App.predict sample_env sample_storage input_eleven_wickets initial_world
  = (initial_world, App.bad_request "total_wickets cannot exceed 10").
Proof. vm_compute. reflexivity. Qed.

Example twenty_one_overs_response :
  App.predict sample_env sample_storage
              (set input_fractional_wickets "overs_played" (VInt 21))
              initial_world
  = (initial_world, App.bad_request "overs_played cannot exceed 20 in T20 cricket").
Proof. vm_compute. reflexivity. Qed.

End AppTheory.

(* ================================================================== *)
(** * More on the aggregator *)
(* ================================================================== *)

Module AggregatorFacts.
Import FeatureEngineering FeatureEngineeringTheory.

Definition zsum (l : list Z) : Z := fold_right Z.add 0 l.

(** The raw frame with its [is_wicket] column, row by row. *)
Definition members (f : RawFrame) : list Member :=
  combine (rows f) (map wicket_flag (rows f)).

(** A delivery that [groupby] does not leave out. *)
Definition keyed (d : Delivery.t) : bool :=
  match key_of d with Some _ => true | None => false end.

Definition wicket_fell (d : Delivery.t) : bool :=
  notna_text (Delivery.wicket_kind d).

Definition count_if {A} (p : A -> bool) (l : list A) : Z :=
  Z.of_nat (List.length (filter p l)).

Definition present {A} (c : option A) : bool :=
  match c with Some _ => true | None => false end.

Definition cell_or_zero (c : option Z) : Z :=
  match c with Some z => z | None => 0 end.

Definition one_if_present {A} (c : option A) : Z :=
  match c with Some _ => 1 | None => 0 end.

(** The runs of a delivery, off the bat and extras, without sign. *)
Definition runs_size (d : Delivery.t) : Z :=
  Z.abs (cell_or_zero (Delivery.runs_batter d))
  + Z.abs (cell_or_zero (Delivery.runs_extras d)).

(** Up to 2^53 whole numbers are exact in float64 as in int64. *)
Definition exact_limit : Z := 2 ^ 53.

(** The range in which pandas adds the run columns exactly: the sizes
    of all run cells of the frame add up to less than 2^53, so no int64
    sum wraps around and no float64 sum (the dtype of a column with
    missing cells) is rounded. *)
Definition runs_exact (f : RawFrame) : Prop :=
  zsum (map runs_size (rows f)) < exact_limit.

(** Whatever holds of the [aggregated] frame of a raw frame holds of
    the frame a call builds. *)
Lemma aggregate_features_returns (P : list Aggregated -> Prop)
      (h : Heap) (df : Ref) (f : RawFrame) :
  nth_error h df = Some (ORaw f) ->
  P (aggregated_rows f) ->
  exists out h' aggregated,
    aggregate_features df h = Some (out, h')
    /\ nth_error h' (List.length h) = Some (OAgg aggregated)
    /\ nth_error h' out = Some (OInn (map final_features aggregated))
    /\ P aggregated.
Proof.
  intros H HP.
  destruct (aggregate_features_effect _ _ _ H) as (out & h' & E & A & T & _).
  exists out, h', (aggregated_rows f). auto.
Qed.

Lemma members_flag (l : list Delivery.t) (x : Member) :
  In x (combine l (map wicket_flag l)) -> snd x = wicket_flag (fst x).
Proof.
  induction l as [|d l IH]; simpl; intros I; [contradiction|].
  destruct I as [<-|I]; auto.
Qed.

Lemma aggregated_rows_members (f : RawFrame) (a : Aggregated) :
  In a (aggregated_rows f) ->
  a = aggregate_group (key_of_agg a, members_of (key_of_agg a) (members f))
  /\ members_of (key_of_agg a) (members f) <> [].
Proof.
  unfold aggregated_rows. intros H. apply in_map_iff in H.
  destruct H as [[k xs] [E I]].
  destruct (inv_exact _ _ (groupby_inv _) _ _ I) as [Hx Hn].
  assert (K : key_of_agg a = k).
  { subst a. destruct k as [[m i] b]. reflexivity. }
  rewrite K. unfold members. rewrite <- Hx. auto.
Qed.

Lemma zsum_flags (xs : list Member) :
  (forall x, In x xs -> snd x = wicket_flag (fst x)) ->
  zsum (map snd xs) = count_if wicket_fell (map fst xs).
Proof.
  unfold count_if. induction xs as [|x xs IH]; intros H; [reflexivity|].
  cbn [map zsum fold_right filter]. fold (zsum (map snd xs)).
  rewrite IH by (intros y I; apply H; right; auto).
  rewrite (H x) by (left; auto). unfold wicket_flag, wicket_fell.
  destruct (notna_text (Delivery.wicket_kind (fst x))); cbn [List.length]; lia.
Qed.

Lemma count_if_bounds {A} (p : A -> bool) (l : list A) :
  0 <= count_if p l <= Z.of_nat (List.length l).
Proof.
  unfold count_if. pose proof (filter_length_le p l). lia.
Qed.

Lemma agg_count_count_if {A} (l : list (option A)) :
  agg_count l = count_if present l.
Proof. reflexivity. Qed.

Lemma agg_sum_zsum (l : list (option Z)) : agg_sum l = zsum (map cell_or_zero l).
Proof.
  induction l as [|c l IH]; simpl; auto. rewrite <- IH. destruct c; simpl; lia.
Qed.

Lemma zsum_app (l1 l2 : list Z) : zsum (l1 ++ l2) = zsum l1 + zsum l2.
Proof. induction l1 as [|x l1 IH]; simpl; [reflexivity|]. rewrite IH. lia. Qed.

Lemma zsum_plus {A} (u v : A -> Z) (l : list A) :
  zsum (map (fun x => u x + v x) l) = zsum (map u l) + zsum (map v l).
Proof. induction l as [|x l IH]; simpl; [reflexivity|]. rewrite IH. lia. Qed.

(** ** Sums inside the exact range *)

Lemma runs_size_nonneg (d : Delivery.t) : 0 <= runs_size d.
Proof. unfold runs_size. lia. Qed.

Lemma zsum_runs_size_nonneg (l : list Delivery.t) : 0 <= zsum (map runs_size l).
Proof.
  induction l as [|d l IH]; simpl; [lia|].
  pose proof (runs_size_nonneg d). lia.
Qed.

Lemma zsum_runs_size_filter (p : Delivery.t -> bool) (l : list Delivery.t) :
  zsum (map runs_size (filter p l)) <= zsum (map runs_size l).
Proof.
  induction l as [|d l IH]; simpl; [lia|].
  pose proof (runs_size_nonneg d).
  destruct (p d); simpl; lia.
Qed.

Lemma runs_within_size (l : list Delivery.t) :
  Z.abs (zsum (map cell_or_zero (map Delivery.runs_batter l)))
  + Z.abs (zsum (map cell_or_zero (map Delivery.runs_extras l)))
  <= zsum (map runs_size l).
Proof.
  induction l as [|d l IH]; simpl; [lia|]. unfold runs_size at 1. lia.
Qed.

(** In a frame in the exact range every sum over some of its rows is
    in that range, and so is the sum of the two. *)
Lemma runs_exact_part (f : RawFrame) (p : Delivery.t -> bool) :
  runs_exact f ->
  let l := filter p (rows f) in
  Z.abs (zsum (map cell_or_zero (map Delivery.runs_batter l))) < exact_limit
  /\ Z.abs (zsum (map cell_or_zero (map Delivery.runs_extras l))) < exact_limit
  /\ Z.abs (zsum (map cell_or_zero (map Delivery.runs_batter l))
            + zsum (map cell_or_zero (map Delivery.runs_extras l))) < exact_limit.
Proof.
  intros R l. unfold runs_exact in R.
  pose proof (runs_within_size l) as W.
  pose proof (zsum_runs_size_filter p (rows f)) as F. fold l in F.
  repeat split; lia.
Qed.

(** X1.  In a frame whose run cells are in the exact range, every row
    of the aggregated frame is computed from the deliveries of its own
    group (the deliveries of the frame with the row's key, in frame
    order): each run column is the sum of the present cells and stays
    in the exact range, total_runs is the two sums added, a wicket is
    counted for each delivery with a wicket_kind, a ball for each
    delivery with a ball number, overs_played is balls_faced / 6, and
    each text column holds the first value seen in the group.  Neither
    count exceeds the size of the group. *)
Theorem aggregate_row_of_group (h : Heap) (df : Ref) (f : RawFrame) :
  nth_error h df = Some (ORaw f) ->
  runs_exact f ->
  exists out h' aggregated,
    aggregate_features df h = Some (out, h')
    /\ nth_error h' (List.length h) = Some (OAgg aggregated)
    /\ nth_error h' out = Some (OInn (map final_features aggregated))
    /\ forall a, In a aggregated ->
         let g := group_of f (key_of_agg a) in
         g <> []
         /\ runs_off_bat_total a
            = zsum (map cell_or_zero (map Delivery.runs_batter g))
         /\ a_extras_total a
            = zsum (map cell_or_zero (map Delivery.runs_extras g))
         /\ a_total_runs a = runs_off_bat_total a + a_extras_total a
         /\ Z.abs (runs_off_bat_total a) < exact_limit
         /\ Z.abs (a_extras_total a) < exact_limit
         /\ Z.abs (a_total_runs a) < exact_limit
         /\ a_total_wickets a = count_if wicket_fell g
         /\ a_balls_faced a = count_if present (map Delivery.ball g)
         /\ a_overs_played a = PyFloat.div (of_Z (a_balls_faced a)) (of_Z 6)
         /\ 0 <= a_total_wickets a <= Z.of_nat (List.length g)
         /\ 0 <= a_balls_faced a <= Z.of_nat (List.length g)
         /\ first_seen (map Delivery.season g) (a_season a)
         /\ first_seen (map Delivery.venue g) (a_venue a)
         /\ first_seen (map Delivery.city g) (a_city a)
         /\ first_seen (map Delivery.bowling_team g) (a_bowling_team a).
Proof.
  intros H R. apply (aggregate_features_returns _ _ _ _ H).
  intros a I g.
  destruct (aggregated_rows_members _ _ I) as [Ea Ne].
  set (k := key_of_agg a) in *. set (xs := members_of k (members f)) in *.
  assert (G : map fst xs = g) by apply members_of_frame.
  assert (Fl : forall x, In x xs -> snd x = wicket_flag (fst x)).
  { intros x Ix. apply (members_flag (rows f)).
    unfold xs, members_of in Ix. apply filter_In in Ix. apply Ix. }
  assert (W : a_total_wickets a = count_if wicket_fell g).
  { rewrite Ea, <- G. unfold k. destruct (key_of_agg a) as [[m i] b]. cbn.
    apply (zsum_flags _ Fl). }
  assert (B : a_balls_faced a = count_if present (map Delivery.ball g)).
  { rewrite Ea, <- G. unfold k. destruct (key_of_agg a) as [[m i] b]. reflexivity. }
  assert (Sb : runs_off_bat_total a
               = zsum (map cell_or_zero (map Delivery.runs_batter g))).
  { rewrite <- agg_sum_zsum, Ea, <- G. unfold k.
    destruct (key_of_agg a) as [[m i] b]. reflexivity. }
  assert (Se : a_extras_total a
               = zsum (map cell_or_zero (map Delivery.runs_extras g))).
  { rewrite <- agg_sum_zsum, Ea, <- G. unfold k.
    destruct (key_of_agg a) as [[m i] b]. reflexivity. }
  assert (St : a_total_runs a = runs_off_bat_total a + a_extras_total a).
  { rewrite Ea. unfold k. destruct (key_of_agg a) as [[m i] b]. reflexivity. }
  assert (Rg : Z.abs (zsum (map cell_or_zero (map Delivery.runs_batter g)))
               < exact_limit
               /\ Z.abs (zsum (map cell_or_zero (map Delivery.runs_extras g)))
                  < exact_limit
               /\ Z.abs (zsum (map cell_or_zero (map Delivery.runs_batter g))
                         + zsum (map cell_or_zero (map Delivery.runs_extras g)))
                  < exact_limit).
  { apply (runs_exact_part f _ R). }
  destruct Rg as (Rb & Re & Rt).
  split.
  { rewrite <- G. intros C. apply map_eq_nil in C. auto. }
  split; [exact Sb|]. split; [exact Se|]. split; [exact St|].
  split; [rewrite Sb; exact Rb|]. split; [rewrite Se; exact Re|].
  split; [rewrite St, Sb, Se; exact Rt|].
  split; [exact W|]. split; [exact B|].
  split. { rewrite Ea. unfold k. destruct (key_of_agg a) as [[m i] b]. reflexivity. }
  split. { rewrite W. apply count_if_bounds. }
  split. { rewrite B.
           pose proof (count_if_bounds (@present Z) (map Delivery.ball g)) as Bd.
           rewrite length_map in Bd. exact Bd. }
  assert (Fs : forall (col : Delivery.t -> option string),
             first_seen (map col g) (agg_first (map col (map fst xs)))).
  { intros col. rewrite G. apply agg_first_seen. }
  repeat split; rewrite Ea; unfold k;
    destruct (key_of_agg a) as [[m i] b]; apply Fs.
Qed.

Lemma aggregate_row_of_group_witness :
  exists out h' aggregated,
    aggregate_features 0%nat sample_heap = Some (out, h')
    /\ nth_error h' (List.length sample_heap) = Some (OAgg aggregated)
    /\ nth_error h' out = Some (OInn (map final_features aggregated))
    /\ forall a, In a aggregated ->
         let g := group_of sample_frame (key_of_agg a) in
         g <> []
         /\ runs_off_bat_total a
            = zsum (map cell_or_zero (map Delivery.runs_batter g))
         /\ a_extras_total a
            = zsum (map cell_or_zero (map Delivery.runs_extras g))
         /\ a_total_runs a = runs_off_bat_total a + a_extras_total a
         /\ Z.abs (runs_off_bat_total a) < exact_limit
         /\ Z.abs (a_extras_total a) < exact_limit
         /\ Z.abs (a_total_runs a) < exact_limit
         /\ a_total_wickets a = count_if wicket_fell g
         /\ a_balls_faced a = count_if present (map Delivery.ball g)
         /\ a_overs_played a = PyFloat.div (of_Z (a_balls_faced a)) (of_Z 6)
         /\ 0 <= a_total_wickets a <= Z.of_nat (List.length g)
         /\ 0 <= a_balls_faced a <= Z.of_nat (List.length g)
         /\ first_seen (map Delivery.season g) (a_season a)
         /\ first_seen (map Delivery.venue g) (a_venue a)
         /\ first_seen (map Delivery.city g) (a_city a)
         /\ first_seen (map Delivery.bowling_team g) (a_bowling_team a).
Proof.
  apply (aggregate_row_of_group sample_heap 0%nat sample_frame).
  - reflexivity.
  - vm_compute. reflexivity.
Defined.

Lemma key_eq_dec (a b : Key) : {a = b} + {a <> b}.
Proof. repeat decide equality. Qed.

Lemma key_of_aggregate_group (g : Key * list Member) :
  key_of_agg (aggregate_group g) = fst g.
Proof. destruct g as [[[m i] b] xs]. reflexivity. Qed.

Lemma aggregated_keys (f : RawFrame) :
  map key_of_agg (aggregated_rows f) = keys (groupby (members f)).
Proof.
  unfold aggregated_rows, keys, members. rewrite map_map.
  apply map_ext. apply key_of_aggregate_group.
Qed.

Lemma members_of_nonempty (k : Key) (f : RawFrame) :
  members_of k (members f) <> [] <->
  exists d, In d (rows f) /\ key_of d = Some k.
Proof.
  pose proof (members_of_frame k (rows f)) as M. fold (members f) in M.
  split.
  - intros N. destruct (members_of k (members f)) as [|x xs] eqn:E; [congruence|].
    assert (I : In (fst x) (group_of f k)).
    { unfold group_of. rewrite <- M. left. reflexivity. }
    apply group_of_In in I. eauto.
  - intros [d [I K]] E. rewrite E in M. simpl in M.
    assert (J : In d (group_of f k)).
    { unfold group_of. apply filter_In. split; auto. rewrite K.
      apply key_eqb_eq. reflexivity. }
    unfold group_of in J. rewrite <- M in J. destruct J.
Qed.

(** X2.  The aggregated frame has one row per key: the keys
    (match_id, innings, batting_team) of its rows are strictly
    ascending, so no key occurs twice, and a key has a row exactly when
    some delivery of the frame carries it; deliveries with a missing
    key cell contribute no row. *)
Theorem aggregate_one_row_per_key (h : Heap) (df : Ref) (f : RawFrame) :
  nth_error h df = Some (ORaw f) ->
  exists out h' aggregated,
    aggregate_features df h = Some (out, h')
    /\ nth_error h' (List.length h) = Some (OAgg aggregated)
    /\ nth_error h' out = Some (OInn (map final_features aggregated))
    /\ StronglySorted key_lt (map key_of_agg aggregated)
    /\ NoDup (map key_of_agg aggregated)
    /\ (forall k, In k (map key_of_agg aggregated)
                  <-> exists d, In d (rows f) /\ key_of d = Some k)
    /\ (aggregated = [] <-> forall d, In d (rows f) -> key_of d = None).
Proof.
  intros H. apply (aggregate_features_returns _ _ _ _ H).
  rewrite aggregated_keys.
  destruct (groupby_inv (members f)) as [S Ex Co].
  assert (K : forall k, In k (keys (groupby (members f)))
                        <-> exists d, In d (rows f) /\ key_of d = Some k).
  { intros k. rewrite <- members_of_nonempty. split.
    - intros I. unfold keys in I. apply in_map_iff in I.
      destruct I as [[k' xs] [E I]]. simpl in E. subst k'.
      destruct (Ex _ _ I) as [-> N]. exact N.
    - intros N. destruct (in_dec key_eq_dec k (keys (groupby (members f)))); auto.
      exfalso. apply N. apply Co. auto. }
  split; [exact S|]. split; [|split; [exact K|]].
  - clear - S. induction S as [|k ks S IH F]; constructor; auto.
    intros I. rewrite Forall_forall in F. apply (key_lt_neq k k); auto.
  - rewrite <- aggregated_keys in K. split.
    + intros E d I. destruct (key_of d) as [k|] eqn:Kd; auto.
      exfalso. assert (J : In k (map key_of_agg (aggregated_rows f))).
      { apply K. eauto. }
      rewrite E in J. destruct J.
    + intros N. destruct (aggregated_rows f) as [|a l] eqn:E; auto.
      exfalso. destruct (proj1 (K (key_of_agg a))) as [d [I Kd]].
      { left. reflexivity. }
      rewrite (N d I) in Kd. discriminate.
Qed.

Lemma aggregate_one_row_per_key_witness :
  exists out h' aggregated,
    aggregate_features 0%nat sample_heap = Some (out, h')
    /\ nth_error h' (List.length sample_heap) = Some (OAgg aggregated)
    /\ nth_error h' out = Some (OInn (map final_features aggregated))
    /\ StronglySorted key_lt (map key_of_agg aggregated)
    /\ NoDup (map key_of_agg aggregated)
    /\ (forall k, In k (map key_of_agg aggregated)
                  <-> exists d, In d (rows sample_frame) /\ key_of d = Some k)
    /\ (aggregated = [] <-> forall d, In d (rows sample_frame) -> key_of d = None).
Proof.
  apply (aggregate_one_row_per_key sample_heap 0%nat sample_frame). reflexivity.
Defined.

(** ** Nothing is lost between the groups *)

(** The total of a per-delivery weight over all groups. *)
Definition group_total (wt : Member -> Z) (gs : list (Key * list Member)) : Z :=
  zsum (map (fun g => zsum (map wt (snd g))) gs).

Lemma group_total_add (wt : Member -> Z) (k : Key) (x : Member) gs :
  group_total wt (add_to_groups k x gs) = group_total wt gs + wt x.
Proof.
  unfold group_total. induction gs as [|[k' xs] rest IH]; simpl.
  - lia.
  - destruct (key_compare k k'); simpl.
    + rewrite map_app, zsum_app. simpl. lia.
    + lia.
    + rewrite IH. lia.
Qed.

Lemma group_total_fold (wt : Member -> Z) (l : list Member) : forall gs,
  group_total wt (fold_left groupby_step l gs)
  = group_total wt gs + zsum (map wt (filter (fun x => keyed (fst x)) l)).
Proof.
  induction l as [|x l IH]; intros gs; simpl; [lia|].
  rewrite IH. unfold groupby_step, keyed.
  destruct (key_of (fst x)); simpl; [rewrite group_total_add|]; lia.
Qed.

Lemma group_total_groupby (wt : Member -> Z) (l : list Member) :
  group_total wt (groupby l) = zsum (map wt (filter (fun x => keyed (fst x)) l)).
Proof. unfold groupby. rewrite group_total_fold. reflexivity. Qed.

Lemma keyed_members (f : RawFrame) :
  map fst (filter (fun x => keyed (fst x)) (members f)) = filter keyed (rows f).
Proof.
  unfold members. induction (rows f) as [|d l IH]; simpl; auto.
  destruct (keyed d); simpl; rewrite IH; reflexivity.
Qed.

Lemma agg_count_zsum {A} (l : list (option A)) :
  agg_count l = zsum (map one_if_present l).
Proof.
  unfold agg_count. induction l as [|c l IH]; [reflexivity|].
  cbn [filter map zsum fold_right]. fold (zsum (map one_if_present l)).
  rewrite <- IH. destruct c; cbn [List.length one_if_present]; lia.
Qed.

Lemma column_total (col : Aggregated -> Z) (wt : Member -> Z) (f : RawFrame) :
  (forall g, col (aggregate_group g) = zsum (map wt (snd g))) ->
  zsum (map col (aggregated_rows f))
  = zsum (map wt (filter (fun x => keyed (fst x)) (members f))).
Proof.
  intros C. rewrite <- group_total_groupby. unfold group_total, aggregated_rows.
  fold (members f). rewrite map_map. f_equal. apply map_ext. exact C.
Qed.

(** X3.  In a frame whose run cells are in the exact range no
    delivery is lost or counted twice by the grouping: over all rows of
    the aggregated frame, balls_faced adds up to the number of
    deliveries with a complete key and a ball number, the run columns
    add up to the runs of the deliveries with a complete key, and
    total_wickets adds up to their wickets.  The totals of the run
    columns are in the exact range themselves. *)
Theorem aggregate_conserves_totals (h : Heap) (df : Ref) (f : RawFrame) :
  nth_error h df = Some (ORaw f) ->
  runs_exact f ->
  exists out h' aggregated,
    aggregate_features df h = Some (out, h')
    /\ nth_error h' (List.length h) = Some (OAgg aggregated)
    /\ nth_error h' out = Some (OInn (map final_features aggregated))
    /\ zsum (map a_balls_faced aggregated)
       = count_if present (map Delivery.ball (filter keyed (rows f)))
    /\ zsum (map runs_off_bat_total aggregated)
       = zsum (map cell_or_zero (map Delivery.runs_batter (filter keyed (rows f))))
    /\ zsum (map a_extras_total aggregated)
       = zsum (map cell_or_zero (map Delivery.runs_extras (filter keyed (rows f))))
    /\ zsum (map a_total_runs aggregated)
       = zsum (map runs_off_bat_total aggregated)
         + zsum (map a_extras_total aggregated)
    /\ zsum (map a_total_wickets aggregated)
       = count_if wicket_fell (filter keyed (rows f))
    /\ Z.abs (zsum (map runs_off_bat_total aggregated)) < exact_limit
    /\ Z.abs (zsum (map a_extras_total aggregated)) < exact_limit
    /\ Z.abs (zsum (map a_total_runs aggregated)) < exact_limit.
Proof.
  intros H Rx. apply (aggregate_features_returns _ _ _ _ H).
  pose proof (keyed_members f) as KM.
  assert (B : zsum (map a_balls_faced (aggregated_rows f))
              = count_if present (map Delivery.ball (filter keyed (rows f)))).
  { rewrite <- agg_count_count_if.
    rewrite (column_total _ (fun x => one_if_present (Delivery.ball (fst x)))).
    - rewrite <- KM, agg_count_zsum, !map_map. reflexivity.
    - intros [[[m i] b] xs]. cbn. rewrite agg_count_zsum, !map_map. reflexivity. }
  assert (R : zsum (map runs_off_bat_total (aggregated_rows f))
              = zsum (map cell_or_zero
                          (map Delivery.runs_batter (filter keyed (rows f))))).
  { rewrite (column_total _ (fun x => cell_or_zero (Delivery.runs_batter (fst x)))).
    - rewrite <- KM, !map_map. reflexivity.
    - intros [[[m i] b] xs]. cbn. rewrite agg_sum_zsum, !map_map. reflexivity. }
  assert (E : zsum (map a_extras_total (aggregated_rows f))
              = zsum (map cell_or_zero
                          (map Delivery.runs_extras (filter keyed (rows f))))).
  { rewrite (column_total _ (fun x => cell_or_zero (Delivery.runs_extras (fst x)))).
    - rewrite <- KM, !map_map. reflexivity.
    - intros [[[m i] b] xs]. cbn. rewrite agg_sum_zsum, !map_map. reflexivity. }
  assert (T : zsum (map a_total_runs (aggregated_rows f))
              = zsum (map runs_off_bat_total (aggregated_rows f))
                + zsum (map a_extras_total (aggregated_rows f))).
  { rewrite <- zsum_plus. f_equal. apply map_ext_in.
    intros a I. unfold aggregated_rows in I. apply in_map_iff in I.
    destruct I as [[[[m i] b] xs] [<- _]]. reflexivity. }
  destruct (runs_exact_part f keyed Rx) as (Rb & Re & Rt).
  split; [exact B|]. split; [exact R|]. split; [exact E|]. split; [exact T|].
  split.
  { rewrite (column_total _ snd).
    + rewrite <- KM. apply zsum_flags. intros x I.
      apply filter_In in I. apply (members_flag (rows f)). apply I.
    + intros [[[m i] b] xs]. reflexivity. }
  rewrite T, R, E. auto.
Qed.

Lemma aggregate_conserves_totals_witness :
  exists out h' aggregated,
    aggregate_features 0%nat sample_heap = Some (out, h')
    /\ nth_error h' (List.length sample_heap) = Some (OAgg aggregated)
    /\ nth_error h' out = Some (OInn (map final_features aggregated))
    /\ zsum (map a_balls_faced aggregated)
       = count_if present (map Delivery.ball (filter keyed (rows sample_frame)))
    /\ zsum (map runs_off_bat_total aggregated)
       = zsum (map cell_or_zero
                   (map Delivery.runs_batter (filter keyed (rows sample_frame))))
    /\ zsum (map a_extras_total aggregated)
       = zsum (map cell_or_zero
                   (map Delivery.runs_extras (filter keyed (rows sample_frame))))
    /\ zsum (map a_total_runs aggregated)
       = zsum (map runs_off_bat_total aggregated)
         + zsum (map a_extras_total aggregated)
    /\ zsum (map a_total_wickets aggregated)
       = count_if wicket_fell (filter keyed (rows sample_frame))
    /\ Z.abs (zsum (map runs_off_bat_total aggregated)) < exact_limit
    /\ Z.abs (zsum (map a_extras_total aggregated)) < exact_limit
    /\ Z.abs (zsum (map a_total_runs aggregated)) < exact_limit.
Proof.
  apply (aggregate_conserves_totals sample_heap 0%nat sample_frame).
  - reflexivity.
  - vm_compute. reflexivity.
Defined.

(** ** Calling the aggregator again *)

Lemma aggregated_rows_set_is_wicket (f : RawFrame) :
  aggregated_rows (set_is_wicket f) = aggregated_rows f.
Proof. reflexivity. Qed.

(** X4.  A second call of [aggregate_features] on the same frame
    returns a table with the same rows as the first call and leaves the
    caller's frame as the first call left it: the [is_wicket] column is
    overwritten with the same values. *)
Theorem aggregate_features_again (h : Heap) (df : Ref) (f : RawFrame) :
  nth_error h df = Some (ORaw f) ->
  exists out1 h1 out2 h2 table,
    aggregate_features df h = Some (out1, h1)
    /\ aggregate_features df h1 = Some (out2, h2)
    /\ nth_error h1 out1 = Some (OInn table)
    /\ nth_error h2 out2 = Some (OInn table)
    /\ out2 <> out1
    /\ nth_error h2 out1 = Some (OInn table)
    /\ nth_error h2 df = nth_error h1 df.
Proof.
  intros H.
  destruct (aggregate_features_effect _ _ _ H) as (out1 & h1 & E1 & A1 & T1 & D1 & K1).
  destruct (aggregate_features_effect _ _ _ D1) as (out2 & h2 & E2 & A2 & T2 & D2 & K2).
  exists out1, h1, out2, h2, (map final_features (aggregated_rows f)).
  rewrite aggregated_rows_set_is_wicket in T2.
  assert (B1 : (out1 < List.length h1)%nat).
  { apply nth_error_Some. congruence. }
  assert (N1 : out1 <> df).
  { intros ->. rewrite T1 in D1. discriminate. }
  assert (N2 : out2 <> out1).
  { intros ->.
    pose proof (aggregate_features_run _ _ _ D1) as R. rewrite E2 in R.
    injection R as R _. lia. }
  repeat split; auto.
  - rewrite K2; auto.
  - rewrite D2, D1. reflexivity.
Qed.

Lemma aggregate_features_again_witness :
  exists out1 h1 out2 h2 table,
    aggregate_features 0%nat sample_heap = Some (out1, h1)
    /\ aggregate_features 0%nat h1 = Some (out2, h2)
    /\ nth_error h1 out1 = Some (OInn table)
    /\ nth_error h2 out2 = Some (OInn table)
    /\ out2 <> out1
    /\ nth_error h2 out1 = Some (OInn table)
    /\ nth_error h2 0%nat = nth_error h1 0%nat.
Proof.
  apply (aggregate_features_again sample_heap 0%nat sample_frame). reflexivity.
Defined.

End AggregatorFacts.

(* ================================================================== *)
(** * More on the cleaner and the pipeline *)
(* ================================================================== *)

Module CleanerFacts.
Import FeatureEngineering FeatureEngineeringTheory.

(** Whatever holds of [clean_rows] of a table holds of the table a call
    of [clean_data] returns. *)
Lemma clean_data_returns (P : list Innings.t -> Prop)
      (h : Heap) (df : Ref) (d : list Innings.t) :
  nth_error h df = Some (OInn d) ->
  P (clean_rows d) ->
  exists out h' table,
    clean_data df h = Some (out, h')
    /\ nth_error h' out = Some (OInn table)
    /\ P table.
Proof.
  intros H HP.
  destruct (clean_data_effect _ _ _ H) as (out & h' & E & T & _).
  exists out, h', (clean_rows d). auto.
Qed.

(** A table with every kind of row the cleaner treats differently. *)
Definition row_of (m : Z) (venue city : option string) (overs rate extras target : float)
  : Innings.t :=
  {| Innings.match_id := of_Z m;
     Innings.innings := of_Z 1;
     Innings.season := Some "2023";
     Innings.venue := venue;
     Innings.city := city;
     Innings.batting_team := Some "MI";
     Innings.bowling_team := Some "CSK";
     Innings.total_runs := of_Z 150;
     Innings.total_wickets := of_Z 4;
     Innings.balls_faced := of_Z 120;
     Innings.overs_played := overs;
     Innings.run_rate := rate;
     Innings.extras_total := extras;
     Innings.target := target |}.

Definition dirty_table : list Innings.t :=
  [ row_of 1 (Some "Wankhede") None (Fin (20 # 1)) (Fin (15 # 2)) NaN (of_Z 1);
    row_of 2 None (Some "Pune") (Fin (20 # 1)) (Fin (15 # 2)) (of_Z 3) (of_Z 0);
    row_of 3 (Some "Eden") (Some "Kolkata") (Fin 0) (Fin 0) (of_Z 3) (of_Z 0);
    row_of 4 (Some "Eden") (Some "Kolkata") (Fin (1 # 6)) (Fin (60 # 1)) (of_Z 0) (of_Z 0);
    row_of 1 (Some "Wankhede") (Some "Unknown") (Fin (20 # 1)) (Fin (15 # 2)) (of_Z 0)
           (of_Z 1);
    row_of 5 (Some "Eden") (Some "Kolkata") (Fin (20 # 1)) NaN (of_Z 0) NaN ].

Definition dirty_heap : Heap := [OInn dirty_table].

(** X5.  Every row of the table [clean_data] returns has batting_team,
    bowling_team, venue and city present, target and extras_total not
    missing, overs_played greater than 0 and run_rate at most 50 (so
    neither is NaN, and run_rate is not +infinity). *)
Theorem clean_data_rows_valid (h : Heap) (df : Ref) (d : list Innings.t) :
  nth_error h df = Some (OInn d) ->
  exists out h' table,
    clean_data df h = Some (out, h')
    /\ nth_error h' out = Some (OInn table)
    /\ forall r, In r table ->
         Innings.batting_team r <> None
         /\ Innings.bowling_team r <> None
         /\ Innings.venue r <> None
         /\ Innings.city r <> None
         /\ Innings.target r <> NaN
         /\ Innings.extras_total r <> NaN
         /\ gtb (Innings.overs_played r) (of_Z 0) = true
         /\ leb (Innings.run_rate r) (of_Z 50) = true
         /\ Innings.overs_played r <> NaN
         /\ Innings.run_rate r <> NaN
         /\ Innings.run_rate r <> PInf.
Proof.
  intros H. apply (clean_data_returns _ _ _ _ H).
  intros r I. destruct (clean_rows_In _ _ I) as (C & O & R & F).
  unfold dropna_critical in C. unfold keep_overs in O. unfold keep_run_rate in R.
  apply andb_true_iff in C. destruct C as [C Ct].
  apply andb_true_iff in C. destruct C as [C Cv].
  apply andb_true_iff in C. destruct C as [Cb Cw].
  pose proof (f_equal Innings.city F) as Fc.
  pose proof (f_equal Innings.extras_total F) as Fe.
  cbn in Fc, Fe.
  split. { destruct (Innings.batting_team r); [discriminate|discriminate Cb]. }
  split. { destruct (Innings.bowling_team r); [discriminate|discriminate Cw]. }
  split. { destruct (Innings.venue r); [discriminate|discriminate Cv]. }
  split. { destruct (Innings.city r); [discriminate|discriminate Fc]. }
  split. { destruct (Innings.target r); first [discriminate|discriminate Ct]. }
  split. { destruct (Innings.extras_total r); first [discriminate|discriminate Fe]. }
  split; [exact O|]. split; [exact R|].
  split. { destruct (Innings.overs_played r); first [discriminate|discriminate O]. }
  split; destruct (Innings.run_rate r); first [discriminate|discriminate R].
Qed.

Lemma clean_data_rows_valid_witness :
  exists out h' table,
    clean_data 0%nat dirty_heap = Some (out, h')
    /\ nth_error h' out = Some (OInn table)
    /\ forall r, In r table ->
         Innings.batting_team r <> None
         /\ Innings.bowling_team r <> None
         /\ Innings.venue r <> None
         /\ Innings.city r <> None
         /\ Innings.target r <> NaN
         /\ Innings.extras_total r <> NaN
         /\ gtb (Innings.overs_played r) (of_Z 0) = true
         /\ leb (Innings.run_rate r) (of_Z 50) = true
         /\ Innings.overs_played r <> NaN
         /\ Innings.run_rate r <> NaN
         /\ Innings.run_rate r <> PInf.
Proof.
  apply (clean_data_rows_valid dirty_heap 0%nat dirty_table). reflexivity.
Defined.

(** Of the six rows of the sample only the first survives: the second
    has no venue, the third no overs, the fourth a run rate of 60, the
    fifth repeats the first once that one is filled, the sixth has no
    target. *)
Example clean_dirty_table :
  clean_rows dirty_table
  = [ row_of 1 (Some "Wankhede") (Some "Unknown") (Fin (20 # 1)) (Fin (15 # 2))
             (of_Z 0) (of_Z 1) ].
Proof. vm_compute. reflexivity. Qed.

(** ** Where the returned rows come from *)

(** [l1] is [l2] with some rows left out, order kept. *)
Inductive subseq {A : Type} : list A -> list A -> Prop :=
| subseq_nil : subseq [] []
| subseq_keep : forall x l1 l2, subseq l1 l2 -> subseq (x :: l1) (x :: l2)
| subseq_skip : forall x l1 l2, subseq l1 l2 -> subseq l1 (x :: l2).

Lemma subseq_refl {A} (l : list A) : subseq l l.
Proof. induction l; constructor; auto. Qed.

Lemma subseq_trans {A} (l1 l2 l3 : list A) :
  subseq l1 l2 -> subseq l2 l3 -> subseq l1 l3.
Proof.
  intros H12 H23. revert l1 H12.
  induction H23 as [|x l2 l3 H IH|x l2 l3 H IH]; intros l1 H12.
  - exact H12.
  - inversion H12; subst; [apply subseq_keep|apply subseq_skip]; auto.
  - apply subseq_skip. auto.
Qed.

Lemma subseq_filter {A} (p : A -> bool) (l : list A) : subseq (filter p l) l.
Proof.
  induction l as [|x l IH]; simpl; [constructor|].
  destruct (p x); constructor; auto.
Qed.

Lemma subseq_map {A B} (f : A -> B) (l1 l2 : list A) :
  subseq l1 l2 -> subseq (map f l1) (map f l2).
Proof. induction 1; simpl; constructor; auto. Qed.

Lemma subseq_length {A} (l1 l2 : list A) :
  subseq l1 l2 -> (List.length l1 <= List.length l2)%nat.
Proof. induction 1; simpl; lia. Qed.

Lemma subseq_drop_duplicates seen l : subseq (drop_duplicates_from seen l) l.
Proof.
  revert seen. induction l as [|x l IH]; intros seen; simpl; [constructor|].
  destruct (existsb (Innings.same x) seen); constructor; auto.
Qed.

(** A subsequence of a mapped list is the map of a subsequence. *)
Lemma subseq_of_map {A B} (f : A -> B) (l : list A) (m : list B) :
  subseq m (map f l) -> exists l', subseq l' l /\ m = map f l'.
Proof.
  revert m. induction l as [|x l IH]; simpl; intros m H.
  - inversion H; subst. exists []. split; constructor.
  - inversion H; subst.
    + destruct (IH _ H2) as (l' & S & E). exists (x :: l'). split.
      * apply subseq_keep; auto.
      * simpl. congruence.
    + destruct (IH _ H2) as (l' & S & E). exists l'.
      split; [apply subseq_skip|]; auto.
Qed.

Lemma subseq_In {A} (l1 l2 : list A) (x : A) : subseq l1 l2 -> In x l1 -> In x l2.
Proof.
  induction 1; simpl; auto. intros [E|I]; auto.
Qed.

(** [r] is [r0] with a missing city set to "Unknown" and a missing
    extras_total set to 0; nothing else differs. *)
Definition filled_from (r0 r : Innings.t) : Prop :=
  Innings.match_id r = Innings.match_id r0
  /\ Innings.innings r = Innings.innings r0
  /\ Innings.season r = Innings.season r0
  /\ Innings.venue r = Innings.venue r0
  /\ Innings.batting_team r = Innings.batting_team r0
  /\ Innings.bowling_team r = Innings.bowling_team r0
  /\ Innings.total_runs r = Innings.total_runs r0
  /\ Innings.total_wickets r = Innings.total_wickets r0
  /\ Innings.balls_faced r = Innings.balls_faced r0
  /\ Innings.overs_played r = Innings.overs_played r0
  /\ Innings.run_rate r = Innings.run_rate r0
  /\ Innings.target r = Innings.target r0
  /\ Innings.city r = match Innings.city r0 with
                      | Some c => Some c
                      | None => Some "Unknown"
                      end
  /\ Innings.extras_total r = match Innings.extras_total r0 with
                              | NaN => of_Z 0
                              | x => x
                              end.

Lemma fill_filled_from (r0 : Innings.t) : filled_from r0 (fill r0).
Proof.
  unfold filled_from, fill. cbn.
  repeat split. destruct (Innings.extras_total r0); reflexivity.
Qed.

(** The rows of the input that survive the three filters. *)
Definition passes (r : Innings.t) : bool :=
  dropna_critical r && (keep_overs r && keep_run_rate r).

Lemma clean_rows_passes (d : list Innings.t) :
  clean_rows d = drop_duplicates (map fill (filter passes d)).
Proof.
  unfold clean_rows. do 2 f_equal.
  induction d as [|r d IH]; [reflexivity|].
  cbn [filter]. unfold passes at 1.
  destruct (dropna_critical r); cbn [filter andb]; [|exact IH].
  destruct (keep_overs r); cbn [filter andb]; [|exact IH].
  destruct (keep_run_rate r); [f_equal|]; exact IH.
Qed.

(** X6.  [clean_data] only selects and fills: the returned table is
    obtained from a subsequence of the input rows (same order), each of
    which has batting_team, bowling_team, venue and target present,
    overs_played > 0 and run_rate <= 50, by setting a missing city to
    "Unknown" and a missing extras_total to 0; no other cell changes
    and the table never has more rows than the input. *)
Theorem clean_data_selects_and_fills (h : Heap) (df : Ref) (d : list Innings.t) :
  nth_error h df = Some (OInn d) ->
  exists out h' table,
    clean_data df h = Some (out, h')
    /\ nth_error h' out = Some (OInn table)
    /\ (List.length table <= List.length d)%nat
    /\ exists kept,
         subseq kept d
         /\ Forall2 filled_from kept table
         /\ forall r0, In r0 kept -> passes r0 = true.
Proof.
  intros H. apply (clean_data_returns _ _ _ _ H).
  rewrite clean_rows_passes.
  assert (S : subseq (drop_duplicates (map fill (filter passes d)))
                     (map fill (filter passes d))).
  { apply subseq_drop_duplicates. }
  split.
  - apply subseq_length in S. rewrite length_map in S.
    pose proof (filter_length_le passes d). lia.
  - destruct (subseq_of_map _ _ _ S) as (kept & Sk & E).
    exists kept. split; [|split].
    + eapply subseq_trans; [exact Sk|apply subseq_filter].
    + rewrite E. clear. induction kept; simpl; constructor; auto.
      apply fill_filled_from.
    + intros r0 I. apply (subseq_In _ _ _ Sk) in I. apply filter_In in I. apply I.
Qed.

Lemma clean_data_selects_and_fills_witness :
  exists out h' table,
    clean_data 0%nat dirty_heap = Some (out, h')
    /\ nth_error h' out = Some (OInn table)
    /\ (List.length table <= List.length dirty_table)%nat
    /\ exists kept,
         subseq kept dirty_table
         /\ Forall2 filled_from kept table
         /\ forall r0, In r0 kept -> passes r0 = true.
Proof.
  apply (clean_data_selects_and_fills dirty_heap 0%nat dirty_table). reflexivity.
Defined.

(** ** Duplicates *)

Lemma distinct_from_nth seen l :
  distinct_from seen l ->
  forall j r2, nth_error l j = Some r2 ->
    existsb (Innings.same r2) seen = false
    /\ forall i r1, (i < j)%nat -> nth_error l i = Some r1 ->
                    Innings.same r2 r1 = false.
Proof.
  revert seen. induction l as [|x l IH]; intros seen D j r2 N.
  - destruct j; discriminate.
  - destruct D as [E D]. destruct j as [|j]; simpl in N.
    + injection N as <-. split; auto. intros i r1 L. lia.
    + destruct (IH _ D j r2 N) as [E2 K]. simpl in E2.
      apply orb_false_iff in E2. destruct E2 as [Ex Es].
      split; auto. intros [|i] r1 L N1; simpl in N1.
      * injection N1 as <-. exact Ex.
      * apply (K i); auto. lia.
Qed.

(** X7.  No row of the table [clean_data] returns repeats an earlier
    row of that table (all columns equal, missing cells counting as
    equal). *)
Theorem clean_data_no_duplicates (h : Heap) (df : Ref) (d : list Innings.t) :
  nth_error h df = Some (OInn d) ->
  exists out h' table,
    clean_data df h = Some (out, h')
    /\ nth_error h' out = Some (OInn table)
    /\ forall i j r1 r2,
         (i < j)%nat ->
         nth_error table i = Some r1 -> nth_error table j = Some r2 ->
         Innings.same r2 r1 = false.
Proof.
  intros H. apply (clean_data_returns _ _ _ _ H).
  intros i j r1 r2 L N1 N2.
  pose proof (drop_duplicates_from_distinct
                [] (map fill (filter keep_run_rate
                                (filter keep_overs (filter dropna_critical d))))) as D.
  destruct (distinct_from_nth _ _ D j r2 N2) as [_ K].
  apply (K i); auto.
Qed.

Lemma clean_data_no_duplicates_witness :
  exists out h' table,
    clean_data 0%nat dirty_heap = Some (out, h')
    /\ nth_error h' out = Some (OInn table)
    /\ forall i j r1 r2,
         (i < j)%nat ->
         nth_error table i = Some r1 -> nth_error table j = Some r2 ->
         Innings.same r2 r1 = false.
Proof.
  apply (clean_data_no_duplicates dirty_heap 0%nat dirty_table). reflexivity.
Defined.

Lemma float_same_refl (x : float) : PyFloat.same x x = true.
Proof.
  destruct x as [q| | |]; try reflexivity.
  unfold PyFloat.same, PyFloat.eqb, PyFloat.compare.
  replace (q ?= q)%Q with Eq; auto. symmetry. apply Qeq_alt. reflexivity.
Qed.

Lemma same_text_refl (x : option string) : same_text x x = true.
Proof. destruct x; simpl; auto. apply String.eqb_refl. Qed.

Lemma row_same_refl (r : Innings.t) : Innings.same r r = true.
Proof.
  unfold Innings.same. rewrite !float_same_refl, !same_text_refl. reflexivity.
Qed.

Lemma drop_duplicates_from_covers seen l r :
  In r l ->
  existsb (Innings.same r) seen = true
  \/ exists r', In r' (drop_duplicates_from seen l) /\ Innings.same r r' = true.
Proof.
  revert seen. induction l as [|x l IH]; intros seen I; [destruct I|].
  simpl. destruct I as [->|I].
  - destruct (existsb (Innings.same r) seen) eqn:E; auto.
    right. exists r. split; [left; auto|apply row_same_refl].
  - destruct (existsb (Innings.same x) seen) eqn:E.
    + destruct (IH seen I) as [L|[r' [I' S]]]; [left; exact L|right; eauto].
    + destruct (IH (x :: seen) I) as [L|[r' [I' S]]].
      * simpl in L. apply orb_true_iff in L. destruct L as [L|L]; [|left; exact L].
        right. exists x. split; [left; reflexivity|exact L].
      * right. exists r'. split; [right; exact I'|exact S].
Qed.

(** X8.  [clean_data] loses no valid row: for every input row that has
    batting_team, bowling_team, venue and target present, overs_played
    > 0 and run_rate <= 50, the returned table holds a row equal in all
    columns to that row with city and extras_total filled. *)
Theorem clean_data_keeps_valid_rows (h : Heap) (df : Ref) (d : list Innings.t) :
  nth_error h df = Some (OInn d) ->
  exists out h' table,
    clean_data df h = Some (out, h')
    /\ nth_error h' out = Some (OInn table)
    /\ forall r0, In r0 d -> passes r0 = true ->
         exists r filled,
           In r table /\ filled_from r0 filled /\ Innings.same filled r = true.
Proof.
  intros H. apply (clean_data_returns _ _ _ _ H).
  intros r0 I P. rewrite clean_rows_passes.
  assert (J : In (fill r0) (map fill (filter passes d))).
  { apply in_map. apply filter_In. auto. }
  destruct (drop_duplicates_from_covers [] _ _ J) as [L|[r [Ir S]]];
    [discriminate L|].
  exists r, (fill r0). split; [exact Ir|]. split; [apply fill_filled_from|exact S].
Qed.

Lemma clean_data_keeps_valid_rows_witness :
  exists out h' table,
    clean_data 0%nat dirty_heap = Some (out, h')
    /\ nth_error h' out = Some (OInn table)
    /\ forall r0, In r0 dirty_table -> passes r0 = true ->
         exists r filled,
           In r table /\ filled_from r0 filled /\ Innings.same filled r = true.
Proof.
  apply (clean_data_keeps_valid_rows dirty_heap 0%nat dirty_table). reflexivity.
Defined.

(** ** Aggregating, then cleaning *)

Lemma prepare_ml_data_effect (h : Heap) (df : Ref) (f : RawFrame) :
  nth_error h df = Some (ORaw f) ->
  exists out h',
    prepare_ml_data df h = Some (out, h')
    /\ nth_error h' (List.length h) = Some (OAgg (aggregated_rows f))
    /\ nth_error h' out
       = Some (OInn (clean_rows (map final_features (aggregated_rows f))))
    /\ nth_error h' df = Some (ORaw (set_is_wicket f)).
Proof.
  intros H.
  destruct (aggregate_features_effect _ _ _ H) as (out1 & h1 & E1 & A1 & T1 & D1 & _).
  destruct (clean_data_effect _ _ _ T1) as (out & h' & E2 & T2 & K2).
  exists out, h'. unfold prepare_ml_data.
  rewrite (bind_run _ _ _ _ _ E1). split; [exact E2|].
  assert (B : (List.length h < List.length h1)%nat).
  { apply nth_error_Some. congruence. }
  assert (Bd : (df < List.length h1)%nat).
  { apply nth_error_Some. congruence. }
  split; [|split]; auto.
  - rewrite K2; auto.
  - rewrite K2; auto.
Qed.

(** The groups whose row survives cleaning. *)
Definition usable (a : Aggregated) : bool :=
  notna_text (a_bowling_team a)
  && notna_text (a_venue a)
  && (0 <? a_balls_faced a)
  && leb (a_run_rate a) (of_Z 50).

(** The row of a group as the pipeline returns it. *)
Definition training_row (a : Aggregated) : Innings.t :=
  fill (final_features a).

Lemma passes_final_features (g : Key * list Member) :
  passes (final_features (aggregate_group g)) = usable (aggregate_group g).
Proof.
  destruct (overs_cases _ (balls_faced_nonneg g)) as (Gt0 & _ & _).
  rewrite <- overs_played_unfold in Gt0. revert Gt0.
  unfold passes, usable, dropna_critical, keep_overs, keep_run_rate.
  change (Innings.overs_played (final_features (aggregate_group g)))
    with (a_overs_played (aggregate_group g)).
  generalize (aggregate_group g). intros a Gt0. rewrite Gt0.
  cbn [final_features Innings.batting_team Innings.bowling_team Innings.venue
       Innings.target Innings.run_rate notna_text].
  change (notna (of_Z (a_target a))) with true.
  destruct (notna_text (a_bowling_team a)), (notna_text (a_venue a)),
           (0 <? a_balls_faced a), (leb (a_run_rate a) (of_Z 50)); reflexivity.
Qed.

Lemma filter_map_swap {A B} (f : A -> B) (p : B -> bool) (l : list A) :
  filter p (map f l) = map f (filter (fun x => p (f x)) l).
Proof.
  induction l as [|x l IH]; simpl; auto.
  destruct (p (f x)); simpl; rewrite IH; reflexivity.
Qed.

Lemma same_of_Z (a b : Z) : PyFloat.same (of_Z a) (of_Z b) = true -> a = b.
Proof.
  unfold PyFloat.same, of_Z, PyFloat.eqb, PyFloat.compare, Qcompare, inject_Z.
  cbn. rewrite !Z.mul_1_r.
  destruct (Z.compare_spec a b); auto; discriminate.
Qed.

Lemma training_row_same (a1 a2 : Aggregated) :
  Innings.same (training_row a1) (training_row a2) = true ->
  key_of_agg a1 = key_of_agg a2.
Proof.
  unfold Innings.same. rewrite !andb_true_iff.
  intros [[[[[[[[[[[[[Hm Hi] _] _] _] Hb] _] _] _] _] _] _] _] _].
  change (PyFloat.same (of_Z (a_match_id a1)) (of_Z (a_match_id a2)) = true) in Hm.
  change (PyFloat.same (of_Z (a_innings a1)) (of_Z (a_innings a2)) = true) in Hi.
  change (String.eqb (a_batting_team a1) (a_batting_team a2) = true) in Hb.
  apply same_of_Z in Hm, Hi. apply String.eqb_eq in Hb.
  unfold key_of_agg. congruence.
Qed.

Lemma training_rows_distinct (l seen : list Aggregated) :
  NoDup (map key_of_agg (seen ++ l)) ->
  distinct_from (map training_row seen) (map training_row l).
Proof.
  revert seen. induction l as [|a l IH]; intros seen ND; simpl; auto.
  split.
  - destruct (existsb (Innings.same (training_row a)) (map training_row seen)) eqn:E; auto.
    exfalso. apply existsb_exists in E. destruct E as [r [I S]].
    apply in_map_iff in I. destruct I as [a' [<- I']].
    apply training_row_same in S.
    rewrite map_app in ND. simpl in ND. apply NoDup_remove_2 in ND.
    apply ND. apply in_or_app. left. rewrite S. apply in_map. exact I'.
  - apply (IH (a :: seen)). rewrite map_app in *. simpl in *.
    apply NoDup_cons.
    + apply NoDup_remove_2 in ND. exact ND.
    + apply NoDup_remove_1 in ND. exact ND.
Qed.

(** Leaving rows out keeps the keys distinct. *)
Lemma filtered_keys_distinct (keep : Aggregated -> bool) (aggs : list Aggregated) :
  NoDup (map key_of_agg aggs) -> NoDup (map key_of_agg (filter keep aggs)).
Proof.
  intros ND. induction aggs as [|a aggs IH]; [exact ND|].
  cbn [map] in ND. apply NoDup_cons_iff in ND. destruct ND as [N ND].
  cbn [filter]. destruct (keep a); [|exact (IH ND)].
  cbn [map]. apply NoDup_cons; [|exact (IH ND)].
  intros I. apply N. apply in_map_iff in I. destruct I as [a' [E I]].
  apply filter_In in I. rewrite <- E. apply in_map. apply I.
Qed.

Lemma aggregated_rows_NoDup (f : RawFrame) :
  NoDup (map key_of_agg (aggregated_rows f)).
Proof.
  rewrite AggregatorFacts.aggregated_keys.
  destruct (groupby_inv (AggregatorFacts.members f)) as [S _ _].
  clear - S. induction S as [|k ks S IH F]; constructor; auto.
  intros I. rewrite Forall_forall in F. apply (key_lt_neq k k); auto.
Qed.

(** X9.  [prepare_ml_data] (aggregate, then clean) returns one row for
    each group that has a bowling_team and a venue, at least one counted
    ball and a run_rate of at most 50, in key order, and no other row:
    no row of the aggregated frame is removed as a duplicate, because
    the keys differ.  Each returned row is the group's row with a
    missing city replaced by "Unknown". *)
Theorem prepare_ml_data_rows (h : Heap) (df : Ref) (f : RawFrame) :
  nth_error h df = Some (ORaw f) ->
  exists out h' aggregated table,
    prepare_ml_data df h = Some (out, h')
    /\ nth_error h' (List.length h) = Some (OAgg aggregated)
    /\ nth_error h' out = Some (OInn table)
    /\ table = map training_row (filter usable aggregated)
    /\ (forall a, filled_from (final_features a) (training_row a))
    /\ (forall a, In a aggregated ->
          Innings.extras_total (training_row a) = of_Z (a_extras_total a)).
Proof.
  intros H.
  destruct (prepare_ml_data_effect _ _ _ H) as (out & h' & E & A & T & _).
  exists out, h', (aggregated_rows f),
    (clean_rows (map final_features (aggregated_rows f))).
  split; auto. split; auto. split; auto. split; [|split].
  - rewrite clean_rows_passes, filter_map_swap.
    assert (Fe : filter (fun a => passes (final_features a)) (aggregated_rows f)
                 = filter usable (aggregated_rows f)).
    { unfold aggregated_rows. rewrite !filter_map_swap. f_equal.
      apply filter_ext. intros g. apply passes_final_features. }
    rewrite Fe, map_map. unfold drop_duplicates.
    apply drop_duplicates_from_fixed.
    apply (training_rows_distinct _ []). simpl.
    apply filtered_keys_distinct. apply aggregated_rows_NoDup.
  - intros a. apply fill_filled_from.
  - intros a I. reflexivity.
Qed.

Lemma prepare_ml_data_rows_witness :
  exists out h' aggregated table,
    prepare_ml_data 0%nat sample_heap = Some (out, h')
    /\ nth_error h' (List.length sample_heap) = Some (OAgg aggregated)
    /\ nth_error h' out = Some (OInn table)
    /\ table = map training_row (filter usable aggregated)
    /\ (forall a, filled_from (final_features a) (training_row a))
    /\ (forall a, In a aggregated ->
          Innings.extras_total (training_row a) = of_Z (a_extras_total a)).
Proof.
  apply (prepare_ml_data_rows sample_heap 0%nat sample_frame). reflexivity.
Defined.

Lemma gtb_Fin_zero (q : Q) : gtb (Fin q) (of_Z 0) = true -> (0 < q)%Q.
Proof.
  unfold gtb, PyFloat.compare, of_Z. intros H.
  destruct (q ?= inject_Z 0)%Q eqn:E; try discriminate.
  apply Qgt_alt in E. exact E.
Qed.

Lemma leb_Fin (q : Q) (z : Z) : leb (Fin q) (of_Z z) = true -> (q <= inject_Z z)%Q.
Proof.
  unfold leb, PyFloat.compare, of_Z. intros H.
  destruct (q ?= inject_Z z)%Q eqn:E; try discriminate.
  - apply Qeq_alt in E. rewrite E. apply Qle_refl.
  - apply Qlt_alt in E. apply Qlt_le_weak. exact E.
Qed.

(** X10.  In the table [prepare_ml_data] returns every row has a
    batting_team, a city, a target of 0 or 1, overs_played > 0 and a
    finite run_rate of at most 50.  For finite total_runs and
    overs_played, run_rate is total_runs / overs_played when that
    quotient is inside the float64 range; a row whose quotient
    overflows is not removed as an outlier but returned with run_rate
    0. *)
Theorem prepare_ml_data_row_values (h : Heap) (df : Ref) (f : RawFrame) :
  nth_error h df = Some (ORaw f) ->
  exists out h' table,
    prepare_ml_data df h = Some (out, h')
    /\ nth_error h' out = Some (OInn table)
    /\ forall r, In r table ->
         Innings.batting_team r <> None
         /\ Innings.city r <> None
         /\ (Innings.target r = of_Z 0 \/ Innings.target r = of_Z 1)
         /\ gtb (Innings.overs_played r) (of_Z 0) = true
         /\ exists rr : Q,
              Innings.run_rate r = Fin rr
              /\ (rr <= 50)%Q
              /\ forall tr ov : Q,
                   Innings.total_runs r = Fin tr ->
                   Innings.overs_played r = Fin ov ->
                   (0 < ov)%Q
                   /\ (overflows (tr / ov) = false -> (rr == tr / ov)%Q)
                   /\ (overflows (tr / ov) = true -> (rr == 0)%Q).
Proof.
  intros H.
  destruct (prepare_ml_data_effect _ _ _ H) as (out & h' & E & _ & T & _).
  exists out, h', (clean_rows (map final_features (aggregated_rows f))).
  split; auto. split; auto.
  intros r I. rewrite clean_rows_passes in I. unfold drop_duplicates in I.
  apply drop_duplicates_from_In in I. apply in_map_iff in I.
  destruct I as [r0 [<- I]]. apply filter_In in I. destruct I as [I P].
  apply in_map_iff in I. destruct I as [a [<- I]].
  unfold aggregated_rows in I. apply in_map_iff in I. destruct I as [g [<- _]].
  unfold passes in P. apply andb_true_iff in P. destruct P as [_ P].
  apply andb_true_iff in P. destruct P as [Po Pr].
  unfold keep_overs in Po. unfold keep_run_rate in Pr.
  destruct (run_rate_of_group g) as (_ & rr & Hr & _ & Pv).
  change (Innings.overs_played (final_features (aggregate_group g)))
    with (a_overs_played (aggregate_group g)) in Po.
  change (Innings.run_rate (final_features (aggregate_group g)))
    with (a_run_rate (aggregate_group g)) in Pr.
  rewrite Hr in Pr. apply leb_Fin in Pr.
  split; [discriminate|]. split.
  { cbn. destruct (a_city (aggregate_group g)); discriminate. }
  split.
  { destruct g as [[[m i] b] xs]. cbn. unfold target_of.
    destruct (agg_first _) as [w|]; auto. destruct (String.eqb b w); auto. }
  split; [exact Po|].
  exists rr. split; [exact Hr|]. split; [exact Pr|].
  intros tr ov Et Eo.
  change (Innings.overs_played (fill (final_features (aggregate_group g))))
    with (a_overs_played (aggregate_group g)) in Eo.
  change (Fin (inject_Z (a_total_runs (aggregate_group g))) = Fin tr) in Et.
  injection Et as <-.
  destruct (Pv ov Eo) as (_ & _ & P1 & P2).
  rewrite Eo in Po. apply gtb_Fin_zero in Po. auto.
Qed.

Lemma prepare_ml_data_row_values_witness :
  exists out h' table,
    prepare_ml_data 0%nat sample_heap = Some (out, h')
    /\ nth_error h' out = Some (OInn table)
    /\ forall r, In r table ->
         Innings.batting_team r <> None
         /\ Innings.city r <> None
         /\ (Innings.target r = of_Z 0 \/ Innings.target r = of_Z 1)
         /\ gtb (Innings.overs_played r) (of_Z 0) = true
         /\ exists rr : Q,
              Innings.run_rate r = Fin rr
              /\ (rr <= 50)%Q
              /\ forall tr ov : Q,
                   Innings.total_runs r = Fin tr ->
                   Innings.overs_played r = Fin ov ->
                   (0 < ov)%Q
                   /\ (overflows (tr / ov) = false -> (rr == tr / ov)%Q)
                   /\ (overflows (tr / ov) = true -> (rr == 0)%Q).
Proof.
  apply (prepare_ml_data_row_values sample_heap 0%nat sample_frame). reflexivity.
Defined.

(** The innings of 2^1023 runs in one ball comes through the pipeline
    with run_rate 0. *)
Example overflow_row_kept :
  exists out h' table,
    prepare_ml_data 0%nat overflow_heap = Some (out, h')
    /\ nth_error h' out = Some (OInn table)
    /\ map (fun r => (Innings.total_runs r, Innings.overs_played r,
                      Innings.run_rate r)) table
       = [(Fin (inject_Z (2 ^ 1023)), Fin (1 # 6), Fin 0)].
Proof. eexists _, _, _. split; [vm_compute; reflexivity|]. split; vm_compute; reflexivity. Qed.

End CleanerFacts.

(* ================================================================== *)
(** * More on the model store *)
(* ================================================================== *)

Module ModelStoreFacts.
Import Py Predict PredictTheory.

Lemma load_from_storage_failure (fs : Storage) (p : string) (w w' : World) (e : Exn) :
  load_from_storage fs p w = (w', Raise e) ->
  cached_model w' = cached_model w
  /\ model_path w' = model_path w
  /\ ((fs p = Absent /\ events w' = events w ++ [EvExists p])
      \/ (fs p = Present (Raise e)
          /\ events w' = events w ++ [EvExists p; EvLoad p])).
Proof.
  unfold load_from_storage. intros S.
  destruct (fs p) as [|[pl|e']]; inversion S; subst; cbn.
  - auto.
  - split; auto. split; auto. right. rewrite <- app_assoc. auto.
Qed.

Lemma load_model_failure_miss (fs : Storage) (p : string) (w w' : World) (e : Exn) :
  load_model fs p w = (w', Raise e) ->
  cache_miss w p /\ load_from_storage fs p w = (w', Raise e).
Proof.
  unfold load_model, cache_miss. intros L.
  destruct (cached_model w) as [h|]; [|auto].
  destruct (path_matches w p) eqn:P; [discriminate|].
  split; auto. right. intros E. apply path_matches_iff in E. congruence.
Qed.

(** X11.  A failed load is not remembered: after a call of
    [load_model(p)] that raised, the next call with [p] goes to storage
    again.  It loads and caches the artifact if it is loadable by then,
    and raises the same error if storage still answers the same. *)
Theorem load_model_retries_after_failure (fs : Storage) (p : string)
        (w w' : World) (e : Exn) :
  load_model fs p w = (w', Raise e) ->
  (forall fs' pl, fs' p = Present (Ok pl) ->
     exists h w2,
       load_model fs' p w' = (w2, Ok h)
       /\ pipeline h = pl
       /\ cached_model w2 = Some h
       /\ model_path w2 = Some p
       /\ events w2 = events w' ++ [EvExists p; EvLoad p])
  /\ (exists w3,
        load_model fs p w' = (w3, Raise e)
        /\ exists added, added <> [] /\ events w3 = events w' ++ added).
Proof.
  intros L. destruct (load_model_failure_miss _ _ _ _ _ L) as [M S].
  destruct (load_from_storage_failure _ _ _ _ _ S) as (C & P & Ev).
  assert (M' : cache_miss w' p).
  { unfold cache_miss in *. rewrite C, P. exact M. }
  split.
  - intros fs' pl F. rewrite (load_model_miss_loads _ _ _ _ F M').
    eexists _, _. split; [reflexivity|]. cbn.
    repeat split. rewrite <- app_assoc. reflexivity.
  - rewrite (load_model_miss _ _ _ M'). unfold load_from_storage.
    destruct Ev as [[F _]|[F _]]; rewrite F.
    + unfold load_from_storage in S. rewrite F in S. injection S as _ <-.
      eexists. split; [reflexivity|]. exists [EvExists p]. split; [discriminate|].
      reflexivity.
    + eexists. split; [reflexivity|]. exists [EvExists p; EvLoad p].
      split; [discriminate|]. cbn. rewrite <- app_assoc. reflexivity.
Qed.

Lemma load_model_retries_after_failure_witness :
  let w' := fst (load_model sample_storage "missing.pkl" initial_world) in
  let e := missing_file "missing.pkl" in
  (forall fs' pl, fs' "missing.pkl" = Present (Ok pl) ->
     exists h w2,
       load_model fs' "missing.pkl" w' = (w2, Ok h)
       /\ pipeline h = pl
       /\ cached_model w2 = Some h
       /\ model_path w2 = Some "missing.pkl"
       /\ events w2 = events w' ++ [EvExists "missing.pkl"; EvLoad "missing.pkl"])
  /\ (exists w3,
        load_model sample_storage "missing.pkl" w' = (w3, Raise e)
        /\ exists added, added <> [] /\ events w3 = events w' ++ added).
Proof.
  apply (load_model_retries_after_failure sample_storage "missing.pkl" initial_world).
  reflexivity.
Defined.

(** The cache holds the model of path [p]. *)
Definition cache_holds (w : World) (p : string) : Prop :=
  exists h, cached_model w = Some h /\ model_path w = Some p.

Lemma cache_holds_or_miss (w : World) (p : string) :
  cache_holds w p \/ cache_miss w p.
Proof.
  unfold cache_holds, cache_miss.
  destruct (cached_model w) as [h|]; [|auto].
  destruct (path_matches w p) eqn:P.
  - apply path_matches_iff in P. left. eauto.
  - right. right. intros E. apply path_matches_iff in E. congruence.
Qed.

Lemma cache_holds_not_miss (w : World) (p : string) :
  cache_holds w p -> ~ cache_miss w p.
Proof. intros [h [C P]] [N|N]; congruence. Qed.

(** X12.  What one call of [load_model(p)] does to storage: nothing
    when the cache holds [p]; otherwise one existence check, followed
    by one load exactly when a file is there.  The call raises only on
    such a miss, and never calls an estimator. *)
Theorem load_model_storage_access (fs : Storage) (p : string) (w : World) :
  exists added,
    events (fst (load_model fs p w)) = events w ++ added
    /\ (cache_holds w p -> added = [] /\ fst (load_model fs p w) = w)
    /\ (cache_miss w p -> fs p = Absent ->
        added = [EvExists p]
        /\ snd (load_model fs p w) = Raise (missing_file p))
    /\ (cache_miss w p -> fs p <> Absent -> added = [EvExists p; EvLoad p])
    /\ (forall m df, ~ In (EvPredict m df) added /\ ~ In (EvPredictProba m df) added).
Proof.
  destruct (cache_holds_or_miss w p) as [[h [C P]]|M].
  - rewrite (load_model_hit fs p w h C P). exists []. cbn.
    rewrite app_nil_r. split; auto. split; auto.
    assert (N : ~ cache_miss w p) by (apply cache_holds_not_miss; exists h; auto).
    split; [tauto|]. split; [tauto|]. intros m df. split; intros [].
  - rewrite (load_model_miss _ _ _ M). unfold load_from_storage.
    destruct (fs p) as [|[pl|e]] eqn:F; cbn.
    + exists [EvExists p]. split; auto.
      split; [intros Hc; destruct (cache_holds_not_miss _ _ Hc M)|].
      split; auto. split; [congruence|].
      intros m df. split; intros [E|[]]; discriminate.
    + exists [EvExists p; EvLoad p]. split; [rewrite <- app_assoc; auto|].
      split; [intros Hc; destruct (cache_holds_not_miss _ _ Hc M)|].
      split; [discriminate|]. split; auto.
      intros m df. split; intros [E|[E|[]]]; discriminate.
    + exists [EvExists p; EvLoad p]. split; [rewrite <- app_assoc; auto|].
      split; [intros Hc; destruct (cache_holds_not_miss _ _ Hc M)|].
      split; [discriminate|]. split; auto.
      intros m df. split; intros [E|[E|[]]]; discriminate.
Qed.

(** ** Overlapping calls, whatever the schedule *)

Lemma nth_error_replace_thread (ts : list Thread) (i : nat) (t t' : Thread) :
  nth_error ts i = Some t ->
  exists pre post, ts = pre ++ t :: post
                   /\ replace_thread i t' ts = pre ++ t' :: post.
Proof.
  revert i. induction ts as [|x ts IH]; intros [|i] N; try discriminate.
  - injection N as ->. exists [], ts. auto.
  - destruct (IH i N) as (pre & post & E & R).
    exists (x :: pre), post. simpl. rewrite R. subst ts. auto.
Qed.

Section Overlap.
Variable fs : Storage.
Variable p : string.
Variable pl : Pipeline.
Hypothesis artifact : fs p = Present (Ok pl).

Definition cache_good (w : World) : Prop :=
  exists h, cached_model w = Some h /\ pipeline h = pl.

(** What a caller of [load_model(p)] can hold at each statement. *)
Definition thread_inv (w : World) (t : Thread) : Prop :=
  arg t = p
  /\ match pc t with
     | AtSetPath h | AtReturn h => pipeline h = pl /\ cache_good w
     | Finished (Ok h) => pipeline h = pl
     | Finished (Raise _) => False
     | _ => True
     end.

Definition system_inv (s : System) : Prop :=
  (model_path (world s) = Some p -> cache_good (world s))
  /\ Forall (thread_inv (world s)) (threads s).

Lemma thread_step_inv (t : Thread) (w : World) :
  (model_path w = Some p -> cache_good w) ->
  thread_inv w t ->
  let (w', t') := thread_step fs t w in
  (model_path w' = Some p -> cache_good w')
  /\ thread_inv w' t'
  /\ (cache_good w -> cache_good w').
Proof.
  intros I1 [A T]. unfold thread_step. destruct t as [a c]. simpl in A. subst a.
  cbn [arg pc] in *. destruct c as [| | |h|h|r]; cbn [pc arg at_pc].
  - destruct (cached_model w) as [h|] eqn:C.
    + destruct (path_matches w p) eqn:P.
      * apply path_matches_iff in P. destruct (I1 P) as [h' [C' Hp]].
        assert (h' = h) by congruence. subst h'.
        refine (conj I1 (conj (conj eq_refl _) (fun G => G))). exact Hp.
      * refine (conj I1 (conj (conj eq_refl I) (fun G => G))).
    + refine (conj I1 (conj (conj eq_refl I) (fun G => G))).
  - rewrite artifact.
    refine (conj I1 (conj (conj eq_refl I) (fun G => G))).
  - rewrite artifact.
    assert (G : cache_good
                  {| cached_model := Some {| hid := next_id (log (EvLoad p) w);
                                             pipeline := pl |};
                     model_path := model_path (log (EvLoad p) w);
                     events := events (log (EvLoad p) w);
                     next_id := S (next_id (log (EvLoad p) w)) |}).
    { eexists. split; reflexivity. }
    refine (conj (fun _ => G) (conj (conj eq_refl (conj eq_refl G)) (fun _ => G))).
  - destruct T as [Hp G].
    assert (G' : cache_good {| cached_model := cached_model w;
                               model_path := Some p;
                               events := events w;
                               next_id := next_id w |}) by exact G.
    refine (conj (fun _ => G') (conj (conj eq_refl (conj Hp G')) (fun _ => G'))).
  - destruct T as [Hp [h' [C Hp']]]. rewrite C.
    refine (conj I1 (conj (conj eq_refl Hp') (fun G => G))).
  - refine (conj I1 (conj (conj eq_refl T) (fun G => G))).
Qed.

Lemma thread_inv_mono (w w' : World) (t : Thread) :
  (cache_good w -> cache_good w') -> thread_inv w t -> thread_inv w' t.
Proof.
  intros G [A T]. split; auto.
  destruct (pc t) as [| | |h|h|r]; auto; destruct T; auto.
Qed.

Lemma sched_step_inv (s : System) (i : nat) :
  system_inv s -> system_inv (sched_step fs s i).
Proof.
  intros [I1 F]. unfold sched_step.
  destruct (nth_error (threads s) i) as [t|] eqn:N; [|split; auto].
  destruct (nth_error_replace_thread _ _ _ (snd (thread_step fs t (world s))) N)
    as (pre & post & E & R).
  assert (Tt : thread_inv (world s) t).
  { rewrite Forall_forall in F. apply F. rewrite E.
    apply in_or_app. right. left. reflexivity. }
  pose proof (thread_step_inv t (world s) I1 Tt) as S.
  destruct (thread_step fs t (world s)) as [w' t'] eqn:Es.
  destruct S as (I1' & Tt' & G). cbn [snd] in R.
  split; cbn [world threads]; auto.
  rewrite R. rewrite E in F. apply Forall_app in F. destruct F as [Fp Fq].
  inversion Fq as [|? ? _ Fpost]; subst.
  apply Forall_app. split.
  - eapply Forall_impl; [|exact Fp]. intros u. apply thread_inv_mono. exact G.
  - constructor; auto.
    eapply Forall_impl; [|exact Fpost]. intros u. apply thread_inv_mono. exact G.
Qed.

Lemma run_inv (schedule : list nat) (s : System) :
  system_inv s -> system_inv (run fs schedule s).
Proof.
  revert s. induction schedule as [|i l IH]; intros s I; [exact I|].
  unfold run in *. cbn [fold_left]. apply IH. apply sched_step_inv. exact I.
Qed.

Lemma spawn_inv (n : nat) (w : World) :
  model_path w <> Some p -> system_inv (spawn n p w).
Proof.
  intros N. split; cbn [world threads spawn].
  - intros E. contradiction.
  - apply Forall_forall. intros t I. apply repeat_spec in I. subst t.
    split; reflexivity.
Qed.

End Overlap.

(** X14.  Overlapping first calls are wasteful but not wrong about
    content: with a loadable artifact under [p] and [p] not cached at
    the start, under every schedule no caller of [load_model(p)]
    raises, every caller that has returned holds a handle of that
    artifact, and once the path is recorded the cache holds such a
    handle. *)
Theorem overlapping_calls_return_the_artifact (fs : Storage) (p : string)
        (pl : Pipeline) (w : World) (n : nat) (schedule : list nat) :
  fs p = Present (Ok pl) ->
  model_path w <> Some p ->
  let s := run fs schedule (spawn n p w) in
  (forall t r, In t (threads s) -> pc t = Finished r ->
               exists h, r = Ok h /\ pipeline h = pl)
  /\ (model_path (world s) = Some p ->
      exists h, cached_model (world s) = Some h /\ pipeline h = pl).
Proof.
  intros F N s.
  pose proof (run_inv fs p pl F schedule _ (spawn_inv p pl n w N)) as [I1 Ft].
  fold s in I1, Ft. split; [|exact I1].
  intros t r I E. rewrite Forall_forall in Ft. destruct (Ft t I) as [_ T].
  rewrite E in T. destruct r as [h|e]; [eauto|contradiction].
Qed.

Lemma overlapping_calls_return_the_artifact_witness :
  let s := run sample_storage overlapping_schedule
               (spawn 2 "model.pkl" initial_world) in
  (forall t r, In t (threads s) -> pc t = Finished r ->
               exists h, r = Ok h /\ pipeline h = sample_pipeline)
  /\ (model_path (world s) = Some "model.pkl" ->
      exists h, cached_model (world s) = Some h /\ pipeline h = sample_pipeline).
Proof.
  apply (overlapping_calls_return_the_artifact
           sample_storage "model.pkl" sample_pipeline initial_world 2
           overlapping_schedule).
  - reflexivity.
  - discriminate.
Defined.

(** A caller that may still reach [joblib.load]. *)
Definition pending (t : Thread) : nat :=
  match pc t with
  | AtCheck | AtExists | AtLoad => 1
  | _ => 0
  end.

Definition pending_total (ts : list Thread) : nat :=
  fold_right Nat.add 0%nat (map pending ts).

Lemma pending_total_app (l1 l2 : list Thread) :
  pending_total (l1 ++ l2) = (pending_total l1 + pending_total l2)%nat.
Proof.
  unfold pending_total. induction l1 as [|x l1 IH]; simpl; auto. rewrite IH. lia.
Qed.

Lemma loads_log (p : string) (e : Event) (w : World) :
  loads p (log e w) = (loads p w + if is_load p e then 1 else 0)%nat.
Proof.
  unfold loads, log. cbn [events]. rewrite filter_app, length_app. cbn.
  destruct (is_load p e); reflexivity.
Qed.

Lemma thread_step_potential (fs : Storage) (p : string) (t : Thread) (w : World) :
  (loads p (fst (thread_step fs t w)) + pending (snd (thread_step fs t w))
   <= loads p w + pending t)%nat.
Proof.
  unfold thread_step, pending. destruct t as [a c]. cbn [arg pc].
  destruct c as [| | |h|h|r]; cbn [pc arg at_pc fst snd].
  - destruct (cached_model w); [destruct (path_matches w a)|]; cbn; lia.
  - destruct (fs a); cbn [fst snd pc at_pc]; rewrite loads_log; cbn; lia.
  - destruct (fs a) as [|[pl|e]]; cbn [fst snd pc at_pc];
      try (unfold loads at 1; cbn [events]; fold (loads p (log (EvLoad a) w)));
      rewrite loads_log; destruct (is_load p (EvLoad a)); lia.
  - unfold loads. cbn. lia.
  - destruct (cached_model w); cbn; lia.
  - cbn. lia.
Qed.

Lemma sched_step_potential (fs : Storage) (p : string) (s : System) (i : nat) :
  (loads p (world (sched_step fs s i)) + pending_total (threads (sched_step fs s i))
   <= loads p (world s) + pending_total (threads s))%nat.
Proof.
  unfold sched_step. destruct (nth_error (threads s) i) as [t|] eqn:N; [|lia].
  destruct (nth_error_replace_thread _ _ _ (snd (thread_step fs t (world s))) N)
    as (pre & post & E & R).
  pose proof (thread_step_potential fs p t (world s)) as P.
  destruct (thread_step fs t (world s)) as [w' t']. cbn [fst snd world threads] in *.
  rewrite R, E, !pending_total_app. unfold pending_total at 2 4.
  cbn [map fold_right]. lia.
Qed.

(** X15.  However the calls interleave, [n] callers of [load_model(p)]
    deserialise the artifact under [p] at most [n] times: no caller
    loads twice.  This holds for every storage and every schedule. *)
Theorem overlapping_calls_load_at_most_once_each (fs : Storage) (p : string)
        (w : World) (n : nat) (schedule : list nat) :
  (loads p (world (run fs schedule (spawn n p w))) <= loads p w + n)%nat.
Proof.
  assert (G : forall l s,
             (loads p (world (run fs l s)) + pending_total (threads (run fs l s))
              <= loads p (world s) + pending_total (threads s))%nat).
  { induction l as [|i l IH]; intros s; [cbn; lia|].
    unfold run in *. cbn [fold_left].
    pose proof (IH (sched_step fs s i)). pose proof (sched_step_potential fs p s i).
    lia. }
  specialize (G schedule (spawn n p w)).
  assert (P : pending_total (threads (spawn n p w)) = n).
  { unfold spawn, pending_total. cbn [threads]. clear.
    induction n as [|n IH]; cbn; auto. }
  rewrite P in G. cbn [world spawn] in G. lia.
Qed.

End ModelStoreFacts.

(* ================================================================== *)
(** * More on the predictor *)
(* ================================================================== *)

Module PredictorFacts.
Import Py Predict PredictTheory.

(** ** Rounding *)

Lemma round_half_even_bounds (x : Q) (n : Z) :
  (0 <= x)%Q -> (x <= inject_Z n)%Q ->
  0 <= round_half_even x <= n.
Proof.
  intros L U. unfold round_half_even.
  pose proof (Qfloor_le x) as F1. pose proof (Qlt_floor x) as F2.
  assert (F0 : 0 <= Qfloor x).
  { change 0 with (Qfloor (inject_Z 0)). apply Qfloor_resp_le. exact L. }
  assert (Fn : Qfloor x <= n).
  { rewrite Zle_Qle. lra. }
  assert (Up : (0 < x - inject_Z (Qfloor x))%Q -> Qfloor x + 1 <= n).
  { intros P. assert (Qfloor x < n); [|lia]. rewrite Zlt_Qlt. lra. }
  destruct (x - inject_Z (Qfloor x) ?= 1 # 2)%Q eqn:C.
  - apply Qeq_alt in C. destruct (Z.even (Qfloor x)); [lia|].
    split; [lia|]. apply Up. lra.
  - lia.
  - apply Qgt_alt in C. split; [lia|]. apply Up. lra.
Qed.

(** A probability: a finite value between 0 and 1. *)
Definition probability (x : float) : Prop :=
  exists q, x = Fin q /\ (0 <= q)%Q /\ (q <= 1)%Q.

Lemma round_nd_probability (x : float) : probability x -> probability (round_nd 4 x).
Proof.
  intros (q & -> & L & U). unfold round_nd.
  change (inject_Z (10 ^ Z.of_nat 4)) with (inject_Z 10000).
  destruct (round_half_even_bounds (q * inject_Z 10000) 10000) as [B0 B1].
  - change (inject_Z 10000) with (10000 # 1)%Q. lra.
  - change (inject_Z 10000) with (10000 # 1)%Q. lra.
  - eexists. split; [reflexivity|].
    rewrite Zle_Qle in B0, B1.
    set (r := inject_Z (round_half_even (q * inject_Z 10000))) in *.
    change (inject_Z 0) with 0%Q in B0.
    change (inject_Z 10000) with (10000 # 1)%Q in *.
    split.
    + apply Qle_shift_div_l; lra.
    + apply Qle_shift_div_r; lra.
Qed.

(** ** One prediction *)

Lemma first_missing_none (d : dict) :
  first_missing d = None ->
  forall c, In c feature_columns -> contains d c = true.
Proof.
  unfold first_missing. intros F c I.
  pose proof (find_none _ _ F c) as N. cbv beta in N.
  apply negb_false_iff. apply N.
  simpl in I. simpl. intuition (subst; auto 10).
Qed.

Lemma first_missing_some (d : dict) (field : string) :
  first_missing d = Some field ->
  In field feature_columns /\ contains d field = false.
Proof.
  unfold first_missing. intros F. apply find_some in F. destruct F as [I N].
  apply negb_true_iff in N. split; auto.
  simpl in I. simpl. intuition (subst; auto 10).
Qed.

(** The frame [predict_match] builds from a dict that has every
    column. *)
Definition frame_of (d : dict) : DataFrame :=
  {| columns := feature_columns;
     data := [map (cell_of d) feature_columns] |}.

Lemma reorder_single (d : dict) :
  (forall c, In c feature_columns -> contains d c = true) ->
  reorder [d] = Ok (frame_of d).
Proof.
  intros H. unfold reorder.
  rewrite (select_present feature_columns (DataFrame_of [d])).
  - unfold frame_of. f_equal. cbn [columns data DataFrame_of map]. f_equal. f_equal.
    apply map_ext_in. intros c I. apply cell_map.
    apply frame_columns_In. exists d. split; [left; auto|].
    apply contains_keys. auto.
  - intros c I. apply frame_columns_In. exists d. split; [left; auto|].
    apply contains_keys. auto.
Qed.

(** X16.  What [predict_match] does after [load_model]: nothing more
    when the load raised or a required field is absent (the estimator
    is not called); otherwise it calls [predict] once and then
    [predict_proba] at most once, both on the loaded model and on the
    same one-row frame with the nine contract columns; a result is
    returned only after both calls.  The cache is as [load_model] left
    it. *)
Theorem predict_match_estimator_calls (fs : Storage) (d : dict) (p : string)
        (w : World) :
  let w1 := fst (load_model fs p w) in
  let w' := fst (predict_match fs d p w) in
  let r := snd (predict_match fs d p w) in
  cached_model w' = cached_model w1
  /\ model_path w' = model_path w1
  /\ next_id w' = next_id w1
  /\ exists added,
       events w' = events w1 ++ added
       /\ match snd (load_model fs p w) with
          | Raise e => added = [] /\ r = Raise e
          | Ok model =>
              match first_missing d with
              | Some field =>
                  added = []
                  /\ r = Raise (ValueError ("Missing required field: " ++ field))
              | None =>
                  reorder [d] = Ok (frame_of d)
                  /\ (added = [EvPredict (hid model) (frame_of d)]
                      \/ added = [EvPredict (hid model) (frame_of d);
                                  EvPredictProba (hid model) (frame_of d)])
                  /\ (forall res, r = Ok res ->
                        added = [EvPredict (hid model) (frame_of d);
                                 EvPredictProba (hid model) (frame_of d)])
              end
          end.
Proof.
  unfold predict_match.
  destruct (load_model fs p w) as [w1 [model|e]]; cbn [fst snd].
  2:{ repeat split; auto. exists []. rewrite app_nil_r. auto. }
  destruct (first_missing d) as [field|] eqn:F; cbn [fst snd].
  { repeat split; auto. exists []. rewrite app_nil_r. auto. }
  rewrite (reorder_single d (first_missing_none d F)).
  set (df := frame_of d). set (m := hid model).
  destruct (predict (pipeline model) df) as [labels|e]; cbn [fst snd].
  2:{ repeat split; auto. exists [EvPredict m df]. repeat split; auto.
      intros res E. discriminate. }
  destruct (index labels 0) as [label|e]; cbn [fst snd].
  2:{ repeat split; auto. exists [EvPredict m df]. repeat split; auto.
      intros res E. discriminate. }
  assert (B : events (log (EvPredictProba m df) (log (EvPredict m df) w1))
              = events w1 ++ [EvPredict m df; EvPredictProba m df]).
  { cbn. rewrite <- app_assoc. reflexivity. }
  destruct (predict_proba (pipeline model) df) as [probs|e]; cbn [fst snd].
  2:{ repeat split; auto. exists [EvPredict m df; EvPredictProba m df].
      repeat split; auto. }
  destruct (index probs 0) as [proba|e]; cbn [fst snd];
    (repeat split; auto; exists [EvPredict m df; EvPredictProba m df];
     repeat split; auto).
Qed.

(** An estimator whose [predict_proba] returns probabilities. *)
Definition proba_in_range (pl : Pipeline) : Prop :=
  forall df probs row x,
    predict_proba pl df = Ok probs -> In row probs -> In x row -> probability x.

Lemma index_In {A} (l : list A) (i : nat) (a : A) : index l i = Ok a -> In a l.
Proof.
  unfold index. destruct (nth_error l i) eqn:E; [|discriminate].
  intros H. injection H as <-. eapply nth_error_In; eauto.
Qed.

(** X17.  A result of [predict_match] carries the first label of
    [predict], the text "Batting Team Wins" exactly for label 1 and
    "Batting Team Loses" otherwise, and the first row of
    [predict_proba] rounded to four decimals (entry 1 as win, entry 0
    as loss); if the estimator returns probabilities, both rounded
    values are again between 0 and 1. *)
Theorem predict_match_result (fs : Storage) (d : dict) (p : string)
        (w w' : World) (res : PredictionResult) :
  predict_match fs d p w = (w', Ok res) ->
  exists model labels probs proba win loss,
    snd (load_model fs p w) = Ok model
    /\ predict (pipeline model) (frame_of d) = Ok (prediction_label res :: labels)
    /\ predict_proba (pipeline model) (frame_of d) = Ok (proba :: probs)
    /\ nth_error proba 0 = Some loss
    /\ nth_error proba 1 = Some win
    /\ win_probability res = round_nd 4 win
    /\ loss_probability res = round_nd 4 loss
    /\ (prediction_label res = 1 -> prediction_text res = "Batting Team Wins")
    /\ (prediction_label res <> 1 -> prediction_text res = "Batting Team Loses")
    /\ (proba_in_range (pipeline model) ->
        probability (win_probability res) /\ probability (loss_probability res)).
Proof.
  unfold predict_match.
  destruct (load_model fs p w) as [w1 [model|e]]; [|discriminate].
  destruct (first_missing d) as [field|] eqn:F; [discriminate|].
  rewrite (reorder_single d (first_missing_none d F)).
  destruct (predict (pipeline model) (frame_of d)) as [labels|e] eqn:P; [|discriminate].
  destruct labels as [|label labels]; [discriminate|]. cbn [index nth_error].
  destruct (predict_proba (pipeline model) (frame_of d)) as [probs|e] eqn:Q;
    [|discriminate].
  destruct probs as [|proba probs]; [discriminate|]. cbn [index nth_error].
  unfold result_of, index.
  destruct (nth_error proba 0) as [loss|] eqn:N0; [|discriminate].
  destruct (nth_error proba 1) as [win|] eqn:N1; [|discriminate].
  intros H. injection H as _ <-. cbn [fst snd].
  exists model, labels, probs, proba, win, loss.
  cbn [prediction_label win_probability loss_probability prediction_text].
  split; auto. split; auto. split; auto. split; auto. split; auto.
  split; auto. split; auto. unfold text_of. split; [|split].
  - intros ->. reflexivity.
  - intros N. destruct (Z.eqb_spec label 1); [contradiction|reflexivity].
  - intros R. split; apply round_nd_probability.
    + apply (R (frame_of d) (proba :: probs) proba); auto.
      * left. reflexivity.
      * eapply nth_error_In; eauto.
    + apply (R (frame_of d) (proba :: probs) proba); auto.
      * left. reflexivity.
      * eapply nth_error_In; eauto.
Qed.

Lemma predict_match_result_witness :
  let run := predict_match sample_storage sample_input "model.pkl" initial_world in
  exists res,
    snd run = Ok res
    /\ exists model labels probs proba win loss,
    snd (load_model sample_storage "model.pkl" initial_world) = Ok model
    /\ predict (pipeline model) (frame_of sample_input)
       = Ok (prediction_label res :: labels)
    /\ predict_proba (pipeline model) (frame_of sample_input) = Ok (proba :: probs)
    /\ nth_error proba 0 = Some loss
    /\ nth_error proba 1 = Some win
    /\ win_probability res = round_nd 4 win
    /\ loss_probability res = round_nd 4 loss
    /\ (prediction_label res = 1 -> prediction_text res = "Batting Team Wins")
    /\ (prediction_label res <> 1 -> prediction_text res = "Batting Team Loses")
    /\ (proba_in_range (pipeline model) ->
        probability (win_probability res) /\ probability (loss_probability res)).
Proof.
  eexists. split; [vm_compute; reflexivity|].
  eapply (predict_match_result sample_storage sample_input "model.pkl" initial_world).
  vm_compute. reflexivity.
Defined.

(** ** Batches *)

(** The result built from one label and its probability row. *)
Definition result_row (pred : Z) (proba : list float) : PredictionResult :=
  {| prediction_label := pred;
     win_probability := round_nd 4 (nth 1 proba NaN);
     loss_probability := round_nd 4 (nth 0 proba NaN);
     prediction_text := text_of pred |}.

Lemma index_nth (l : list float) (i : nat) :
  (i < List.length l)%nat -> index l i = Ok (nth i l NaN).
Proof.
  intros L. unfold index.
  destruct (nth_error l i) eqn:E.
  - rewrite (nth_error_nth l i NaN E). reflexivity.
  - apply nth_error_None in E. lia.
Qed.

Lemma batch_results_zip (predictions : list Z) (probabilities : list (list float)) :
  Forall (fun proba => (2 <= List.length proba)%nat) probabilities ->
  batch_results predictions probabilities
  = Ok (map (fun pp => result_row (fst pp) (snd pp))
            (combine predictions probabilities)).
Proof.
  revert probabilities.
  induction predictions as [|pred ps IH]; intros [|proba qs] F; try reflexivity.
  inversion F as [|? ? L F']; subst. cbn [batch_results combine map fst snd].
  rewrite (index_nth proba 1), (index_nth proba 0) by lia.
  rewrite (IH qs F'). reflexivity.
Qed.

(** The contract columns that none of the dicts has. *)
Definition absent_everywhere (l : list dict) : list string :=
  filter (fun c => negb (existsb (fun d => contains d c) l)) feature_columns.

Lemma in_frame_columns (l : list dict) (c : string) :
  existsb (String.eqb c) (frame_columns l) = existsb (fun d => contains d c) l.
Proof.
  apply eq_true_iff_eq. rewrite existsb_eqb_In, frame_columns_In, existsb_exists.
  split; intros [d [I K]]; exists d; split; auto; apply contains_keys; auto.
Qed.

Lemma select_absent (l : list dict) :
  filter (fun c => negb (existsb (String.eqb c) (columns (DataFrame_of l))))
         feature_columns
  = absent_everywhere l.
Proof.
  unfold absent_everywhere. apply filter_ext. intros c.
  cbn [columns DataFrame_of]. rewrite in_frame_columns. reflexivity.
Qed.

(** The frame [batch_predict] builds when every column occurs in some
    dict: one row per dict, a NaN cell where a dict lacks the column. *)
Definition batch_frame (l : list dict) : DataFrame :=
  {| columns := feature_columns;
     data := map (fun d => map (cell_of d) feature_columns) l |}.

Lemma reorder_batch (l : list dict) :
  absent_everywhere l = [] -> reorder l = Ok (batch_frame l).
Proof.
  intros A. unfold reorder, select. rewrite select_absent, A.
  unfold batch_frame. f_equal. f_equal. cbn [data columns DataFrame_of].
  rewrite map_map. apply map_ext. intros d.
  apply map_ext_in. intros c I. apply cell_map.
  assert (K : In c (absent_everywhere l) \/ existsb (fun d => contains d c) l = true).
  { destruct (existsb (fun d0 => contains d0 c) l) eqn:E; auto.
    left. unfold absent_everywhere. apply filter_In. rewrite E. auto. }
  rewrite A in K. destruct K as [[]|K].
  rewrite <- in_frame_columns in K. apply existsb_eqb_In. exact K.
Qed.

Lemma reorder_batch_missing (l : list dict) :
  absent_everywhere l <> [] -> reorder l = Raise (KeyError (absent_everywhere l)).
Proof.
  intros A. unfold reorder, select. rewrite select_absent.
  destruct (absent_everywhere l); [congruence|reflexivity].
Qed.

(** X18.  [batch_predict] does not validate dict by dict.  It raises
    KeyError, after loading the model and without calling the
    estimator, exactly when some contract column occurs in none of the
    dicts (an empty list included), and the error names all such
    columns.  A dict that lacks a column another dict has is not
    rejected: its cell is NaN in the frame given to the estimator. *)
Theorem batch_predict_missing_columns (fs : Storage) (l : list dict) (p : string)
        (w w1 : World) (model : Handle) :
  load_model fs p w = (w1, Ok model) ->
  (absent_everywhere l <> [] ->
   batch_predict fs l p w = (w1, Raise (KeyError (absent_everywhere l))))
  /\ (l = [] -> absent_everywhere l = feature_columns)
  /\ (absent_everywhere l = [] ->
      reorder l = Ok (batch_frame l)
      /\ In (EvPredict (hid model) (batch_frame l))
            (events (fst (batch_predict fs l p w)))
      /\ forall d c, In d l -> In c feature_columns -> contains d c = false ->
                     cell_of d c = VFloat NaN).
Proof.
  intros L. split; [|split].
  - intros A. unfold batch_predict. rewrite L, (reorder_batch_missing l A). reflexivity.
  - intros ->. reflexivity.
  - intros A. split; [apply reorder_batch; exact A|]. split.
    + unfold batch_predict. rewrite L, (reorder_batch l A).
      assert (E : forall w', In (EvPredict (hid model) (batch_frame l))
                                (events (log (EvPredict (hid model) (batch_frame l)) w'))).
      { intros w'. cbn. apply in_or_app. right. left. reflexivity. }
      destruct (predict (pipeline model) (batch_frame l)); [|apply E].
      destruct (predict_proba (pipeline model) (batch_frame l)); cbn [fst];
        cbn; apply in_or_app; left; apply in_or_app; right; left; reflexivity.
    + intros d c _ _ C. unfold cell_of. unfold contains in C.
      destruct (get d c); [discriminate|reflexivity].
Qed.

Lemma batch_predict_missing_columns_witness :
  let l := [AppTheory.input_without_venue_city] in
  let w1 := loaded_world in
  (absent_everywhere l <> [] ->
   batch_predict sample_storage l "model.pkl" initial_world
   = (w1, Raise (KeyError (absent_everywhere l))))
  /\ (l = [] -> absent_everywhere l = feature_columns)
  /\ (absent_everywhere l = [] ->
      reorder l = Ok (batch_frame l)
      /\ In (EvPredict 0 (batch_frame l))
            (events (fst (batch_predict sample_storage l "model.pkl" initial_world)))
      /\ forall d c, In d l -> In c feature_columns -> contains d c = false ->
                     cell_of d c = VFloat NaN).
Proof.
  apply (batch_predict_missing_columns
           sample_storage [AppTheory.input_without_venue_city] "model.pkl"
           initial_world loaded_world
           {| hid := 0; pipeline := sample_pipeline |}).
  reflexivity.
Defined.

Example batch_without_venue_city :
  batch_predict sample_storage [AppTheory.input_without_venue_city] "model.pkl"
                initial_world
  = (loaded_world, Raise (KeyError ["venue"; "city"])).
Proof. vm_compute. reflexivity. Qed.

(** X19.  With every column present in some dict and an estimator that
    returns its labels and probability rows (each row with at least two
    entries), [batch_predict] calls [predict] and [predict_proba] once
    each on the whole frame and returns the results in input order:
    result [i] has label [i] and the rounded entries of probability row
    [i].  The results are as many as the shorter of the two outputs, so
    with one label and one row per dict as many as the dicts. *)
Theorem batch_predict_results (fs : Storage) (l : list dict) (p : string)
        (w w1 : World) (model : Handle)
        (predictions : list Z) (probabilities : list (list float)) :
  load_model fs p w = (w1, Ok model) ->
  absent_everywhere l = [] ->
  predict (pipeline model) (batch_frame l) = Ok predictions ->
  predict_proba (pipeline model) (batch_frame l) = Ok probabilities ->
  Forall (fun proba => (2 <= List.length proba)%nat) probabilities ->
  exists w' results,
    batch_predict fs l p w = (w', Ok results)
    /\ events w' = events w1 ++ [EvPredict (hid model) (batch_frame l);
                                 EvPredictProba (hid model) (batch_frame l)]
    /\ results = map (fun pp => result_row (fst pp) (snd pp))
                     (combine predictions probabilities)
    /\ List.length results
       = Nat.min (List.length predictions) (List.length probabilities)
    /\ (List.length predictions = List.length l ->
        List.length probabilities = List.length l ->
        List.length results = List.length l)
    /\ (forall i res, nth_error results i = Some res ->
          nth_error predictions i = Some (prediction_label res)
          /\ exists proba, nth_error probabilities i = Some proba
                           /\ res = result_row (prediction_label res) proba).
Proof.
  intros L A P Q F. unfold batch_predict.
  rewrite L, (reorder_batch l A), P, Q, (batch_results_zip _ _ F).
  eexists _, _. split; [reflexivity|]. split.
  { cbn. rewrite <- app_assoc. reflexivity. }
  split; [reflexivity|].
  assert (Len : List.length (map (fun pp => result_row (fst pp) (snd pp))
                                 (combine predictions probabilities))
                = Nat.min (List.length predictions) (List.length probabilities)).
  { rewrite length_map, length_combine. reflexivity. }
  split; [exact Len|]. split; [intros E1 E2; rewrite Len; lia|].
  intros i res N. rewrite nth_error_map in N.
  destruct (nth_error (combine predictions probabilities) i) as [[pred proba]|] eqn:E;
    [|discriminate].
  cbn in N. injection N as <-. cbn [prediction_label result_row].
  clear - E. revert probabilities i E.
  induction predictions as [|x xs IH]; intros [|y ys] [|i] E; try discriminate.
  - cbn in E. injection E as E1 E2. subst x y.
    split; [reflexivity|]. exists proba. split; reflexivity.
  - cbn in E. cbn [nth_error]. apply IH. exact E.
Qed.

Lemma batch_predict_results_witness :
  let l := [sample_input; sample_input] in
  exists w' results,
    batch_predict sample_storage l "model.pkl" initial_world = (w', Ok results)
    /\ events w' = events loaded_world
                     ++ [EvPredict 0 (batch_frame l); EvPredictProba 0 (batch_frame l)]
    /\ results = map (fun pp => result_row (fst pp) (snd pp))
                     (combine [1; 1] [[Fin (1 # 4); Fin (3 # 4)];
                                      [Fin (1 # 4); Fin (3 # 4)]])
    /\ List.length results = Nat.min 2 2
    /\ (2%nat = List.length l -> 2%nat = List.length l ->
        List.length results = List.length l)
    /\ (forall i res, nth_error results i = Some res ->
          nth_error [1; 1] i = Some (prediction_label res)
          /\ exists proba,
               nth_error [[Fin (1 # 4); Fin (3 # 4)]; [Fin (1 # 4); Fin (3 # 4)]] i
               = Some proba
               /\ res = result_row (prediction_label res) proba).
Proof.
  apply (batch_predict_results
           sample_storage [sample_input; sample_input] "model.pkl"
           initial_world loaded_world {| hid := 0; pipeline := sample_pipeline |}
           [1; 1] [[Fin (1 # 4); Fin (3 # 4)]; [Fin (1 # 4); Fin (3 # 4)]]).
  - reflexivity.
  - reflexivity.
  - reflexivity.
  - reflexivity.
  - repeat constructor.
Defined.

(** An estimator that answers with one label and one probability row
    per row of the frame. *)
Definition one_per_row (pl : Pipeline) : Prop :=
  (forall df labels, predict pl df = Ok labels ->
                     List.length labels = List.length (data df))
  /\ (forall df probs, predict_proba pl df = Ok probs ->
                       List.length probs = List.length (data df)).

Lemma absent_everywhere_single (d : dict) :
  (forall c, In c feature_columns -> contains d c = true) ->
  absent_everywhere [d] = [].
Proof.
  intros H. unfold absent_everywhere. apply filter_none.
  intros c I. cbn. rewrite (H c I). reflexivity.
Qed.

(** X20.  For one dict that has all nine columns and an estimator that
    answers once per row, [batch_predict] on the one-element list and
    [predict_match] leave the same world (same storage and estimator
    calls) and end alike: with the same result, the batch as a
    one-element list, or with the same exception.  The one difference
    is an empty probability row: [predict_match] reads entry 0 first
    and reports index 0 out of bounds, [batch_predict] reads entry 1
    first and reports index 1. *)
Theorem batch_of_one_agrees (fs : Storage) (d : dict) (p : string) (w : World) :
  (forall c, In c feature_columns -> contains d c = true) ->
  (forall model, snd (load_model fs p w) = Ok model -> one_per_row (pipeline model)) ->
  fst (batch_predict fs [d] p w) = fst (predict_match fs d p w)
  /\ match snd (predict_match fs d p w), snd (batch_predict fs [d] p w) with
     | Ok res, Ok results => results = [res]
     | Raise e, Raise e' =>
         e' = e
         \/ ((exists model,
                 snd (load_model fs p w) = Ok model
                 /\ predict_proba (pipeline model) (frame_of d) = Ok [[]])
             /\ e = out_of_bounds 0 0 /\ e' = out_of_bounds 1 0)
     | _, _ => False
     end.
Proof.
  intros H O. unfold batch_predict, predict_match.
  destruct (load_model fs p w) as [w1 [model|e]]; [|cbn; auto].
  destruct (O model eq_refl) as [O1 O2].
  assert (F : first_missing d = None).
  { destruct (first_missing d) as [field|] eqn:F; auto.
    apply first_missing_some in F. destruct F as [I C].
    rewrite (H _ I) in C. discriminate. }
  rewrite F, (reorder_single d H).
  destruct (predict (pipeline model) (frame_of d)) as [labels|e] eqn:P; [|cbn; auto].
  apply O1 in P. destruct labels as [|label [|]]; try discriminate P.
  cbn [index nth_error].
  destruct (predict_proba (pipeline model) (frame_of d)) as [probs|e] eqn:Q;
    [|cbn; auto].
  pose proof (O2 _ _ Q) as Lq. destruct probs as [|proba [|]]; try discriminate Lq.
  cbn [index nth_error fst snd batch_results]. split; [reflexivity|].
  unfold result_of, index.
  destruct proba as [|a [|b rest]]; cbn [nth_error List.length].
  - right. split; [exists model; auto|]. split; reflexivity.
  - left. reflexivity.
  - reflexivity.
Qed.

Lemma batch_of_one_agrees_witness :
  fst (batch_predict sample_storage [sample_input] "model.pkl" initial_world)
  = fst (predict_match sample_storage sample_input "model.pkl" initial_world)
  /\ match snd (predict_match sample_storage sample_input "model.pkl" initial_world),
           snd (batch_predict sample_storage [sample_input] "model.pkl" initial_world)
     with
     | Ok res, Ok results => results = [res]
     | Raise e, Raise e' =>
         e' = e
         \/ ((exists model,
                 snd (load_model sample_storage "model.pkl" initial_world) = Ok model
                 /\ predict_proba (pipeline model) (frame_of sample_input) = Ok [[]])
             /\ e = out_of_bounds 0 0 /\ e' = out_of_bounds 1 0)
     | _, _ => False
     end.
Proof.
  apply (batch_of_one_agrees sample_storage sample_input "model.pkl" initial_world).
  - intros c I. simpl in I.
    repeat (destruct I as [<-|I]; [reflexivity|]). destruct I.
  - intros model E. vm_compute in E. injection E as <-.
    split; intros df l K; cbn in K; injection K as <-; apply length_map.
Defined.

(** An estimator whose probability rows are empty. *)
Definition empty_rows_pipeline : Pipeline :=
  {| predict := fun df => Ok (map (fun _ => 1) (data df));
     predict_proba := fun df => Ok (map (fun _ => []) (data df)) |}.

Example empty_row_errors :
  let fs := fun _ : string => Present (Ok empty_rows_pipeline) in
  snd (predict_match fs sample_input "model.pkl" initial_world)
  = Raise (IndexError "index 0 is out of bounds for axis 0 with size 0")
  /\ snd (batch_predict fs [sample_input] "model.pkl" initial_world)
     = Raise (IndexError "index 1 is out of bounds for axis 0 with size 0").
Proof. split; vm_compute; reflexivity. Qed.

End PredictorFacts.

(* ================================================================== *)
(** * More on the request handler *)
(* ================================================================== *)

Module HandlerFacts.
Import Py Predict PredictTheory AppTheory.

Lemma keys_set_present (d : dict) (k : string) (v : value) :
  contains d k = true -> keys (set d k v) = keys d.
Proof.
  unfold contains. induction d as [|[k' v'] d IH]; simpl; [discriminate|].
  destruct (String.eqb k' k) eqn:E; simpl; auto.
  intros C. rewrite IH; auto.
Qed.

Lemma validate_numeric_keys (env : App.Env) (fields : list string) :
  forall data data',
    App.validate_numeric env fields data = App.Next data' ->
    keys data' = keys data.
Proof.
  induction fields as [|f fields IH]; simpl; intros data data' H.
  - injection H as <-. reflexivity.
  - unfold App.item in H. destruct (get data f) as [v|] eqn:G; [|discriminate].
    destruct (py_float (App.parse_float env) v) as [x|e].
    2:{ destruct e; discriminate. }
    destruct (ltb x (of_Z 0)); [discriminate|].
    rewrite (IH _ _ H). apply keys_set_present. unfold contains. rewrite G. reflexivity.
Qed.

Lemma validate_numeric_accepts (env : App.Env) (fields : list string) :
  NoDup fields ->
  forall data,
    (forall f, In f fields ->
       exists v x, get data f = Some v
                   /\ py_float (App.parse_float env) v = Ok x
                   /\ ltb x (of_Z 0) = false) ->
    exists data', App.validate_numeric env fields data = App.Next data'.
Proof.
  induction fields as [|f fields IH]; intros ND data H; simpl; [eauto|].
  inversion ND as [|? ? NI ND']; subst.
  destruct (H f (or_introl eq_refl)) as (v & x & G & P & L).
  unfold App.item. rewrite G, P, L. apply IH; auto.
  intros g I. destruct (H g (or_intror I)) as (v' & x' & G' & P' & L').
  exists v', x'. split; auto. rewrite get_set_other; auto.
  intros E. subst g. contradiction.
Qed.

(** X21.  The handler reaches [predict_match] exactly for a non-empty
    request with all nine fields that breaks none of the rules (teams
    differ, every numeric field converts to a float that is not
    negative, overs_played not above 20, total_wickets not above 10).
    The dict passed on has the same keys in the same order, the five
    numeric fields replaced by their floats and every other value
    untouched. *)
Theorem request_accepted_iff (env : App.Env) (data : dict) :
  ((exists data', App.validate env data = App.Next data')
   <-> (data <> [] /\ App.missing_fields data = [] /\ ~ violates env data))
  /\ (forall data',
        App.validate env data = App.Next data' ->
        keys data' = keys data
        /\ (forall f, In f App.numeric_fields ->
              exists v x, get data f = Some v
                          /\ py_float (App.parse_float env) v = Ok x
                          /\ get data' f = Some (VFloat x))
        /\ (forall k, ~ In k App.numeric_fields -> get data' k = get data k)).
Proof.
  assert (Shape : forall data',
             App.validate env data = App.Next data' ->
             data <> [] /\ App.missing_fields data = []
             /\ exists d1, App.validate_numeric env App.numeric_fields data = App.Next d1
                           /\ d1 = data').
  { intros data' V. unfold App.validate in V.
    destruct data as [|kv rest]; [discriminate|].
    destruct (App.missing_fields (kv :: rest)); [|discriminate].
    split; [discriminate|]. split; auto.
    destruct (App.validate_numeric env App.numeric_fields (kv :: rest))
      as [r|e|d1]; try discriminate.
    exists d1. split; auto.
    unfold App.validate_ranges in V.
    destruct (App.exceeds d1 "overs_played" 20) as [[|]|]; try discriminate.
    destruct (App.exceeds d1 "total_wickets" 10) as [[|]|]; try discriminate.
    destruct (App.item d1 "batting_team"); try discriminate.
    destruct (App.item d1 "bowling_team"); try discriminate.
    destruct (py_eq a a0); try discriminate. congruence. }
  split.
  - split.
    + intros [data' V]. destruct (Shape _ V) as (NE & M & _).
      split; auto. split; auto. intros Vi.
      destruct (validate_next _ _ _ V) as (A & B & R).
      destruct (A "overs_played") as (vo & xo & Go & Po & Lo & Do); [simpl; auto 10|].
      destruct (A "total_wickets") as (vw & xw & Gw & Pw & Lw & Dw); [simpl; auto 10|].
      unfold App.validate_ranges, App.exceeds, App.item in R.
      rewrite Do, Dw in R. simpl in R.
      rewrite (B "batting_team"), (B "bowling_team") in R
        by (simpl; intuition discriminate).
      destruct Vi as [(a & b & Ga & Gb & Q)
                     |[(f & v & e & I & G & P)
                      |[(f & v & x & I & G & P & L)
                       |[(v & x & G & P & L)|(v & x & G & P & L)]]]].
      * rewrite Ga, Gb, Q in R.
        destruct (gtb xo (of_Z 20)); try discriminate.
        destruct (gtb xw (of_Z 10)); discriminate.
      * destruct (A f I) as (v' & x' & G' & P' & _). congruence.
      * destruct (A f I) as (v' & x' & G' & P' & L' & _).
        assert (x' = x) by congruence. subst. congruence.
      * assert (xo = x) by congruence. subst. rewrite L in R. discriminate.
      * assert (xw = x) by congruence. subst. rewrite L in R.
        destruct (gtb xo (of_Z 20)); discriminate.
    + intros (NE & M & NV).
      assert (C : forall c, In c App.required_fields -> contains data c = true).
      { intros c I. apply missing_none_contains; auto. }
      assert (Num : forall f, In f App.numeric_fields ->
                 exists v x, get data f = Some v
                             /\ py_float (App.parse_float env) v = Ok x
                             /\ ltb x (of_Z 0) = false).
      { intros f I.
        assert (Cf : contains data f = true).
        { apply C. simpl in *. intuition (subst; auto 10). }
        unfold contains in Cf. destruct (get data f) as [v|] eqn:G; [|discriminate].
        destruct (py_float (App.parse_float env) v) as [x|e] eqn:P.
        - exists v, x. split; auto. split; auto.
          destruct (ltb x (of_Z 0)) eqn:L; auto.
          exfalso. apply NV. right; right; left. exists f, v, x. auto.
        - exfalso. apply NV. right; left. exists f, v, e. auto. }
      destruct (validate_numeric_accepts env _ numeric_fields_NoDup data Num)
        as [d1 V1].
      destruct (validate_numeric_next env _ numeric_fields_NoDup _ _ V1) as [A B].
      exists d1. unfold App.validate.
      destruct data as [|kv rest]; [congruence|]. rewrite M, V1.
      destruct (A "overs_played") as (vo & xo & Go & Po & Lo & Do); [simpl; auto 10|].
      destruct (A "total_wickets") as (vw & xw & Gw & Pw & Lw & Dw); [simpl; auto 10|].
      unfold App.validate_ranges, App.exceeds, App.item.
      rewrite Do, Dw. simpl.
      rewrite (B "batting_team"), (B "bowling_team")
        by (simpl; intuition discriminate).
      pose proof (C "batting_team") as C1. pose proof (C "bowling_team") as C2.
      unfold contains in C1, C2.
      destruct (get (kv :: rest) "batting_team") as [a|] eqn:Ga;
        [|discriminate C1; simpl; auto 10].
      destruct (get (kv :: rest) "bowling_team") as [b|] eqn:Gb;
        [|discriminate C2; simpl; auto 10].
      destruct (gtb xo (of_Z 20)) eqn:Lo2.
      { exfalso. apply NV. right; right; right; left. exists vo, xo. auto. }
      destruct (gtb xw (of_Z 10)) eqn:Lw2.
      { exfalso. apply NV. right; right; right; right. exists vw, xw. auto. }
      destruct (py_eq a b) eqn:Q.
      { exfalso. apply NV. left. exists a, b. auto. }
      reflexivity.
  - intros data' V. destruct (Shape _ V) as (_ & _ & d1 & V1 & <-).
    destruct (validate_numeric_next env _ numeric_fields_NoDup _ _ V1) as [A B].
    split; [apply (validate_numeric_keys _ _ _ _ V1)|]. split; auto.
    intros f I. destruct (A f I) as (v & x & G & P & _ & D). eauto.
Qed.

Lemma server_error_code (env : App.Env) (e : Exn) :
  App.code (App.server_error env e) = 500
  /\ exists m det, App.body (App.server_error env e) = App.BError m None (Some det).
Proof. destruct e; simpl; eauto. Qed.

(** X22.  What the view function of [/api/predict] answers.  An
    OPTIONS request gets the empty 204 answer whatever body it has,
    with no change to the world.  A POST with a JSON object gets 200,
    400 or 500: a 200 carries a prediction, a 400 or 500 an error
    message; a 400 is sent without any change to the world (no storage
    access, no estimator call), and every 500 carries details. *)
Theorem handler_response_codes (env : App.Env) (fs : Storage)
        (method : App.Method) (data : dict) (w : World) :
  let w' := fst (App.api_predict env fs method data w) in
  let reply := snd (App.api_predict env fs method data w) in
  match method with
  | App.OPTIONS => reply = App.Preflight /\ App.reply_code reply = 204 /\ w' = w
  | App.POST =>
      exists r,
        reply = App.Json r
        /\ (w', r) = App.predict env fs data w
        /\ ((App.code r = 200
             /\ exists text win loss conf echo,
                  App.body r = App.BSuccess text win loss conf echo)
            \/ (App.code r = 400 /\ w' = w
                /\ exists m req, App.body r = App.BError m req None)
            \/ (App.code r = 500
                /\ exists m det, App.body r = App.BError m None (Some det)))
  end.
Proof.
  destruct method; cbn [App.api_predict]; [|auto].
  unfold App.predict.
  destruct (App.validate env data) as [r|e|data'] eqn:V; cbn [fst snd].
  - exists r. split; [reflexivity|]. split; [reflexivity|].
    right; left. destruct (validate_return _ _ _ V) as [C B]. auto.
  - eexists. split; [reflexivity|]. split; [reflexivity|].
    right; right. apply server_error_code.
  - destruct (predict_match fs data' (App.MODEL_PATH env) w) as [w' [res|e]];
      cbn [fst snd]; eexists; (split; [reflexivity|]); (split; [reflexivity|]).
    + left. split; [reflexivity|]. unfold App.success. cbn. eauto 10.
    + right; right. apply server_error_code.
Qed.

(** The preflight request of a browser, and a POST with eleven
    wickets. *)
Example preflight_reply :
  App.api_predict sample_env sample_storage App.OPTIONS input_eleven_wickets
                  initial_world
  = (initial_world, App.Preflight)
  /\ App.api_predict sample_env sample_storage App.POST input_eleven_wickets
                     initial_world
     = (initial_world,
        App.Json (App.bad_request "total_wickets cannot exceed 10")).
Proof. split; vm_compute; reflexivity. Qed.

(** The answer of the [except FileNotFoundError] clause. *)
Definition model_not_found (env : App.Env) : App.Response :=
  {| App.body :=
       App.BError "Model file not found. Please train the model first." None
                  (Some ("Expected model at: " ++ App.MODEL_PATH env)%string);
     App.code := 500 |}.

(** X23.  A valid request cannot be served without the model.  With no
    file under MODEL_PATH the answer is 500 "Model file not found.
    Please train the model first." with the expected path, after one
    existence check.  With a file that does not deserialise the answer
    comes after the check and the load and is a 500 as well:
    "Prediction failed" with details, unless the exception is itself a
    FileNotFoundError, which is answered exactly like a missing file.
    In both cases the estimator is not called and the cache stays as it
    was. *)
Theorem handler_without_model (env : App.Env) (fs : Storage) (data data' : dict)
        (w : World) :
  App.validate env data = App.Next data' ->
  cache_miss w (App.MODEL_PATH env) ->
  (fs (App.MODEL_PATH env) = Absent ->
   App.predict env fs data w
   = (log (EvExists (App.MODEL_PATH env)) w, model_not_found env))
  /\ (forall e, fs (App.MODEL_PATH env) = Present (Raise e) ->
        exists r,
          App.predict env fs data w
          = (log (EvLoad (App.MODEL_PATH env)) (log (EvExists (App.MODEL_PATH env)) w),
             r)
          /\ App.code r = 500
          /\ ((exists m, e = FileNotFoundError m) -> r = model_not_found env)
          /\ ((forall m, e <> FileNotFoundError m) ->
              exists det, App.body r = App.BError "Prediction failed" None (Some det))).
Proof.
  intros V M. split.
  - intros F. unfold App.predict, predict_match. rewrite V.
    rewrite (load_model_miss _ _ _ M). unfold load_from_storage. rewrite F.
    reflexivity.
  - intros e F. unfold App.predict, predict_match. rewrite V.
    rewrite (load_model_miss _ _ _ M). unfold load_from_storage. rewrite F.
    eexists. split; [reflexivity|].
    split; [destruct e; reflexivity|]. split.
    + intros [m ->]. reflexivity.
    + intros N. destruct e; try (eexists; reflexivity). destruct (N msg). reflexivity.
Qed.

Lemma handler_without_model_witness :
  let env := {| App.MODEL_PATH := "missing.pkl"; App.parse_float := fun _ => None |} in
  let data := sample_input in
  (sample_storage "missing.pkl" = Absent ->
   App.predict env sample_storage data initial_world
   = (log (EvExists "missing.pkl") initial_world, model_not_found env))
  /\ (forall e, sample_storage "missing.pkl" = Present (Raise e) ->
        exists r,
          App.predict env sample_storage data initial_world
          = (log (EvLoad "missing.pkl") (log (EvExists "missing.pkl") initial_world),
             r)
          /\ App.code r = 500
          /\ ((exists m, e = FileNotFoundError m) -> r = model_not_found env)
          /\ ((forall m, e <> FileNotFoundError m) ->
              exists det, App.body r = App.BError "Prediction failed" None (Some det))).
Proof.
  eapply (handler_without_model
            {| App.MODEL_PATH := "missing.pkl"; App.parse_float := fun _ => None |}
            sample_storage sample_input _ initial_world).
  - vm_compute. reflexivity.
  - left. reflexivity.
Defined.

(** A file whose deserialisation raises FileNotFoundError is answered
    like a missing file; only the load in the log tells them apart. *)
Example unreadable_like_missing :
  let env := {| App.MODEL_PATH := "model.pkl"; App.parse_float := fun _ => None |} in
  let broken := fun _ : string =>
                  Present (Raise (FileNotFoundError "No such file: part.npy")) in
  let absent := fun _ : string => Absent in
  snd (App.predict env broken sample_input initial_world)
  = snd (App.predict env absent sample_input initial_world)
  /\ events (fst (App.predict env broken sample_input initial_world))
     = [EvExists "model.pkl"; EvLoad "model.pkl"]
  /\ events (fst (App.predict env absent sample_input initial_world))
     = [EvExists "model.pkl"].
Proof. repeat split; vm_compute; reflexivity. Qed.

(** The storage part of the log. *)
Definition is_storage (e : Event) : bool :=
  match e with
  | EvExists _ | EvLoad _ => true
  | _ => false
  end.

Definition storage_events (w : World) : list Event :=
  filter is_storage (events w).

Lemma storage_events_estimator (w : World) (m : nat) (df : DataFrame) :
  storage_events (log (EvPredict m df) w) = storage_events w
  /\ storage_events (log (EvPredictProba m df) w) = storage_events w.
Proof.
  unfold storage_events, log. cbn [events]. rewrite !filter_app. cbn.
  rewrite !app_nil_r. auto.
Qed.

Lemma predict_match_hit (fs : Storage) (d : dict) (p : string) (w : World) (h : Handle) :
  cached_model w = Some h -> model_path w = Some p ->
  let w' := fst (predict_match fs d p w) in
  storage_events w' = storage_events w
  /\ cached_model w' = Some h
  /\ model_path w' = Some p.
Proof.
  intros C P. unfold predict_match. rewrite (load_model_hit fs p w h C P).
  destruct (first_missing d); [cbn; auto|].
  destruct (reorder [d]) as [df|e]; [|cbn; auto].
  destruct (storage_events_estimator w (hid h) df) as [S1 _].
  destruct (predict (pipeline h) df) as [labels|e]; [|cbn [fst]; auto].
  destruct (index labels 0) as [label|e]; [|cbn [fst]; auto].
  destruct (storage_events_estimator (log (EvPredict (hid h) df) w) (hid h) df)
    as [_ S2].
  rewrite S1 in S2.
  destruct (predict_proba (pipeline h) df) as [probs|e]; [|cbn [fst]; auto].
  destruct (index probs 0) as [proba|e]; cbn [fst]; auto.
Qed.

(** X24.  Once the model was loaded at startup, serving a request never
    goes to storage: whatever the request and whatever has happened to
    the file since, the handler performs no existence check and no
    load, and the cache still holds the same handle under MODEL_PATH
    afterwards. *)
Theorem requests_after_startup (env : App.Env) (fs : Storage) (pl : Pipeline)
        (w0 : World) :
  fs (App.MODEL_PATH env) = Present (Ok pl) ->
  let w := App.startup env fs w0 in
  exists h,
    cached_model w = Some h
    /\ model_path w = Some (App.MODEL_PATH env)
    /\ forall fs' data,
         let w' := fst (App.predict env fs' data w) in
         storage_events w' = storage_events w
         /\ cached_model w' = Some h
         /\ model_path w' = Some (App.MODEL_PATH env).
Proof.
  intros F w.
  assert (H : exists h, cached_model w = Some h
                        /\ model_path w = Some (App.MODEL_PATH env)).
  { unfold w, App.startup.
    destruct (ModelStoreFacts.cache_holds_or_miss w0 (App.MODEL_PATH env))
      as [[h [C P]]|M].
    - rewrite (load_model_hit fs _ w0 h C P). eauto.
    - rewrite (load_model_miss_loads _ _ _ _ F M). cbn. eauto. }
  destruct H as [h [C P]]. exists h. split; auto. split; auto.
  intros fs' data. unfold App.predict.
  destruct (App.validate env data) as [r|e|data']; cbn [fst]; auto.
  pose proof (predict_match_hit fs' data' _ w h C P) as K.
  destruct (predict_match fs' data' (App.MODEL_PATH env) w) as [w' [res|e]];
    cbn [fst] in *; exact K.
Qed.

Lemma requests_after_startup_witness :
  let w := App.startup sample_env sample_storage initial_world in
  exists h,
    cached_model w = Some h
    /\ model_path w = Some (App.MODEL_PATH sample_env)
    /\ forall fs' data,
         let w' := fst (App.predict sample_env fs' data w) in
         storage_events w' = storage_events w
         /\ cached_model w' = Some h
         /\ model_path w' = Some (App.MODEL_PATH sample_env).
Proof.
  apply (requests_after_startup sample_env sample_storage sample_pipeline
                                initial_world).
  reflexivity.
Defined.

(** ** The success response *)






End HandlerFacts.

(* ================================================================== *)
(** * backend/Data_cleaning_scripts/clean_data.py *)
(* ================================================================== *)

Module CleaningScript.
Import Py.

(** The CSV as a frame: column labels, and rows of cells that may be
    missing. *)
Record Table : Type := mkTable {
  header : list string;
  body : list (list (option value))
}.

Definition columns_to_remove : list string :=
  ["match_id"; "date"; "match_type"; "event_name"; "gender"; "team_type";
   "method"; "match_number"].

Definition mem (c : string) (l : list string) : bool := existsb (String.eqb c) l.

(** [[col for col in columns_to_remove if col in df.columns]]. *)
Definition to_drop (t : Table) : list string :=
  filter (fun col => mem col (header t)) columns_to_remove.

(** The cells of a row under the labels that stay. *)
Fixpoint project (cols : list string) (labels : list string)
         (row : list (option value)) : list (option value) :=
  match labels, row with
  | l :: labels', c :: row' =>
      if mem l cols then project cols labels' row'
      else c :: project cols labels' row'
  | _, _ => []
  end.

(** [df.drop(columns=cols, errors='ignore')]. *)
Definition drop (cols : list string) (t : Table) : Table :=
  {| header := filter (fun l => negb (mem l cols)) (header t);
     body := map (project cols (header t)) (body t) |}.

Definition fill_cell (v : value) (c : option value) : option value :=
  match c with
  | Some x => Some x
  | None => Some v
  end.

(** [df.fillna(v)]. *)
Definition fillna (v : value) (t : Table) : Table :=
  {| header := header t; body := map (map (fill_cell v)) (body t) |}.

(** The script between reading and writing the CSV. *)
Definition clean (t : Table) : Table :=
  fillna (VStr "None") (drop (to_drop t) t).

(** [df.isnull().sum().sum()]. *)
Definition null_count (t : Table) : nat :=
  List.length (filter (fun c => match c with None => true | Some _ => false end)
                      (List.concat (body t))).

(** The cell of a row under a label (the first column of that label). *)
Fixpoint lookup (labels : list string) (row : list (option value)) (c : string)
  : option (option value) :=
  match labels, row with
  | l :: labels', x :: row' =>
      if String.eqb l c then Some x else lookup labels' row' c
  | _, _ => None
  end.

(** Every row has one cell per column. *)
Definition rectangular (t : Table) : Prop :=
  Forall (fun row => List.length row = List.length (header t)) (body t).

End CleaningScript.

Module CleaningScriptFacts.
Import Py CleaningScript.

Lemma mem_In (c : string) (l : list string) : mem c l = true <-> In c l.
Proof.
  unfold mem. rewrite existsb_exists. split.
  - intros [x [I E]]. apply String.eqb_eq in E. subst. auto.
  - intros I. exists c. split; auto. apply String.eqb_refl.
Qed.

Lemma mem_to_drop (t : Table) (l : string) :
  In l (header t) -> mem l (to_drop t) = mem l columns_to_remove.
Proof.
  intros I. apply eq_true_iff_eq. rewrite !mem_In. unfold to_drop.
  rewrite filter_In, mem_In. tauto.
Qed.

Lemma project_length (cols labels : list string) (row : list (option value)) :
  List.length row = List.length labels ->
  List.length (project cols labels row)
  = List.length (filter (fun l => negb (mem l cols)) labels).
Proof.
  revert row. induction labels as [|l labels IH]; intros [|c row] E;
    try discriminate; auto.
  simpl in *. destruct (mem l cols); simpl; auto.
Qed.

Lemma lookup_project (cols labels : list string) (row : list (option value))
      (c : string) :
  mem c cols = false ->
  lookup (filter (fun l => negb (mem l cols)) labels) (project cols labels row) c
  = lookup labels row c.
Proof.
  intros N. revert row. induction labels as [|l labels IH]; intros [|x row]; auto.
  - simpl. destruct (mem l cols); auto. simpl. destruct (filter _ labels); auto.
  - simpl. destruct (mem l cols) eqn:M; simpl.
    + destruct (String.eqb_spec l c) as [->|Ne]; [congruence|auto].
    + destruct (String.eqb l c); auto.
Qed.

Lemma lookup_map (f : option value -> option value) (labels : list string)
      (row : list (option value)) (c : string) :
  lookup labels (map f row) c = option_map f (lookup labels row c).
Proof.
  revert row. induction labels as [|l labels IH]; intros [|x row]; auto.
  simpl. destruct (String.eqb l c); auto.
Qed.

Lemma project_nothing (cols labels : list string) (row : list (option value)) :
  (forall l, In l labels -> mem l cols = false) ->
  List.length row = List.length labels ->
  project cols labels row = row.
Proof.
  revert row. induction labels as [|l labels IH]; intros [|x row] H E;
    try discriminate; auto.
  simpl. rewrite (H l) by (left; auto). f_equal. apply IH; auto.
  intros l' I. apply H. right. auto.
Qed.

Lemma kept_header (t : Table) :
  header (clean t)
  = filter (fun l => negb (mem l columns_to_remove)) (header t).
Proof.
  unfold clean, fillna, drop. cbn [header]. apply filter_ext_in.
  intros l I. rewrite mem_to_drop; auto.
Qed.

Lemma fill_cell_twice (v : value) (c : option value) :
  fill_cell v (fill_cell v c) = fill_cell v c.
Proof. destruct c; reflexivity. Qed.

(** A small ball-by-ball excerpt with two of the columns the script
    removes and two missing cells. *)
Definition sample_table : Table :=
  {| header := ["match_id"; "batting_team"; "date"; "wicket_kind"; "city"];
     body := [ [Some (VInt 1); Some (VStr "MI"); Some (VStr "2023-04-01"); None;
                Some (VStr "Mumbai")];
               [Some (VInt 1); Some (VStr "MI"); Some (VStr "2023-04-01");
                Some (VStr "bowled"); None] ] |}.

(** X26.  The cleaning script removes exactly the columns named in its
    list (those the frame has), keeps the other columns in their order
    with their cells, puts the string "None" into every missing cell,
    and leaves no missing cell; the frame stays rectangular, and
    running the script on its own output changes nothing. *)
Theorem cleaning_script_result (t : Table) :
  rectangular t ->
  header (clean t) = filter (fun l => negb (mem l columns_to_remove)) (header t)
  /\ (forall c, In c columns_to_remove -> ~ In c (header (clean t)))
  /\ rectangular (clean t)
  /\ List.length (body (clean t)) = List.length (body t)
  /\ null_count (clean t) = 0%nat
  /\ (forall i row c,
        nth_error (body t) i = Some row -> ~ In c columns_to_remove ->
        exists row',
          nth_error (body (clean t)) i = Some row'
          /\ lookup (header (clean t)) row' c
             = option_map (fill_cell (VStr "None")) (lookup (header t) row c))
  /\ clean (clean t) = clean t.
Proof.
  intros R. pose proof (kept_header t) as KH.
  assert (Rc : rectangular (clean t)).
  { unfold rectangular in *. rewrite KH. unfold clean, fillna, drop. cbn [body].
    rewrite map_map. apply Forall_forall. intros row' I.
    apply in_map_iff in I. destruct I as [row [<- I]].
    rewrite Forall_forall in R. rewrite length_map.
    rewrite (project_length _ _ _ (R row I)). f_equal.
    apply filter_ext_in. intros l Il. rewrite mem_to_drop; auto. }
  assert (Gone : forall c, In c columns_to_remove -> ~ In c (header (clean t))).
  { intros c I J. rewrite KH in J. apply filter_In in J. destruct J as [_ J].
    apply mem_In in I. rewrite I in J. discriminate. }
  split; [exact KH|]. split; [exact Gone|]. split; [exact Rc|].
  split. { unfold clean, fillna, drop. cbn [body]. rewrite !length_map. reflexivity. }
  split.
  { unfold null_count, clean, fillna. cbn [body].
    induction (body (drop (to_drop t) t)) as [|row rows IH]; [reflexivity|].
    cbn [map List.concat]. rewrite filter_app, length_app, IH.
    clear. induction row as [|c row IH]; [reflexivity|].
    destruct c; cbn; exact IH. }
  split.
  { intros i row c N NI. unfold clean, fillna, drop. cbn [body header].
    rewrite map_map, nth_error_map, N. cbn [option_map].
    eexists. split; [reflexivity|].
    assert (M : mem c (to_drop t) = false).
    { destruct (mem c (to_drop t)) eqn:E; auto. apply mem_In in E.
      unfold to_drop in E. apply filter_In in E. destruct E. contradiction. }
    rewrite lookup_map, (lookup_project _ _ _ _ M). reflexivity. }
  assert (D : to_drop (clean t) = []).
  { unfold to_drop. apply PredictTheory.filter_none. intros c I.
    destruct (mem c (header (clean t))) eqn:E; auto.
    apply mem_In in E. destruct (Gone c I E). }
  unfold clean at 1. rewrite D.
  destruct (clean t) as [h b] eqn:E. unfold fillna, drop. cbn [header body].
  f_equal.
  - apply FeatureEngineeringTheory.filter_all. reflexivity.
  - assert (Rb : Forall (fun row => List.length row = List.length h) b).
    { unfold rectangular in Rc. exact Rc. }
    assert (Fb : Forall (fun row => map (fill_cell (VStr "None")) row = row) b).
    { assert (Eb : b = body (clean t)) by (rewrite E; reflexivity).
      rewrite Eb. unfold clean, fillna. cbn [body]. apply Forall_forall.
      intros row I. apply in_map_iff in I. destruct I as [r0 [<- _]].
      rewrite map_map. apply map_ext. intros c. apply fill_cell_twice. }
    rewrite map_map. clear - Rb Fb.
    induction b as [|row b IH]; [reflexivity|].
    inversion Rb; inversion Fb; subst. cbn [map]. f_equal; auto.
    rewrite project_nothing; auto.
Qed.

Lemma cleaning_script_result_witness :
  let t := sample_table in
  header (clean t) = filter (fun l => negb (mem l columns_to_remove)) (header t)
  /\ (forall c, In c columns_to_remove -> ~ In c (header (clean t)))
  /\ rectangular (clean t)
  /\ List.length (body (clean t)) = List.length (body t)
  /\ null_count (clean t) = 0%nat
  /\ (forall i row c,
        nth_error (body t) i = Some row -> ~ In c columns_to_remove ->
        exists row',
          nth_error (body (clean t)) i = Some row'
          /\ lookup (header (clean t)) row' c
             = option_map (fill_cell (VStr "None")) (lookup (header t) row c))
  /\ clean (clean t) = clean t.
Proof.
  apply (cleaning_script_result sample_table).
  repeat constructor.
Defined.

Example clean_sample_table :
  clean sample_table
  = {| header := ["batting_team"; "wicket_kind"; "city"];
       body := [ [Some (VStr "MI"); Some (VStr "None"); Some (VStr "Mumbai")];
                 [Some (VStr "MI"); Some (VStr "bowled"); Some (VStr "None")] ] |}.
Proof. vm_compute. reflexivity. Qed.

End CleaningScriptFacts.

(* ================================================================== *)
(** * backend/app.py: the /api/health endpoint *)
(* ================================================================== *)

Module Health.
Import Py Predict.

Record Response : Type := mkHealth {
  status : string;
  model_loaded : bool;
  model_path : string;
  code : Z
}.

(** [os.path.exists(path)]. *)
Definition path_exists (fs : Storage) (path : string) : bool :=
  match fs path with
  | Absent => false
  | Present _ => true
  end.

(** [health()]: one existence check; the cache is not consulted. *)
Definition health (env : App.Env) (fs : Storage) (w : World) : World * Response :=
  let w := log (EvExists (App.MODEL_PATH env)) w in
  let model_exists := path_exists fs (App.MODEL_PATH env) in
  (w, {| status := if model_exists then "healthy" else "degraded";
         model_loaded := model_exists;
         model_path := App.MODEL_PATH env;
         code := 200 |}).

End Health.

Module HealthFacts.
Import Py Predict PredictTheory AppTheory.

(** X27.  The health endpoint looks at the file only.  It always
    answers 200 and leaves the cache alone; "model_loaded" is true
    exactly when a file exists under MODEL_PATH.  So it reports
    "healthy" for a file that does not deserialise, although a valid
    request then gets a 500, and it reports "degraded" once the file is
    gone, although requests are still served from the cached model. *)
Theorem health_reports_the_file (env : App.Env) (fs : Storage) (w : World) :
  let w' := fst (Health.health env fs w) in
  let r := snd (Health.health env fs w) in
  Health.code r = 200
  /\ cached_model w' = cached_model w
  /\ Predict.model_path w' = Predict.model_path w
  /\ events w' = events w ++ [EvExists (App.MODEL_PATH env)]
  /\ (Health.model_loaded r = true <-> fs (App.MODEL_PATH env) <> Absent)
  /\ (Health.status r = "healthy" <-> fs (App.MODEL_PATH env) <> Absent)
  /\ (forall e data data',
        fs (App.MODEL_PATH env) = Present (Raise e) ->
        cache_miss w' (App.MODEL_PATH env) ->
        App.validate env data = App.Next data' ->
        Health.status r = "healthy"
        /\ App.code (snd (App.predict env fs data w')) = 500)
  /\ (forall h data data',
        fs (App.MODEL_PATH env) = Absent ->
        cached_model w = Some h ->
        Predict.model_path w = Some (App.MODEL_PATH env) ->
        App.validate env data = App.Next data' ->
        Health.status r = "degraded"
        /\ load_model fs (App.MODEL_PATH env) w' = (w', Ok h)
        /\ HandlerFacts.storage_events (fst (App.predict env fs data w'))
           = HandlerFacts.storage_events w').
Proof.
  unfold Health.health, Health.path_exists. cbn [fst snd].
  split; [reflexivity|]. split; [reflexivity|]. split; [reflexivity|].
  split; [reflexivity|]. cbn [Health.model_loaded Health.status].
  split; [|split; [|split]].
  - destruct (fs (App.MODEL_PATH env)); split; congruence.
  - destruct (fs (App.MODEL_PATH env)); split; try congruence; discriminate.
  - intros e data data' F M V. rewrite F. split; [reflexivity|].
    unfold App.predict, predict_match. rewrite V.
    rewrite (load_model_miss _ _ _ M). unfold load_from_storage. rewrite F.
    destruct e; reflexivity.
  - intros h data data' F C P V. rewrite F. split; [reflexivity|].
    split; [apply load_model_hit; auto|].
    unfold App.predict. rewrite V.
    pose proof (HandlerFacts.predict_match_hit
                  fs data' (App.MODEL_PATH env)
                  (log (EvExists (App.MODEL_PATH env)) w) h C P) as K.
    destruct (predict_match fs data' (App.MODEL_PATH env)
                            (log (EvExists (App.MODEL_PATH env)) w)) as [w2 [res|e]];
      cbn [fst] in *; apply K.
Qed.

End HealthFacts.
